(** * chameleon.js: the mesh-painting engine of [src/ts/chameleon.ts]

    A shallow embedding of [AffectedFacesRecorder], [TextureManager] and the
    texture-switching part of [Controls], and the properties of the
    flood-fill, the face adjacency and the texture reconciliation.

    JavaScript numbers are IEEE 754 binary64 values: they are modelled by
    Rocq's primitive floats, whose operations are the same binary64
    operations (round to nearest even, one NaN). Typed arrays are lists with
    the wrap-around of their element type; reads out of range give
    [undefined] ([None]) and writes out of range are dropped, as in
    JavaScript. Property access on [undefined] raises [TypeError]; a call
    that does not fit on the call stack raises [RangeError]; drawing a
    canvas without pixels raises [InvalidStateError]. *)

From Stdlib Require Import ZArith List Bool Lia Floats.
From stdpp Require Import base list.

Set Warnings "-inexact-float".

(** ** JavaScript values *)

Module Js.

(** [InvalidStateError] is the [DOMException] of that name. *)
Inductive Error := TypeError | RangeError | InvalidStateError.

(** The outcome of a call: a value or a thrown exception. *)
Inductive result (A : Type) : Type :=
| Ok (a : A)
| Throw (e : Error).
Arguments Ok {A} a.
Arguments Throw {A} e.

Definition bind {A B} (m : result A) (k : A -> result B) : result B :=
  match m with
  | Ok a => k a
  | Throw e => Throw e
  end.

(** [o] is the value of a property read; reading a property of
    [undefined] throws. *)
Definition defined {A} (o : option A) : result A :=
  match o with
  | Some a => Ok a
  | None => Throw TypeError
  end.

(** A [for] loop over the indices [xs], threading the state. *)
Fixpoint for_each {A S} (xs : list A) (body : A -> S -> result S) (s : S)
  : result S :=
  match xs with
  | [] => Ok s
  | x :: xs' => bind (body x s) (for_each xs' body)
  end.

(** *** Numbers *)

Definition is_pos_zero (x : float) : bool :=
  (x =? 0)%float && (0 <? 1 / x)%float.
Definition is_neg_zero (x : float) : bool :=
  (x =? 0)%float && (1 / x <? 0)%float.

(** [Math.max(x1, ..., xn)]: NaN if an argument is NaN, otherwise the
    largest one, starting from -Infinity, with +0 above -0. *)
Fixpoint max_from (highest : float) (xs : list float) : float :=
  match xs with
  | [] => highest
  | x :: xs' =>
      if is_nan x then nan
      else if is_pos_zero x && is_neg_zero highest then max_from x xs'
      else if (highest <? x)%float then max_from x xs'
      else max_from highest xs'
  end.
Definition Math_max (xs : list float) : float := max_from neg_infinity xs.

Fixpoint min_from (lowest : float) (xs : list float) : float :=
  match xs with
  | [] => lowest
  | x :: xs' =>
      if is_nan x then nan
      else if is_neg_zero x && is_pos_zero lowest then min_from x xs'
      else if (x <? lowest)%float then min_from x xs'
      else min_from lowest xs'
  end.
Definition Math_min (xs : list float) : float := min_from infinity xs.

(** [a[i]] for an array [a] and a number [i]: [undefined] outside the
    array. *)
Definition element {A} (a : list A) (i : Z) : option A :=
  if (0 <=? i)%Z then a !! Z.to_nat i else None.

(** *** Typed arrays

    [Uint8Array] and [Uint32Array] are lists of integers. An index that
    is not an element index reads as [undefined], and a write to it does
    nothing; a stored value is reduced modulo the element size. *)

Definition typed_new (n : nat) : list Z := replicate n 0%Z.

Definition typed_get (a : list Z) (i : Z) : option Z :=
  if (0 <=? i)%Z then a !! Z.to_nat i else None.

Definition typed_put (modulus : Z) (a : list Z) (i : Z) (v : Z) : list Z :=
  if (0 <=? i)%Z then <[Z.to_nat i := (v mod modulus)%Z]> a else a.

Definition uint8_put := typed_put 256.
Definition uint32_put := typed_put 4294967296.

(** [target.set(source)]: copies [source] over the start of [target];
    a source longer than the target is a [RangeError]. *)
Definition typed_set (target source : list Z) : result (list Z) :=
  if (length source <=? length target)%nat
  then Ok (source ++ drop (length source) target)
  else Throw RangeError.

(** [!v] for the value of an element read. *)
Definition falsy (v : option Z) : bool :=
  match v with
  | Some n => (n =? 0)%Z
  | None => true
  end.

End Js.

Export Js.

Notation "'do' x <- m ; k" := (Js.bind m (fun x => k))
  (at level 10, x name, m at level 100, k at level 200).

(** ** THREE.Vector2, THREE.Vector3, THREE.Face3 *)

Module Vector2.
Record t := mk { x : float; y : float }.
End Vector2.

Module Vector3.
Record t := mk { x : float; y : float; z : float }.

(** [v.dot(w)] *)
Definition dot (v w : t) : float :=
  (x v * x w + y v * y w + z v * z w)%float.
End Vector3.

Module Face3.
Record t := mk {
  a : nat; b : nat; c : nat;
  normal : Vector3.t;
  materialIndex : Z
}.
End Face3.

(** ** AffectedFacesRecorder *)

Module AffectedFacesRecorder.

Record t := mk {
  _nAffectedFaces : nat;
  _affectedFaces : list Z;          (* Uint32Array *)
  _isFaceAffected : list Z;         (* Uint8Array, used as booleans *)
  _isFaceAffectedEmpty : list Z     (* Uint8Array, never modified *)
}.

Definition constructor (nFaces : nat) : t :=
  mk 0 (typed_new nFaces) (typed_new nFaces) (typed_new nFaces).

Definition add (faceIndex : Z) (r : t) : t :=
  if falsy (typed_get (_isFaceAffected r) faceIndex) then
    mk (S (_nAffectedFaces r))
       (uint32_put (_affectedFaces r) (Z.of_nat (_nAffectedFaces r)) faceIndex)
       (uint8_put (_isFaceAffected r) faceIndex 1)
       (_isFaceAffectedEmpty r)
  else r.

Definition reset (r : t) : result t :=
  do flags <- typed_set (_isFaceAffected r) (_isFaceAffectedEmpty r);
  Ok (mk 0 (_affectedFaces r) flags (_isFaceAffectedEmpty r)).

(** The arguments [forEach] passes to its callback, in order:
    [_affectedFaces[i]] for [i < _nAffectedFaces]. *)
Definition forEach_items (r : t) : list (option Z) :=
  map (fun i => _affectedFaces r !! i) (seq 0 (_nAffectedFaces r)).

Definition length (r : t) : nat := _nAffectedFaces r.

Definition contains (faceIndex : Z) (r : t) : bool :=
  negb (falsy (typed_get (_isFaceAffected r) faceIndex)).

End AffectedFacesRecorder.

(** ** The DOM and THREE objects the texture manager holds *)

(** What has been drawn on the drawing canvas since it was last cleared,
    oldest first. The pixels themselves belong to the browser; an
    operation stands for its effect on them. *)
Inductive CanvasOp :=
| DrawRendererOutput (renderCall : nat)
    (* drawImage(renderer.domElement, 0, 0), after that call of render *)
| RectClip (x y w h : float)    (* context.rect(x, y, w, h); context.clip() *)
| StartStroke (position : Vector2.t)      (* brush.startStroke *)
| ContinueStroke (position : Vector2.t)   (* brush.continueStoke *)
| FinishStroke.                            (* brush.finishStroke *)

Module Canvas.
Record t := mk { width : float; height : float; ops : list CanvasOp }.

(** [document.createElement('canvas')] *)
Definition create : t := mk 300 150 [].

(** The integer part of a number; 0 for NaN and the infinities. *)
Definition integer_part (v : float) : Z :=
  match Prim2SF v with
  | S754_finite s m e =>
      let n := if (0 <=? e)%Z then (Z.pos m * 2 ^ e)%Z
               else (Z.pos m / 2 ^ (- e))%Z in
      if s then (- n)%Z else n
  | _ => 0%Z
  end.

(** The value [canvas.width] (or [height]) has after [canvas.width = v]:
    [v] converted to an unsigned long, replaced by the attribute's
    default when it is above 2^31 - 1. *)
Definition dimension (default : float) (v : float) : float :=
  let n := (integer_part v mod 4294967296)%Z in
  if (n <=? 2147483647)%Z then of_uint63 (Uint63.of_Z n) else default.

(** A canvas has pixels when neither its width nor its height is zero;
    [drawImage] with a canvas without pixels as its source is an
    [InvalidStateError]. *)
Definition has_pixels (canvas : t) : bool :=
  negb ((width canvas =? 0)%float || (height canvas =? 0)%float).
End Canvas.

(** The image of a face material's texture: the shared white 1x1 canvas of
    [initializeViewingTexture], or a patch canvas cut out of the drawing
    canvas by [drawImage(source, sx, sy, sw, sh, 0, 0, sw, sh)]. *)
Inductive Image :=
| SinglePixelCanvas
| PatchCanvas (width height : float) (source : Canvas.t) (sx sy sw sh : float).

(** Which array [geometry.faceVertexUvs[0]] refers to, and which material
    a mesh has. *)
Inductive Layer := NoLayer | ViewingLayer | DrawingLayer.

Module Geometry.
Record t := mk {
  vertices : list Vector3.t;
  faces : list Face3.t;
  faceVertexUvs0 : Layer
}.
End Geometry.

(** The texture of a canvas. three.js clears [needsUpdate] when it has
    uploaded the texture; the code only ever sets it, and [needsUpdate]
    is the number of times it has. *)
Module Texture.
Record t := mk { needsUpdate : nat }.

(** [new THREE.Texture(canvas)] *)
Definition create : t := mk 0.

(** [texture.needsUpdate = true] *)
Definition set_needsUpdate (texture : t) : t := mk (S (needsUpdate texture)).
End Texture.

Module Renderer.
(** The width and the height [setSize] gave the renderer's canvas, and
    the number of calls of [render]. *)
Record t := mk { domElement_width : float; domElement_height : float;
                 renderCalls : nat }.
Definition render (r : t) : t :=
  mk (domElement_width r) (domElement_height r) (S (renderCalls r)).

(** The renderer's canvas has pixels: its width and its height, which
    are unsigned longs as those of every canvas, are not zero. *)
Definition visible (r : t) : bool :=
  Canvas.has_pixels
    (Canvas.mk (Canvas.dimension 300 (domElement_width r))
               (Canvas.dimension 150 (domElement_height r)) []).

(** [context.drawImage(renderer.domElement, 0, 0)]: the operation on the
    target canvas; a source canvas of width or height zero is an
    [InvalidStateError]. *)
Definition drawImage (r : t) : result CanvasOp :=
  if visible r then Ok (DrawRendererOutput (renderCalls r))
  else Throw InvalidStateError.
End Renderer.

(** The part of three.js, of the browser and of the JavaScript engine the
    code relies on and that is not in the source: the camera and its
    projection, vector normalisation, the ray caster, the depth of the
    call stack, and what becomes of a call of the brush: [Controls.brush]
    is any implementation of the interface [Brush], and those of the
    source draw images the browser loads, for which [drawImage] throws
    when the image failed to load. *)
Class Three := {
  Camera : Type;
  position : Camera -> Vector3.t;                       (* camera.position *)
  normalize : Vector3.t -> Vector3.t;                   (* v.normalize() *)
  project : Vector3.t -> Camera -> Vector3.t;           (* v.project(camera) *)
  unproject : Vector3.t -> Camera -> Vector3.t;         (* v.unproject(camera) *)
  transformDirection : Vector3.t -> Camera -> Vector3.t;
    (* v.transformDirection(camera.matrixWorld) *)
  intersectObject : Vector3.t -> Vector3.t -> Geometry.t -> list Face3.t;
    (* the faces of new Raycaster(origin, direction).intersectObject(mesh),
       nearest first *)
  callStack : nat;
    (* how many nested calls of _add_recursive, each with the calls it
       makes to the collision tests, fit on the call stack when
       onStrokePainted makes the first one *)
  brushThrows : CanvasOp -> Canvas.t -> option Error
    (* the exception of a call of the brush on the drawing canvas, if it
       throws one *)
}.

Definition Uvs : Type := Vector2.t * Vector2.t * Vector2.t.

(** ** TextureManager: the 2D tests of the flood-fill *)

Section Collide.
Local Open Scope float_scope.
Import Vector2.

Definition _pointCircleCollide (point circle : Vector2.t) (r : float) : bool :=
  if r =? 0 then false
  else
    let dx := x circle - x point in
    let dy := y circle - y point in
    dx * dx + dy * dy <=? r * r.

(** [nearest] is the array [[x1 + px, y1 + py]]: it has no property [x]
    or [y], so [_pointCircleCollide] reads [undefined] from it, and
    [circle.x - undefined] is NaN. *)
Definition nearest_as_point (nearest : float * float) : Vector2.t :=
  Vector2.mk nan nan.

Definition _lineCircleCollide (a b circle : Vector2.t) (radius : float) : bool :=
  if _pointCircleCollide a circle radius then true
  else if _pointCircleCollide b circle radius then true
  else
    let x1 := x a in let y1 := y a in
    let x2 := x b in let y2 := y b in
    let cx := x circle in let cy := y circle in
    let dx := x2 - x1 in
    let dy := y2 - y1 in
    let lcx := cx - x1 in
    let lcy := cy - y1 in
    let dLen2 := dx * dx + dy * dy in
    let '(px, py) :=
      if 0 <? dLen2 then
        let dp := (lcx * dx + lcy * dy) / dLen2 in (dx * dp, dy * dp)
      else (dx, dy) in
    let nearest := (x1 + px, y1 + py) in
    let pLen2 := px * px + py * py in
    _pointCircleCollide (nearest_as_point nearest) circle radius
    && (pLen2 <=? dLen2) && (0 <=? px * dx + py * dy).

(** The barycentric denominator [b] of [_pointInTriangle]. *)
Definition bary_denominator (t0 t1 t2 : Vector2.t) : float :=
  let v0x := x t2 - x t0 in let v0y := y t2 - y t0 in
  let v1x := x t1 - x t0 in let v1y := y t1 - y t0 in
  let dot00 := v0x * v0x + v0y * v0y in
  let dot01 := v0x * v1x + v0y * v1y in
  let dot11 := v1x * v1x + v1y * v1y in
  dot00 * dot11 - dot01 * dot01.

(** The numerators of [u] and [v], before the multiplication by [inv]. *)
Definition bary_numerators (point t0 t1 t2 : Vector2.t) : float * float :=
  let cx := x point in let cy := y point in
  let v0x := x t2 - x t0 in let v0y := y t2 - y t0 in
  let v1x := x t1 - x t0 in let v1y := y t1 - y t0 in
  let v2x := cx - x t0 in let v2y := cy - y t0 in
  let dot00 := v0x * v0x + v0y * v0y in
  let dot01 := v0x * v1x + v0y * v1y in
  let dot02 := v0x * v2x + v0y * v2y in
  let dot11 := v1x * v1x + v1y * v1y in
  let dot12 := v1x * v2x + v1y * v2y in
  (dot11 * dot02 - dot01 * dot12, dot00 * dot12 - dot01 * dot02).

Definition _pointInTriangle (point t0 t1 t2 : Vector2.t) : bool :=
  let b := bary_denominator t0 t1 t2 in
  let inv := if b =? 0 then 0 else 1 / b in
  let u := fst (bary_numerators point t0 t1 t2) * inv in
  let v := snd (bary_numerators point t0 t1 t2) * inv in
  (0 <=? u) && (0 <=? v) && (u + v <=? 1).

End Collide.

(** ** TextureManager *)

Section TextureManager.
Context `{Three}.

Record TextureManager := mkTextureManager {
  geometry : Geometry.t;
  renderer : Renderer.t;
  camera : Camera;
  _viewingTextureUvs : list Uvs;
  _viewingMaterial : list Image;     (* materials[i].map.image *)
  _drawingTextureUvs : list Uvs;
  _drawingCanvas : Canvas.t;
  _drawingMaterial : Texture.t;      (* _drawingMaterial.map *)
  _drawingVertexUvs : list Vector2.t;
  _affectedFaces : AffectedFacesRecorder.t;
  _isFloodFillEmpty : list Z;        (* Uint8Array *)
  _isFloodFill : list Z;             (* Uint8Array *)
  _nAdjacentFaces : list Z;          (* Uint8Array *)
  _AdjacentFacesList : list (list Z) (* Uint32Array[] *)
}.

Definition set_isFloodFill (v : list Z) (tm : TextureManager) : TextureManager :=
  mkTextureManager (geometry tm) (renderer tm) (camera tm)
    (_viewingTextureUvs tm) (_viewingMaterial tm) (_drawingTextureUvs tm)
    (_drawingCanvas tm) (_drawingMaterial tm) (_drawingVertexUvs tm)
    (_affectedFaces tm)
    (_isFloodFillEmpty tm) v (_nAdjacentFaces tm) (_AdjacentFacesList tm).

Definition set_affectedFaces (v : AffectedFacesRecorder.t) (tm : TextureManager)
  : TextureManager :=
  mkTextureManager (geometry tm) (renderer tm) (camera tm)
    (_viewingTextureUvs tm) (_viewingMaterial tm) (_drawingTextureUvs tm)
    (_drawingCanvas tm) (_drawingMaterial tm) (_drawingVertexUvs tm) v
    (_isFloodFillEmpty tm) (_isFloodFill tm) (_nAdjacentFaces tm)
    (_AdjacentFacesList tm).

Definition set_drawingMaterial (v : Texture.t) (tm : TextureManager)
  : TextureManager :=
  mkTextureManager (geometry tm) (renderer tm) (camera tm)
    (_viewingTextureUvs tm) (_viewingMaterial tm) (_drawingTextureUvs tm)
    (_drawingCanvas tm) v (_drawingVertexUvs tm) (_affectedFaces tm)
    (_isFloodFillEmpty tm) (_isFloodFill tm) (_nAdjacentFaces tm)
    (_AdjacentFacesList tm).

Definition set_renderer (r : Renderer.t) (tm : TextureManager) : TextureManager :=
  mkTextureManager (geometry tm) r (camera tm)
    (_viewingTextureUvs tm) (_viewingMaterial tm) (_drawingTextureUvs tm)
    (_drawingCanvas tm) (_drawingMaterial tm) (_drawingVertexUvs tm)
    (_affectedFaces tm)
    (_isFloodFillEmpty tm) (_isFloodFill tm) (_nAdjacentFaces tm)
    (_AdjacentFacesList tm).

Definition set_camera (v : Camera) (tm : TextureManager) : TextureManager :=
  mkTextureManager (geometry tm) (renderer tm) v
    (_viewingTextureUvs tm) (_viewingMaterial tm) (_drawingTextureUvs tm)
    (_drawingCanvas tm) (_drawingMaterial tm) (_drawingVertexUvs tm)
    (_affectedFaces tm)
    (_isFloodFillEmpty tm) (_isFloodFill tm) (_nAdjacentFaces tm)
    (_AdjacentFacesList tm).

(** *** The flood-fill *)

(** A drawing UV in canvas pixels: [u * width], [(1 - v) * height]. *)
Definition to_pixels (canvas : Canvas.t) (uv : Vector2.t) : Vector2.t :=
  Vector2.mk (Vector2.x uv * Canvas.width canvas)%float
             ((1 - Vector2.y uv) * Canvas.height canvas)%float.

(** [inside || collide1 || collide2 || collide3] for the face with the
    drawing UVs [uvs]. *)
Definition intersects (canvas : Canvas.t) (uvs : Uvs)
    (center : Vector2.t) (radius : float) : bool :=
  let '(uv1, uv2, uv3) := uvs in
  let v1 := to_pixels canvas uv1 in
  let v2 := to_pixels canvas uv2 in
  let v3 := to_pixels canvas uv3 in
  let inside := _pointInTriangle center v1 v2 v3 in
  let collide1 := _lineCircleCollide v1 v2 center radius in
  let collide2 := _lineCircleCollide v2 v3 center radius in
  let collide3 := _lineCircleCollide v3 v1 center radius in
  inside || collide1 || collide2 || collide3.

(** The loop bound [this._nAdjacentFaces[faceIndex]]; [i < undefined] is
    false. *)
Definition nAdjacent (tm : TextureManager) (faceIndex : Z) : nat :=
  match typed_get (_nAdjacentFaces tm) faceIndex with
  | Some n => Z.to_nat n
  | None => 0
  end.

(** [this._AdjacentFacesList[faceIndex][i]] *)
Definition adjacentFace (tm : TextureManager) (faceIndex : Z) (i : nat)
  : result Z :=
  do row <- defined (_AdjacentFacesList tm !! Z.to_nat faceIndex);
  defined (row !! i).

(** [this.geometry.faces[newfaceIndex].normal.dot(cameradirection) > 0] *)
Definition facesCamera (tm : TextureManager) (newfaceIndex : Z) : result bool :=
  do face <- defined (element (Geometry.faces (geometry tm)) newfaceIndex);
  let cameradirection := normalize (position (camera tm)) in
  Ok (0 <? Vector3.dot (Face3.normal face) cameradirection)%float.

(** [this._isFloodFill[faceIndex] = 1; this._affectedFaces.add(faceIndex)] *)
Definition mark_face (faceIndex : Z) (tm : TextureManager) : TextureManager :=
  let tm1 := set_isFloodFill (uint8_put (_isFloodFill tm) faceIndex 1) tm in
  set_affectedFaces (AffectedFacesRecorder.add faceIndex (_affectedFaces tm1)) tm1.

(** The body of the loop over the neighbours of [faceIndex]; [recurse] is
    the recursive call. *)
Definition visit_neighbour (recurse : Z -> TextureManager -> result TextureManager)
    (faceIndex : Z) (i : nat) (tm : TextureManager) : result TextureManager :=
  do newfaceIndex <- adjacentFace tm faceIndex i;
  do front <- facesCamera tm newfaceIndex;
  if front then recurse newfaceIndex tm else Ok tm.

(** [stack] is the number of nested calls the call stack still holds: a
    call that does not fit is a [RangeError], and every call that runs
    leaves one place less to the calls it makes. *)
Fixpoint _add_recursive (stack : nat) (faceIndex : Z) (center : Vector2.t)
    (radius : float) (tm : TextureManager) : result TextureManager :=
  match stack with
  | O => Throw RangeError
  | S stack' =>
      if (0 <=? faceIndex)%Z && falsy (typed_get (_isFloodFill tm) faceIndex)
      then
        do uvs <- defined (_drawingTextureUvs tm !! Z.to_nat faceIndex);
        if intersects (_drawingCanvas tm) uvs center radius then
          let tm2 := mark_face faceIndex tm in
          for_each (seq 0 (nAdjacent tm2 faceIndex))
            (visit_neighbour
               (fun newfaceIndex tm' =>
                  _add_recursive stack' newfaceIndex center radius tm')
               faceIndex)
            tm2
        else Ok tm
      else Ok tm
  end.

Definition _castRayFromMouse (canvasPos : Vector2.t) (tm : TextureManager)
  : list Face3.t :=
  let mouse3d :=
    unproject
      (Vector3.mk
         (Vector2.x canvasPos / Canvas.width (_drawingCanvas tm) * 2 - 1)%float
         (- Vector2.y canvasPos / Canvas.height (_drawingCanvas tm) * 2 + 1)%float
         (-10000)%float)
      (camera tm) in
  let direction :=
    transformDirection (Vector3.mk 0 0 (-1))%float (camera tm) in
  intersectObject mouse3d direction (geometry tm).

(** The recursion nests one call for each face it marks, and one more
    that finds its face marked: it needs the call stack to hold up to
    one call more than there are faces. *)
Definition onStrokePainted (canvasPos : Vector2.t) (radius : float)
    (tm : TextureManager) : result TextureManager :=
  match _castRayFromMouse canvasPos tm with
  | [] => Ok tm
  | hit :: _ =>
      let tm1 :=
        set_drawingMaterial (Texture.set_needsUpdate (_drawingMaterial tm)) tm in
      let faceIndex := Face3.materialIndex hit in
      do flags <- typed_set (_isFloodFill tm1) (_isFloodFillEmpty tm1);
      _add_recursive callStack faceIndex canvasPos radius
        (set_isFloodFill flags tm1)
  end.

End TextureManager.

(** *** The constructor: initial textures and the face adjacency *)

Section Construction.
Context `{Three}.

(** The test of the innermost loop, for the vertices [p] of face [i] and
    [q] of face [j]. *)
Definition coincide (p q : Vector3.t) (normal_i normal_j : Vector3.t) : bool :=
  (Vector3.x p =? Vector3.x q)%float
  && (Vector3.y p =? Vector3.y q)%float
  && (Vector3.z p =? Vector3.z q)%float
  && (0 <? Vector3.dot normal_i normal_j)%float.

(** [count] after the loops over [k] and [l]. *)
Definition count_coincidences (vertices : list Vector3.t) (fi fj : Face3.t)
  : result nat :=
  let vi := [Face3.a fi; Face3.b fi; Face3.c fi] in
  let vj := [Face3.a fj; Face3.b fj; Face3.c fj] in
  for_each vi
    (fun k count =>
       for_each vj
         (fun l count =>
            do p <- defined (vertices !! k);
            do q <- defined (vertices !! l);
            Ok (if coincide p q (Face3.normal fi) (Face3.normal fj)
                then S count else count))
         count)
    0.

(** The body of [if (count == 2)], on
    [(_nAdjacentFaces, _AdjacentFacesList)]. *)
Definition record_neighbours (i j : nat) (st : list Z * list (list Z))
  : result (list Z * list (list Z)) :=
  let '(n, adj) := st in
  do ni <- defined (n !! i);
  do row_i <- defined (adj !! i);
  let adj1 := <[i := uint32_put row_i ni (Z.of_nat j)]> adj in
  do nj <- defined (n !! j);
  do row_j <- defined (adj1 !! j);
  let adj2 := <[j := uint32_put row_j nj (Z.of_nat i)]> adj1 in
  let n1 := uint8_put n (Z.of_nat i) (ni + 1) in
  do nj' <- defined (n1 !! j);
  let n2 := uint8_put n1 (Z.of_nat j) (nj' + 1) in
  Ok (n2, adj2).

Definition adjacency_pair (g : Geometry.t) (i j : nat)
    (st : list Z * list (list Z)) : result (list Z * list (list Z)) :=
  do fi <- defined (Geometry.faces g !! i);
  do fj <- defined (Geometry.faces g !! j);
  do count <- count_coincidences (Geometry.vertices g) fi fj;
  if (count =? 2)%nat then record_neighbours i j st else Ok st.

(** The two loops [for i < faces.length - 1], [for j = i + 1 < faces.length]. *)
Definition build_adjacency (g : Geometry.t) : result (list Z * list (list Z)) :=
  let nFaces := length (Geometry.faces g) in
  for_each (seq 0 (nFaces - 1))
    (fun i st =>
       for_each (seq (S i) (nFaces - S i)) (fun j st => adjacency_pair g i j st) st)
    (typed_new nFaces, replicate nFaces (typed_new nFaces)).

(** [faces[i].materialIndex = i] *)
Definition index_materials (faces : list Face3.t) : list Face3.t :=
  imap (fun i f => Face3.mk (Face3.a f) (Face3.b f) (Face3.c f) (Face3.normal f)
                     (Z.of_nat i)) faces.

Definition constructor (geometry0 : Geometry.t) (renderer : Renderer.t)
    (camera : Camera) : result TextureManager :=
  let nFaces := length (Geometry.faces geometry0) in
  let affectedFaces := AffectedFacesRecorder.constructor nFaces in
  (* initializeViewingTexture *)
  let geometry :=
    Geometry.mk (Geometry.vertices geometry0)
      (index_materials (Geometry.faces geometry0))
      (Geometry.faceVertexUvs0 geometry0) in
  let half := Vector2.mk 0.5 0.5 in
  let viewingTextureUvs := replicate nFaces (half, half, half) in
  let viewingMaterial := replicate nFaces SinglePixelCanvas in
  (* initializeDrawingTexture *)
  let zero := Vector2.mk 0 0 in
  let drawingVertexUvs := replicate (length (Geometry.vertices geometry)) zero in
  let drawingTextureUvs := replicate nFaces (zero, zero, zero) in
  let drawingCanvas := Canvas.create in
  let drawingMaterial := Texture.create in
  let isFloodFillEmpty := typed_new nFaces in
  let isFloodFill := typed_new nFaces in
  do adjacency <- build_adjacency geometry;
  Ok (mkTextureManager geometry renderer camera
        viewingTextureUvs viewingMaterial drawingTextureUvs drawingCanvas
        drawingMaterial drawingVertexUvs affectedFaces isFloodFillEmpty
        isFloodFill (fst adjacency) (snd adjacency)).

(** The neighbours of a face as the flood-fill reads them: the first
    [_nAdjacentFaces[i]] entries of [_AdjacentFacesList[i]]. *)
Definition neighbours (tm : TextureManager) (i : nat) : list Z :=
  match _AdjacentFacesList tm !! i with
  | Some row => take (nAdjacent tm (Z.of_nat i)) row
  | None => []
  end.

End Construction.

(** *** Switching between the viewing and the drawing texture *)

Section Textures.
Context `{Three}.

Import Vector2.

Record Bounds := mkBounds { uMax : float; uMin : float; vMax : float; vMin : float }.

(** The body of the first [forEach] of [prepareViewingTexture]. *)
Definition grow_bounds (tm : TextureManager) (item : option Z) (bd : Bounds)
  : result Bounds :=
  do faceIndex <- defined item;
  do drawingUvs <- defined (element (_drawingTextureUvs tm) faceIndex);
  let '(uv0, uv1, uv2) := drawingUvs in
  Ok (mkBounds
        (Math_max [uMax bd; x uv0; x uv1; x uv2])
        (Math_min [uMin bd; x uv0; x uv1; x uv2])
        (Math_max [vMax bd; y uv0; y uv1; y uv2])
        (Math_min [vMin bd; y uv0; y uv1; y uv2])).

(** A drawing UV in the coordinates of the patch. *)
Definition remap (canvas : Canvas.t) (bd : Bounds) (patch_width patch_height : float)
    (drawingUV : Vector2.t) : Vector2.t :=
  Vector2.mk
    ((x drawingUV - uMin bd) * Canvas.width canvas / patch_width)%float
    ((y drawingUV - vMin bd) * Canvas.height canvas / patch_height)%float.

(** The body of the second [forEach]: the material and the viewing UVs of
    one affected face, on [(_viewingMaterial, _viewingTextureUvs)]. *)
Definition repaint_face (tm : TextureManager) (patchCanvas : Image)
    (f : Vector2.t -> Vector2.t) (item : option Z)
    (st : list Image * list Uvs) : result (list Image * list Uvs) :=
  let '(materials, uvs) := st in
  do faceIndex <- defined item;
  do faceMaterial <- defined (element materials faceIndex);
  let materials' := <[Z.to_nat faceIndex := patchCanvas]> materials in
  do drawingUvs <- defined (element (_drawingTextureUvs tm) faceIndex);
  do viewingUvs <- defined (element uvs faceIndex);
  let '(uv0, uv1, uv2) := drawingUvs in
  Ok (materials', <[Z.to_nat faceIndex := (f uv0, f uv1, f uv2)]> uvs).

Definition prepareViewingTexture (tm : TextureManager) : result TextureManager :=
  if (0 <? AffectedFacesRecorder.length (_affectedFaces tm))%nat then
    let items := AffectedFacesRecorder.forEach_items (_affectedFaces tm) in
    do bd <- for_each items (grow_bounds tm)
               (mkBounds neg_infinity infinity neg_infinity infinity);
    let canvas := _drawingCanvas tm in
    let xMax := (uMax bd * Canvas.width canvas)%float in
    let xMin := (uMin bd * Canvas.width canvas)%float in
    let yMax := ((1 - vMin bd) * Canvas.height canvas)%float in
    let yMin := ((1 - vMax bd) * Canvas.height canvas)%float in
    let canvas' :=
      Canvas.mk (Canvas.width canvas) (Canvas.height canvas)
        (Canvas.ops canvas ++ [RectClip xMin yMin xMax yMax]) in
    let patch_width := Canvas.dimension 300 (xMax - xMin) in
    let patch_height := Canvas.dimension 150 (yMax - yMin) in
    let patchCanvas :=
      PatchCanvas patch_width patch_height canvas'
        xMin yMin patch_width patch_height in
    do painted <- for_each items
                    (repaint_face tm patchCanvas
                       (remap canvas bd patch_width patch_height))
                    (_viewingMaterial tm, _viewingTextureUvs tm);
    do recorder <- AffectedFacesRecorder.reset (_affectedFaces tm);
    Ok (mkTextureManager (geometry tm) (renderer tm) (camera tm)
          (snd painted) (fst painted) (_drawingTextureUvs tm) canvas'
          (_drawingMaterial tm) (_drawingVertexUvs tm) recorder
          (_isFloodFillEmpty tm) (_isFloodFill tm) (_nAdjacentFaces tm)
          (_AdjacentFacesList tm))
  else Ok tm.

(** A mesh: the material it is drawn with. Its geometry is the texture
    manager's. *)
Record Mesh := mkMesh { material : Layer }.

Definition set_faceVertexUvs0 (l : Layer) (tm : TextureManager) : TextureManager :=
  mkTextureManager
    (Geometry.mk (Geometry.vertices (geometry tm)) (Geometry.faces (geometry tm)) l)
    (renderer tm) (camera tm)
    (_viewingTextureUvs tm) (_viewingMaterial tm) (_drawingTextureUvs tm)
    (_drawingCanvas tm) (_drawingMaterial tm) (_drawingVertexUvs tm)
    (_affectedFaces tm)
    (_isFloodFillEmpty tm) (_isFloodFill tm) (_nAdjacentFaces tm)
    (_AdjacentFacesList tm).

Definition applyViewingTexture (mesh : Mesh) (tm : TextureManager)
  : TextureManager * Mesh :=
  (set_faceVertexUvs0 ViewingLayer tm, mkMesh ViewingLayer).

Definition applyDrawingTexture (mesh : Mesh) (tm : TextureManager)
  : TextureManager * Mesh :=
  (set_faceVertexUvs0 DrawingLayer tm, mkMesh DrawingLayer).

(** The first loop of [prepareDrawingTexture], on [_drawingVertexUvs]. *)
Definition project_vertex (tm : TextureManager) (i : nat) (vertexUvs : list Vector2.t)
  : result (list Vector2.t) :=
  do vertex <- defined (Geometry.vertices (geometry tm) !! i);
  let projectedPosition := project vertex (camera tm) in
  do uv <- defined (vertexUvs !! i);
  Ok (<[i := Vector2.mk ((Vector3.x projectedPosition + 1) / 2)%float
                        ((Vector3.y projectedPosition + 1) / 2)%float]> vertexUvs).

(** The second loop, on [_drawingTextureUvs]. *)
Definition copy_face_uvs (tm : TextureManager) (vertexUvs : list Vector2.t)
    (i : nat) (uvs : list Uvs) : result (list Uvs) :=
  do face <- defined (Geometry.faces (geometry tm) !! i);
  do old <- defined (uvs !! i);
  do uva <- defined (vertexUvs !! Face3.a face);
  do uvb <- defined (vertexUvs !! Face3.b face);
  do uvc <- defined (vertexUvs !! Face3.c face);
  Ok (<[i := (uva, uvb, uvc)]> uvs).

Definition prepareDrawingTexture (tm : TextureManager) : result TextureManager :=
  let renderer' := Renderer.render (renderer tm) in
  do drawn <- Renderer.drawImage renderer';
  let canvas :=
    Canvas.mk (Canvas.dimension 300 (Renderer.domElement_width renderer'))
              (Canvas.dimension 150 (Renderer.domElement_height renderer'))
              [drawn] in
  let material := Texture.set_needsUpdate (_drawingMaterial tm) in
  do vertexUvs <- for_each (seq 0 (length (Geometry.vertices (geometry tm))))
                    (project_vertex tm) (_drawingVertexUvs tm);
  do uvs <- for_each (seq 0 (length (Geometry.faces (geometry tm))))
              (copy_face_uvs tm vertexUvs) (_drawingTextureUvs tm);
  Ok (mkTextureManager (geometry tm) renderer' (camera tm)
        (_viewingTextureUvs tm) (_viewingMaterial tm) uvs canvas
        material vertexUvs (_affectedFaces tm)
        (_isFloodFillEmpty tm) (_isFloodFill tm) (_nAdjacentFaces tm)
        (_AdjacentFacesList tm)).

(** ** Controls: the texture in use *)

Inductive ControlsState := Idle | Draw | View.

Record Controls := mkControls {
  _state : ControlsState;
  _mesh : Mesh;
  brush_radius : float;               (* this.brush.radius *)
  _textureManager : TextureManager;
  _usingViewingTexture : bool;
  canvas : list CanvasOp   (* what update has drawn on this.canvas *)
}.

Definition set_state (s : ControlsState) (c : Controls) : Controls :=
  mkControls s (_mesh c) (brush_radius c) (_textureManager c)
    (_usingViewingTexture c) (canvas c).

Definition set_textureManager (tm : TextureManager) (c : Controls) : Controls :=
  mkControls (_state c) (_mesh c) (brush_radius c) tm
    (_usingViewingTexture c) (canvas c).

Definition _useViewingTexture (c : Controls) : result Controls :=
  if _usingViewingTexture c then Ok c
  else
    do tm <- prepareViewingTexture (_textureManager c);
    let '(tm', mesh) := applyViewingTexture (_mesh c) tm in
    Ok (mkControls (_state c) mesh (brush_radius c) tm' true (canvas c)).

Definition _useDrawingTexture (c : Controls) : result Controls :=
  if negb (_usingViewingTexture c) then Ok c
  else
    do tm <- prepareDrawingTexture (_textureManager c);
    let '(tm', mesh) := applyDrawingTexture (_mesh c) tm in
    Ok (mkControls (_state c) mesh (brush_radius c) tm' false (canvas c)).

(** *** A stroke: mouse down, mouse moves, mouse up

    The camera controls are a collaborator outside this model: the calls
    that hand an event to them are left out, and the camera they leave
    is an argument of the calls that move it. The renderer and the camera
    of the controls are the ones the texture manager holds. *)

Definition paint (op : CanvasOp) (tm : TextureManager) : TextureManager :=
  let canvas := _drawingCanvas tm in
  mkTextureManager (geometry tm) (renderer tm) (camera tm)
    (_viewingTextureUvs tm) (_viewingMaterial tm) (_drawingTextureUvs tm)
    (Canvas.mk (Canvas.width canvas) (Canvas.height canvas)
       (Canvas.ops canvas ++ [op]))
    (_drawingMaterial tm) (_drawingVertexUvs tm) (_affectedFaces tm)
    (_isFloodFillEmpty tm) (_isFloodFill tm) (_nAdjacentFaces tm)
    (_AdjacentFacesList tm).

(** A call of the brush: it throws, or it draws on the drawing canvas. *)
Definition brush_call (op : CanvasOp) (tm : TextureManager) : result TextureManager :=
  match brushThrows op (_drawingCanvas tm) with
  | Some e => Throw e
  | None => Ok (paint op tm)
  end.

(** [update]: [camera'] is the camera after [updateCamera]; then the
    scene is rendered and the renderer's canvas is drawn on the canvas
    of the controls. The head light, which is moved to the camera, is
    outside this model. *)
Definition update (camera' : Camera) (c : Controls) : result Controls :=
  let tm := set_camera camera' (_textureManager c) in
  let renderer' := Renderer.render (renderer tm) in
  do drawn <- Renderer.drawImage renderer';
  Ok (mkControls (_state c) (_mesh c) (brush_radius c)
        (set_renderer renderer' tm) (_usingViewingTexture c)
        (canvas c ++ [drawn])).

(** The constructor of [Controls], for the geometry it is given, the
    renderer and the camera as it leaves them and a brush of the given
    radius: a texture manager with the viewing texture applied, a call of
    [handleResize], which finds the viewing texture in use, and a call of
    [update]. The canvas is a new one, or one that gives a 2D context. *)
Definition new_Controls (geometry : Geometry.t) (renderer : Renderer.t)
    (camera : Camera) (radius : float) : result Controls :=
  do tm <- constructor geometry renderer camera;
  let '(tm', mesh) := applyViewingTexture (mkMesh NoLayer) tm in
  update camera (mkControls Idle mesh radius tm' true []).

(** [newBrush] is the radius of the brush made for [_brushType], if it
    names one; otherwise the brush stays. *)
Definition _mousedown (shiftKey : bool) (pos : Vector2.t) (newBrush : option float)
    (c : Controls) : result Controls :=
  match _state c with
  | Idle =>
      if shiftKey then
        _useViewingTexture
          (mkControls View (_mesh c) (brush_radius c) (_textureManager c)
             (_usingViewingTexture c) (canvas c))
      else
        do c1 <- _useDrawingTexture
                   (mkControls Draw (_mesh c) (brush_radius c) (_textureManager c)
                      (_usingViewingTexture c) (canvas c));
        let radius := default (brush_radius c1) newBrush in
        do tm1 <- brush_call (StartStroke pos) (_textureManager c1);
        do tm2 <- onStrokePainted pos radius tm1;
        Ok (mkControls Draw (_mesh c1) radius tm2 (_usingViewingTexture c1)
              (canvas c1))
  | _ => Ok c
  end.

Definition _mousemove (pos : Vector2.t) (c : Controls) : result Controls :=
  match _state c with
  | Idle => Ok c
  | View => Ok c
  | Draw =>
      do tm1 <- brush_call (ContinueStroke pos) (_textureManager c);
      do tm2 <- onStrokePainted pos (brush_radius c) tm1;
      Ok (mkControls Draw (_mesh c) (brush_radius c) tm2 (_usingViewingTexture c)
            (canvas c))
  end.

(** [finishStroke] draws only when a stroke was started, which is the
    case in state [Draw]. [camera'] is the camera after the
    [updateCamera] of [update]. *)
Definition _mouseup (camera' : Camera) (c : Controls) : result Controls :=
  do tm1 <- match _state c with
            | Draw => brush_call FinishStroke (_textureManager c)
            | _ => Ok (_textureManager c)
            end;
  do c1 <- update camera' (set_textureManager tm1 c);
  Ok (set_state Idle c1).

End Textures.

(** ** A small scene to run the model on

    An orthographic camera on the z axis looking at the origin, with the
    view volume [-1, 1] in x and y: projection keeps x and y. The ray
    caster reports the faces whose triangle, seen from the camera,
    contains the ray. *)

Module Scene.
Local Open Scope float_scope.

(** [v.normalize()], as [divideScalar(length())] *)
Definition three_normalize (v : Vector3.t) : Vector3.t :=
  let len := sqrt (Vector3.x v * Vector3.x v + Vector3.y v * Vector3.y v
                   + Vector3.z v * Vector3.z v) in
  if len =? 0 then Vector3.mk 0 0 0
  else Vector3.mk (Vector3.x v * (1 / len)) (Vector3.y v * (1 / len))
                  (Vector3.z v * (1 / len)).

Definition flat (v : Vector3.t) : Vector2.t :=
  Vector2.mk (Vector3.x v) (Vector3.y v).

Definition covers (g : Geometry.t) (origin : Vector3.t) (f : Face3.t) : bool :=
  match Geometry.vertices g !! Face3.a f, Geometry.vertices g !! Face3.b f,
        Geometry.vertices g !! Face3.c f with
  | Some p, Some q, Some r =>
      _pointInTriangle (flat origin) (flat p) (flat q) (flat r)
  | _, _, _ => false
  end.

#[export] Instance orthographic : Three := {|
  Camera := Vector3.t;
  position := fun cam => cam;
  normalize := three_normalize;
  project := fun v _ => v;
  unproject := fun v _ => v;
  transformDirection := fun v _ => v;
  intersectObject := fun origin _ g =>
    List.filter (covers g origin) (Geometry.faces g);
  callStack := 1000;
  brushThrows := fun _ _ => None
|}.

Definition up : Vector3.t := Vector3.mk 0 0 1.
Definition away : Vector3.t := Vector3.mk 0 0 (-1).
Definition eye : Vector3.t := Vector3.mk 0 0 10.
Definition renderer100 : Renderer.t := Renderer.mk 100 100 0.

Definition square_vertices : list Vector3.t :=
  [Vector3.mk (-1) (-1) 0; Vector3.mk 1 (-1) 0; Vector3.mk 1 1 0;
   Vector3.mk (-1) 1 0].

(** The square [-1, 1] x [-1, 1] cut along a diagonal; [normal0] is the
    normal of the first triangle, the second one faces the camera. *)
Definition square (normal0 : Vector3.t) : Geometry.t :=
  Geometry.mk square_vertices
    [Face3.mk 0 1 2 normal0 0; Face3.mk 0 2 3 up 0] NoLayer.

(** A triangle and a collapsed triangle (two corners are the same vertex)
    touching it at one corner. *)
Definition spike : Geometry.t :=
  Geometry.mk
    [Vector3.mk 0 0 0; Vector3.mk 1 0 0; Vector3.mk 0 1 0; Vector3.mk 0 0 1]
    [Face3.mk 0 1 2 up 0; Face3.mk 0 0 3 up 0] NoLayer.

Definition blank : TextureManager :=
  mkTextureManager (Geometry.mk [] [] NoLayer) renderer100 eye [] [] []
    Canvas.create Texture.create [] (AffectedFacesRecorder.constructor 0)
    [] [] [] [].

(** The texture manager of a geometry right after the switch to the
    drawing texture. *)
Definition drawing (g : Geometry.t) : result TextureManager :=
  do tm <- constructor g renderer100 eye; prepareDrawingTexture tm.

Definition from_ok (r : result TextureManager) : TextureManager :=
  match r with
  | Ok tm => tm
  | _ => blank
  end.

Definition spike_face0 : Face3.t := Face3.mk 0 1 2 up 0.
Definition spike_face1 : Face3.t := Face3.mk 0 0 3 up 1.

Definition square_viewing_tm : TextureManager :=
  from_ok (constructor (square up) renderer100 eye).
Definition square_tm : TextureManager := from_ok (drawing (square up)).
Definition square_away_tm : TextureManager := from_ok (drawing (square away)).

(** One flood-fill from the first triangle, around the canvas point
    (75, 75): with radius 0, and with a radius that reaches a corner of
    the second triangle. *)
Definition square_touched : TextureManager :=
  from_ok (_add_recursive 3 0 (Vector2.mk 75 75) 0 square_tm).
Definition square_filled : TextureManager :=
  from_ok (_add_recursive 3 0 (Vector2.mk 75 75) 80 square_tm).

Definition controls_of (r : result Controls) : Controls :=
  match r with
  | Ok c => c
  | _ => mkControls Idle (mkMesh NoLayer) 0 blank true []
  end.

(** A stroke on the square with a brush of radius 1: the mouse goes down
    in the first triangle and moves into the second. *)
Definition square_new : Controls :=
  controls_of (new_Controls (square up) renderer100 eye 1).
Definition square_down : Controls :=
  controls_of (do c0 <- new_Controls (square up) renderer100 eye 1;
               _mousedown false (Vector2.mk 75 75) None c0).
Definition square_moved : Controls :=
  controls_of (_mousemove (Vector2.mk 25 25) square_down).

(** The texture manager after that stroke and the switch back to the
    viewing texture, and the one of a new page after a switch to the
    drawing texture. *)
Definition square_reconciled : TextureManager :=
  from_ok (prepareViewingTexture (_textureManager square_moved)).
Definition square_projected : TextureManager :=
  from_ok (prepareDrawingTexture square_viewing_tm).

(** One stroke sample on the square, around the canvas point (75, 75)
    with a radius that reaches the second triangle. *)
Definition square_stroked : TextureManager :=
  from_ok (onStrokePainted (Vector2.mk 75 75) 80 square_tm).

(** The new controls after a switch to the drawing texture, and back. *)
Definition square_drawing : Controls :=
  controls_of (_useDrawingTexture square_new).
Definition square_back : Controls :=
  controls_of (_useViewingTexture square_drawing).

End Scene.

(** ** Vocabulary for the properties *)

Section Vocabulary.
Context `{Three}.

(** [f] is marked in the visited bitmap [_isFloodFill]. *)
Definition marked (tm : TextureManager) (f : Z) : bool :=
  negb (falsy (typed_get (_isFloodFill tm) f)).

(** [f] is in the affected-face set. *)
Definition affected (tm : TextureManager) (f : Z) : bool :=
  AffectedFacesRecorder.contains f (_affectedFaces tm).

(** The faces [forEach] visits, in order. *)
Definition affected_list (tm : TextureManager) : list (option Z) :=
  AffectedFacesRecorder.forEach_items (_affectedFaces tm).

(** The projected triangle of face [f] passes the test of [_add_recursive]
    for the circle. *)
Definition hits (tm : TextureManager) (center : Vector2.t) (radius : float)
    (f : Z) : bool :=
  (0 <=? f)%Z
  && match _drawingTextureUvs tm !! Z.to_nat f with
     | Some uvs => intersects (_drawingCanvas tm) uvs center radius
     | None => false
     end.

(** The stroke center passes the point-in-triangle test on face [f]. *)
Definition contains_center (tm : TextureManager) (center : Vector2.t) (f : Z)
  : bool :=
  match element (_drawingTextureUvs tm) f with
  | Some (uv1, uv2, uv3) =>
      _pointInTriangle center (to_pixels (_drawingCanvas tm) uv1)
        (to_pixels (_drawingCanvas tm) uv2) (to_pixels (_drawingCanvas tm) uv3)
  | None => false
  end.

(** Face [f] passes the front-facing filter. *)
Definition front (tm : TextureManager) (f : Z) : Prop :=
  facesCamera tm f = Ok true.

(** [h] is a neighbour of [g] in the stored adjacency. *)
Definition adjacent (tm : TextureManager) (g h : Z) : Prop :=
  (0 <= g)%Z /\ h ∈ neighbours tm (Z.to_nat g).

(** [f] is linked to [seed] by a chain of neighbours, every face of which
    passes the circle test and lies in [M], and every face of which after
    the seed passes the front-facing filter. *)
Inductive connected (tm : TextureManager) (center : Vector2.t) (radius : float)
    (M : Z -> Prop) (seed : Z) : Z -> Prop :=
| connected_seed :
    hits tm center radius seed = true -> M seed ->
    connected tm center radius M seed seed
| connected_step (g h : Z) :
    connected tm center radius M seed g ->
    adjacent tm g h -> front tm h ->
    hits tm center radius h = true -> M h ->
    connected tm center radius M seed h.

(** *** The adjacency the constructor stores *)

Definition same_position (p q : Vector3.t) : bool :=
  (Vector3.x p =? Vector3.x q)%float
  && (Vector3.y p =? Vector3.y q)%float
  && (Vector3.z p =? Vector3.z q)%float.

(** The positions of the three corners of a face. *)
Definition corners (vertices : list Vector3.t) (f : Face3.t)
  : list (option Vector3.t) :=
  [vertices !! Face3.a f; vertices !! Face3.b f; vertices !! Face3.c f].

Definition same_corner (p q : option Vector3.t) : bool :=
  match p, q with
  | Some p, Some q => same_position p q
  | _, _ => false
  end.

(** How many of the nine pairs (corner of [fi], corner of [fj]) are at the
    same position. *)
Definition coincident_pairs (vertices : list Vector3.t) (fi fj : Face3.t) : nat :=
  length (List.filter (fun pq => same_corner (fst pq) (snd pq))
            (list_prod (corners vertices fi) (corners vertices fj))).

(** How many of the three corners of [fi] are at the position of a corner
    of [fj]. *)
Definition coincident_vertices (vertices : list Vector3.t) (fi fj : Face3.t) : nat :=
  length (List.filter (fun p => existsb (same_corner p) (corners vertices fj))
            (corners vertices fi)).

Definition normals_agree (fi fj : Face3.t) : bool :=
  (0 <? Vector3.dot (Face3.normal fi) (Face3.normal fj))%float.

(** The condition under which the constructor records the faces [i < j]
    as neighbours. *)
Definition share_edge (g : Geometry.t) (i j : nat) : bool :=
  match Geometry.faces g !! i, Geometry.faces g !! j with
  | Some fi, Some fj =>
      (coincident_pairs (Geometry.vertices g) fi fj =? 2)%nat
      && normals_agree fi fj
  | _, _ => false
  end.

(** The neighbours recorded for face [f] in
    [(_nAdjacentFaces, _AdjacentFacesList)]. *)
Definition recorded (st : list Z * list (list Z)) (f : nat) : list Z :=
  match snd st !! f with
  | Some row => take (match fst st !! f with
                      | Some n => Z.to_nat n
                      | None => 0
                      end) row
  | None => []
  end.

(** The pair [a < b] has been handled when the loops reach [(i, j)]. *)
Definition processed (i j a b : nat) : Prop := a < i \/ (a = i /\ b < j).

(** The state of the adjacency loops over [nFaces] faces at [(i, j)]. *)
Record adjacency_inv (g : Geometry.t) (nFaces i j : nat)
    (st : list Z * list (list Z)) : Prop := {
  ai_counts : length (fst st) = nFaces;
  ai_rows : length (snd st) = nFaces;
  ai_row : forall f row, snd st !! f = Some row -> length row = nFaces;
  ai_count : forall f n, fst st !! f = Some n ->
    (0 <= n)%Z /\ Z.to_nat n <= nFaces;
  ai_nodup : forall f, NoDup (recorded st f);
  ai_members : forall f z, f < nFaces ->
    (z ∈ recorded st f <->
     exists h, z = Z.of_nat h /\ h < nFaces /\ h <> f
               /\ processed i j (Nat.min f h) (Nat.max f h)
               /\ share_edge g (Nat.min f h) (Nat.max f h) = true)
}.

(** *** The recorder as a set with an order *)

(** The members of a recorder, in the order [forEach] visits them. *)
Definition members (r : AffectedFacesRecorder.t) : list Z :=
  take (AffectedFacesRecorder._nAffectedFaces r)
       (AffectedFacesRecorder._affectedFaces r).

(** The elements of [fs] that are not in [seen], each once, in the order
    of their first occurrence. *)
Fixpoint first_occurrences (seen : list Z) (fs : list Z) : list Z :=
  match fs with
  | [] => []
  | f :: fs' =>
      if bool_decide (f ∈ seen) then first_occurrences seen fs'
      else f :: first_occurrences (f :: seen) fs'
  end.

(** [add] called on each element of [fs] in turn. *)
Definition add_all (fs : list Z) (r : AffectedFacesRecorder.t)
  : AffectedFacesRecorder.t :=
  fold_left (fun r f => AffectedFacesRecorder.add f r) fs r.

(** Everything the flood-fill reads but does not write. *)
Definition same_scene (tm tm' : TextureManager) : Prop :=
  tm' = set_affectedFaces (_affectedFaces tm')
          (set_isFloodFill (_isFloodFill tm') tm).

(** The texture manager when the flood-fill of a sample that hits
    starts: the upload of the drawing texture asked for and the bitmap
    cleared. *)
Definition sample_start (tm : TextureManager) : TextureManager :=
  set_isFloodFill (_isFloodFillEmpty tm)
    (set_drawingMaterial (Texture.set_needsUpdate (_drawingMaterial tm)) tm).

(** The number of unmarked entries of a bitmap. *)
Definition unmarked (bitmap : list Z) : nat :=
  length (List.filter (fun v => (v =? 0)%Z) bitmap).

(** The representation invariant of the recorder over [nFaces] faces: the
    members are the first [_nAffectedFaces] entries of [_affectedFaces],
    without repetition, and they are the flagged faces. *)
Record recorder_ok (nFaces : nat) (r : AffectedFacesRecorder.t) : Prop := {
  rec_list_length : length (AffectedFacesRecorder._affectedFaces r) = nFaces;
  rec_flags_length : length (AffectedFacesRecorder._isFaceAffected r) = nFaces;
  rec_empty : AffectedFacesRecorder._isFaceAffectedEmpty r = typed_new nFaces;
  rec_size : (Z.of_nat nFaces <= 4294967296)%Z;
  rec_count : AffectedFacesRecorder._nAffectedFaces r <= nFaces;
  rec_nodup :
    NoDup (take (AffectedFacesRecorder._nAffectedFaces r)
             (AffectedFacesRecorder._affectedFaces r));
  rec_members : forall f : Z,
    f ∈ take (AffectedFacesRecorder._nAffectedFaces r)
          (AffectedFacesRecorder._affectedFaces r)
    <-> ((0 <= f < Z.of_nat nFaces)%Z
         /\ AffectedFacesRecorder.contains f r = true)
}.

(** A texture manager whose arrays all have one entry per face, as the
    constructor makes them. *)
Record well_formed (tm : TextureManager) : Prop := {
  wf_drawing : length (_drawingTextureUvs tm) = length (Geometry.faces (geometry tm));
  wf_viewing : length (_viewingTextureUvs tm) = length (Geometry.faces (geometry tm));
  wf_material : length (_viewingMaterial tm) = length (Geometry.faces (geometry tm));
  wf_bitmap : length (_isFloodFill tm) = length (Geometry.faces (geometry tm));
  wf_bitmap_empty :
    _isFloodFillEmpty tm = typed_new (length (Geometry.faces (geometry tm)));
  wf_counts : length (_nAdjacentFaces tm) = length (Geometry.faces (geometry tm));
  wf_rows : length (_AdjacentFacesList tm) = length (Geometry.faces (geometry tm));
  wf_neighbours : forall (g : nat) (h : Z),
    h ∈ neighbours tm g ->
    (0 <= h < Z.of_nat (length (Geometry.faces (geometry tm))))%Z;
  wf_neighbour_count : forall (g : nat) (row : list Z),
    _AdjacentFacesList tm !! g = Some row ->
    nAdjacent tm (Z.of_nat g) <= length row;
  wf_recorder :
    recorder_ok (length (Geometry.faces (geometry tm))) (_affectedFaces tm)
}.

(** What flood-fill runs started at faces of [R] change from [tm] to
    [tm']: only the bitmap and the recorder; marks and members are kept;
    a newly marked face is affected, a newly affected face is newly
    marked, and a newly marked face is connected to a face of [R] through
    newly marked faces. *)
Record flood_ok (center : Vector2.t) (radius : float) (R : Z -> Prop)
    (tm tm' : TextureManager) : Prop := {
  fo_scene : same_scene tm tm';
  fo_bitmap : length (_isFloodFill tm') = length (_isFloodFill tm);
  fo_recorder :
    recorder_ok (length (Geometry.faces (geometry tm))) (_affectedFaces tm');
  fo_marked : forall f, marked tm f = true -> marked tm' f = true;
  fo_affected : forall f, affected tm f = true -> affected tm' f = true;
  fo_items : affected_list tm `prefix_of` affected_list tm';
  fo_unmarked :
    unmarked (_isFloodFill tm') <= unmarked (_isFloodFill tm);
  fo_new_affected : forall f,
    marked tm' f = true -> marked tm f = false -> affected tm' f = true;
  fo_new_marked : forall f,
    affected tm' f = true -> affected tm f = false ->
    marked tm' f = true /\ marked tm f = false;
  fo_connected : forall M : Z -> Prop,
    (forall f, marked tm' f = true -> marked tm f = false -> M f) ->
    forall f, marked tm' f = true -> marked tm f = false ->
    exists root, R root /\ connected tm center radius M root f
}.

End Vocabulary.

(** ** The remaining handlers of [Controls], and runs of events *)

Section Events.
Context `{Three}.

(** The bounds [prepareViewingTexture] computes over the affected faces. *)
Definition patch_bounds (tm : TextureManager) : result Bounds :=
  for_each (affected_list tm) (grow_bounds tm)
    (mkBounds neg_infinity infinity neg_infinity infinity).

Definition is_Draw (s : ControlsState) : bool :=
  match s with
  | Draw => true
  | _ => false
  end.

Definition is_Idle (s : ControlsState) : bool :=
  match s with
  | Idle => true
  | _ => false
  end.

(** [_mousewheel]; the call that hands the event to the camera controls
    is left out. *)
Definition _mousewheel (shiftKey : bool) (c : Controls) : result Controls :=
  if is_Draw (_state c) || negb shiftKey then Ok c
  else _useViewingTexture c.

(** [handleResize], where [width] and [height] are the width and the
    height [setSize] gives the renderer's canvas and [camera'] is the
    camera after the [handleResize] of the camera controls; the canvas
    box is outside this model. *)
Definition handleResize (width height : float) (camera' : Camera) (c : Controls)
  : result Controls :=
  let tm := _textureManager c in
  let renderer' := Renderer.mk width height (Renderer.renderCalls (renderer tm)) in
  _useViewingTexture
    (set_textureManager (set_camera camera' (set_renderer renderer' tm)) c).

(** The controls in their page: [listening] tells whether [_mousemove]
    and [_mouseup] are registered on the document. *)
Record Page := mkPage { controls : Controls; listening : bool }.

(** The events of the page and the two public methods; [camera'] is the
    camera the camera controls leave. *)
Inductive Event :=
| MouseDown (shiftKey : bool) (pos : Vector2.t) (newBrush : option float)
| MouseMove (pos : Vector2.t)
| MouseUp (camera' : Camera)
| MouseWheel (shiftKey : bool)
| Resize (width height : float) (camera' : Camera)
| Update (camera' : Camera).

(** The page after the event: [_mousedown] registers the two document
    listeners unless it returns early, [_mouseup] removes them, and an
    event without a listener changes nothing. *)
Definition dispatch (e : Event) (p : Page) : result Page :=
  let c := controls p in
  match e with
  | MouseDown shiftKey pos newBrush =>
      do c' <- _mousedown shiftKey pos newBrush c;
      Ok (mkPage c' (listening p || is_Idle (_state c)))
  | MouseMove pos =>
      if listening p then
        do c' <- _mousemove pos c; Ok (mkPage c' true)
      else Ok p
  | MouseUp camera' =>
      if listening p then
        do c' <- _mouseup camera' c; Ok (mkPage c' false)
      else Ok p
  | MouseWheel shiftKey =>
      do c' <- _mousewheel shiftKey c; Ok (mkPage c' (listening p))
  | Resize width height camera' =>
      do c' <- handleResize width height camera' c; Ok (mkPage c' (listening p))
  | Update camera' =>
      do c' <- update camera' c; Ok (mkPage c' (listening p))
  end.

(** The events whose handler calls [_useViewingTexture], whatever the
    state. *)
Definition switches_to_viewing (e : Event) : bool :=
  match e with
  | MouseDown shiftKey _ _ => shiftKey
  | MouseWheel shiftKey => shiftKey
  | Resize _ _ _ => true
  | _ => false
  end.

(** The event leaves the renderer's canvas with pixels. *)
Definition keeps_visible (e : Event) : bool :=
  match e with
  | Resize width height _ => Renderer.visible (Renderer.mk width height 0)
  | _ => true
  end.

(** The page [new Controls(geometry)] makes, and the page after a list of
    events. *)
Definition new_Page (geometry : Geometry.t) (renderer : Renderer.t)
    (camera : Camera) (radius : float) : result Page :=
  do c <- new_Controls geometry renderer camera radius;
  Ok (mkPage c false).

Definition run (events : list Event) (p : Page) : result Page :=
  for_each events dispatch p.

(** Every face has its three corners among the vertices. *)
Definition corners_exist (g : Geometry.t) : Prop :=
  forall face, face ∈ Geometry.faces g ->
    Face3.a face < length (Geometry.vertices g)
    /\ Face3.b face < length (Geometry.vertices g)
    /\ Face3.c face < length (Geometry.vertices g).

(** No call of the brush throws. *)
Definition brush_returns : Prop :=
  forall (op : CanvasOp) (canvas : Canvas.t), brushThrows op canvas = None.

(** The ray caster reports faces of the mesh it is given. *)
Definition ray_caster_sound : Prop :=
  forall (origin direction : Vector3.t) (g : Geometry.t) (face : Face3.t),
    face ∈ intersectObject origin direction g -> face ∈ Geometry.faces g.

(** What [prepareDrawingTexture] and the seed of a stroke rely on: a UV
    per vertex, corners that exist, and the face index as the material
    index of every face. *)
Record drawable (tm : TextureManager) : Prop := {
  dr_vertex_uvs :
    length (_drawingVertexUvs tm) = length (Geometry.vertices (geometry tm));
  dr_corners : corners_exist (geometry tm);
  dr_material : forall (i : nat) (face : Face3.t),
    Geometry.faces (geometry tm) !! i = Some face ->
    Face3.materialIndex face = Z.of_nat i
}.

(** The drawing UV of a vertex: its projection, from [-1, 1] to [0, 1]. *)
Definition projected_uv (tm : TextureManager) (vertex : Vector3.t) : Vector2.t :=
  let projectedPosition := project vertex (camera tm) in
  Vector2.mk ((Vector3.x projectedPosition + 1) / 2)%float
             ((Vector3.y projectedPosition + 1) / 2)%float.

(** The initial viewing texture of a face: the white pixel, with every
    corner at its center. *)
Definition initial_uvs : Uvs :=
  (Vector2.mk 0.5 0.5, Vector2.mk 0.5 0.5, Vector2.mk 0.5 0.5).

(** A face that still has the white pixel has its viewing UVs at the
    center of the pixel. *)
Definition pixel_faces_centered (tm : TextureManager) : Prop :=
  forall f : Z,
    element (_viewingMaterial tm) f = Some SinglePixelCanvas ->
    element (_viewingTextureUvs tm) f = Some initial_uvs.

Record sound (tm : TextureManager) : Prop := {
  sd_well_formed : well_formed tm;
  sd_drawable : drawable tm;
  sd_pixels : pixel_faces_centered tm
}.

(** The texture the flag [_usingViewingTexture] stands for. *)
Definition layer_in_use (c : Controls) : Layer :=
  if _usingViewingTexture c then ViewingLayer else DrawingLayer.

(** What holds of the page between two events. *)
Record page_ok (p : Page) : Prop := {
  po_sound : sound (_textureManager (controls p));
  po_listening : listening p = negb (is_Idle (_state (controls p)));
  po_mesh : material (_mesh (controls p)) = layer_in_use (controls p);
  po_geometry :
    Geometry.faceVertexUvs0 (geometry (_textureManager (controls p)))
    = layer_in_use (controls p);
  po_view : _state (controls p) = View -> _usingViewingTexture (controls p) = true
}.

(** What the handlers need besides to return: a call stack that holds
    more nested calls than there are faces, and a renderer whose canvas
    has pixels. *)
Record runnable (p : Page) : Prop := {
  rn_stack :
    length (Geometry.faces (geometry (_textureManager (controls p)))) < callStack;
  rn_visible : Renderer.visible (renderer (_textureManager (controls p))) = true
}.

(** What holds besides as long as the page is not resized: a stroke is
    drawn on the drawing texture, and while the viewing texture is in use
    no face waits to be reconciled. *)
Record reconciled (p : Page) : Prop := {
  rc_draw : _state (controls p) = Draw -> _usingViewingTexture (controls p) = false;
  rc_viewing :
    _usingViewingTexture (controls p) = true ->
    AffectedFacesRecorder.length (_affectedFaces (_textureManager (controls p))) = 0
}.

End Events.

(** ** The view size of the constructor of [Controls]

    The loop over the vertices that finds the half-width of the view
    volume of the camera; [distanceTo] is the one of three.js. *)

Section ViewSize.
Variable distanceTo : Vector3.t -> Vector3.t -> float.

Definition origin : Vector3.t := Vector3.mk 0 0 0.

(** [viewSize] after the loop. *)
Definition farthest (vertices : list Vector3.t) : float :=
  fold_left (fun viewSize vertex => Math_max [viewSize; distanceTo vertex origin])
    vertices 1%float.

(** [viewSize] after [viewSize *= 2 * 1.25]. *)
Definition viewSize (vertices : list Vector3.t) : float :=
  (farthest vertices * (2 * 1.25))%float.

End ViewSize.

(** ** The camera controls: the wheel and the zoom

    The part of [OrthographicCameraControls] that [onMouseWheel] and
    [zoomCamera] read and write; [zoom] is [camera.zoom]. Rotation and
    panning, which are vector operations of three.js, are left out. *)

Module CameraControls.
Local Open Scope float_scope.

Inductive CameraControlsState := Idle | Pan | Rotate.

Record t := mk {
  zoomSpeed : float;
  _state : CameraControlsState;
  _zoomStart : float;
  _zoomEnd : float;
  zoom : float
}.

(** The field initialisers of [CameraControlsBase]. *)
Definition create (zoom : float) : t := mk 1.2 Idle 0 0 zoom.

(** A property of an event as a condition: false when the event does not
    have it, and for 0, -0 and NaN. *)
Definition truthy (v : option float) : bool :=
  match v with
  | Some x => negb ((x =? 0) || is_nan x)
  | None => false
  end.

Definition number (v : option float) : float := default nan v.

Definition onMouseWheel (wheelDelta detail : option float) (c : t) : t :=
  let delta :=
    if truthy wheelDelta then number wheelDelta / 40
    else if truthy detail then - number detail / 3
    else 0 in
  mk (zoomSpeed c) (_state c) (_zoomStart c + delta * 0.01) (_zoomEnd c) (zoom c).

(** [zoomCamera] of [OrthographicCameraControls] *)
Definition zoomCamera (c : t) : t :=
  let factor := 1.0 + (_zoomEnd c - _zoomStart c) * zoomSpeed c in
  if negb (factor =? 1.0) && (0.0 <? factor) then
    mk (zoomSpeed c) (_state c) (_zoomEnd c) (_zoomEnd c) (zoom c * factor)
  else c.

(** [onMouseDown], for the button of the event, and [onMouseUp] *)
Definition onMouseDown (button : Z) (c : t) : t :=
  match button with
  | 0%Z => mk (zoomSpeed c) Rotate (_zoomStart c) (_zoomEnd c) (zoom c)
  | 2%Z => mk (zoomSpeed c) Pan (_zoomStart c) (_zoomEnd c) (zoom c)
  | _ => c
  end.

Definition onMouseUp (c : t) : t :=
  mk (zoomSpeed c) Idle (_zoomStart c) (_zoomEnd c) (zoom c).

(** What the page can do to the camera controls between two frames. *)
Inductive Input :=
| Wheel (wheelDelta detail : option float)
| Down (button : Z)
| Up
| Frame.   (* [updateCamera], of which [zoomCamera] is the part modelled *)

Definition input (i : Input) (c : t) : t :=
  match i with
  | Wheel wheelDelta detail => onMouseWheel wheelDelta detail c
  | Down button => onMouseDown button c
  | Up => onMouseUp c
  | Frame => zoomCamera c
  end.

Definition inputs (l : list Input) (c : t) : t := fold_left (fun c i => input i c) l c.

End CameraControls.

(** ** Brushes

    The interface [Brush] and the class [Pencil]. A canvas is seen through
    the operations made on its 2D context, oldest first. *)

Module Brushes.

Inductive ContextOp :=
| Save
| Restore
| MoveTo (x y : float)
| LineTo (x y : float)
| StrokePath.

Class Brush (B : Type) := {
  radius : B -> float;
  startStroke : Vector2.t -> B * list ContextOp -> B * list ContextOp;
  continueStoke : Vector2.t -> B * list ContextOp -> B * list ContextOp;
  finishStroke : B * list ContextOp -> B * list ContextOp
}.

(** [_canvasContext] is [null] or the context of the canvas. *)
Record Pencil := mkPencil { _canvasContext : bool }.

Definition new_Pencil : Pencil := mkPencil false.

#[export] Instance Pencil_Brush : Brush Pencil := {|
  radius := fun _ => 1%float;
  startStroke := fun position st =>
    (mkPencil true,
     snd st ++ [Save; MoveTo (Vector2.x position) (Vector2.y position)]);
  continueStoke := fun position st =>
    if _canvasContext (fst st) then
      (fst st, snd st ++ [LineTo (Vector2.x position) (Vector2.y position); StrokePath])
    else st;
  finishStroke := fun st =>
    if _canvasContext (fst st) then (mkPencil false, snd st ++ [Restore])
    else st
|}.

(** The calls the controls make on a brush, and a brush after a list of
    calls. *)
Inductive Call :=
| Start (position : Vector2.t)
| Continue (position : Vector2.t)
| Finish.

Definition call {B} `{Brush B} (c : Call) (st : B * list ContextOp)
  : B * list ContextOp :=
  match c with
  | Start position => startStroke position st
  | Continue position => continueStoke position st
  | Finish => finishStroke st
  end.

Definition calls {B} `{Brush B} (l : list Call) (st : B * list ContextOp)
  : B * list ContextOp :=
  fold_left (fun st c => call c st) l st.

(** The calls of one stroke: mouse down at [first], a mouse move to each
    of [samples], mouse up. *)
Definition stroke (s : Vector2.t * list Vector2.t) : list Call :=
  Start (fst s) :: map Continue (snd s) ++ [Finish].

Definition is_Save (op : ContextOp) : bool :=
  match op with Save => true | _ => false end.
Definition is_Restore (op : ContextOp) : bool :=
  match op with Restore => true | _ => false end.
Definition is_StrokePath (op : ContextOp) : bool :=
  match op with StrokePath => true | _ => false end.

Definition count (which : ContextOp -> bool) (ops : list ContextOp) : nat :=
  length (List.filter which ops).

End Brushes.

(** A run on the square: a stroke over both triangles, a turn of the
    wheel and a move of the camera. *)
Module Runs.
Import Scene.

Definition page_of (r : result Page) : Page :=
  match r with
  | Ok p => p
  | _ => mkPage (controls_of (Throw TypeError)) false
  end.

Definition square_page : Page :=
  page_of (new_Page (square up) renderer100 eye 1).



(** [v.distanceTo(w)] of three.js *)
Definition three_distanceTo (v w : Vector3.t) : float :=
  let dx := (Vector3.x v - Vector3.x w)%float in
  let dy := (Vector3.y v - Vector3.y w)%float in
  let dz := (Vector3.z v - Vector3.z w)%float in
  sqrt (dx * dx + dy * dy + dz * dz)%float.

(** Two strokes in a row, without a look at the result in between. *)
Definition square_strokes : list Event :=
  [MouseDown false (Vector2.mk 75 75) None; MouseUp eye;
   MouseDown false (Vector2.mk 25 25) None; MouseMove (Vector2.mk 30 30);
   MouseUp eye; Update eye].

Definition square_page_stroke : Page :=
  page_of (run [MouseDown false (Vector2.mk 75 75) None] square_page).
Definition square_page_strokes : Page :=
  page_of (run square_strokes square_page_stroke).

(** The camera controls after a turn of the wheel, and a rotation and a
    pan with three frames. *)
Definition wheel_turned : CameraControls.t :=
  CameraControls.onMouseWheel (Some 120%float) None (CameraControls.create 1).

Definition rotate_and_pan : list CameraControls.Input :=
  [CameraControls.Down 0; CameraControls.Frame; CameraControls.Up;
   CameraControls.Down 2; CameraControls.Frame; CameraControls.Up;
   CameraControls.Frame].

(** A resize of the page in the middle of a stroke. *)
Definition square_page_resized : Page :=
  page_of (run [MouseDown false (Vector2.mk 75 75) None; Resize 100 100 eye;
                MouseMove (Vector2.mk 25 25); MouseUp eye] square_page).

End Runs.

(** A triangle with its corners on one line, and a point off that line. *)
Definition flat_t0 : Vector2.t := Vector2.mk 0 0.
Definition flat_t1 : Vector2.t := Vector2.mk 1 0.
Definition flat_t2 : Vector2.t := Vector2.mk 2 0.
Definition far_point : Vector2.t := Vector2.mk 5 7.

(** * Properties *)

(** ** Facts on binary64 numbers *)

Section FloatFacts.
Local Open Scope float_scope.

Lemma finite_cases (x : float) :
  is_finite x = true ->
  (exists s, Prim2SF x = S754_zero s)
  \/ (exists s m e, Prim2SF x = S754_finite s m e).
Proof.
  unfold is_finite, is_nan, is_infinity.
  rewrite !FloatAxioms.eqb_spec, FloatAxioms.abs_spec.
  destruct (Prim2SF x) as [s| s| |s m e] eqn:E.
  - eauto.
  - intros Hf. destruct s; vm_compute in Hf; discriminate Hf.
  - intros Hf. vm_compute in Hf. discriminate Hf.
  - eauto 6.
Qed.

Lemma mul_zero_finite (x : float) :
  is_finite x = true -> exists s, Prim2SF (x * 0) = S754_zero s.
Proof.
  intros Hx. rewrite FloatAxioms.mul_spec.
  destruct (finite_cases x Hx) as [[s ->]|(s & m & e & ->)];
    simpl; eauto.
Qed.

Lemma zero_nonneg (z : float) (s : bool) :
  Prim2SF z = S754_zero s -> (0 <=? z) = true.
Proof. intros Hz. rewrite FloatAxioms.leb_spec, Hz. reflexivity. Qed.

Lemma zero_sum_le_one (u v : float) (s s' : bool) :
  Prim2SF u = S754_zero s -> Prim2SF v = S754_zero s' -> (u + v <=? 1) = true.
Proof.
  intros Hu Hv. rewrite FloatAxioms.leb_spec, FloatAxioms.add_spec, Hu, Hv.
  destruct s, s'; reflexivity.
Qed.

End FloatFacts.

(** ** The point-in-triangle test on a triangle of zero area *)

(** C3, as stated, fails: for the corners (0,0), (1,0), (2,0) the
    denominator is zero and the test reports that (5,7) is contained. *)
Lemma pointInTriangle_degenerate_contains :
  (bary_denominator flat_t0 flat_t1 flat_t2 =? 0)%float = true
  /\ _pointInTriangle far_point flat_t0 flat_t1 flat_t2 = true.
Proof. split; vm_compute; reflexivity. Qed.

(** C3 (amended): when the barycentric denominator is zero no division
    takes place: [inv] is 0, and as long as the two numerators are finite
    numbers, [u] and [v] are zeros and the test reports containment, for
    every query point. *)
Theorem pointInTriangle_zero_area (point t0 t1 t2 : Vector2.t) :
  (bary_denominator t0 t1 t2 =? 0)%float = true ->
  is_finite (fst (bary_numerators point t0 t1 t2)) = true ->
  is_finite (snd (bary_numerators point t0 t1 t2)) = true ->
  _pointInTriangle point t0 t1 t2 = true.
Proof.
  intros Hb Hu Hv. unfold _pointInTriangle. rewrite Hb.
  destruct (mul_zero_finite _ Hu) as [su Hsu].
  destruct (mul_zero_finite _ Hv) as [sv Hsv].
  rewrite (zero_nonneg _ _ Hsu), (zero_nonneg _ _ Hsv).
  rewrite (zero_sum_le_one _ _ _ _ Hsu Hsv). reflexivity.
Qed.

Lemma pointInTriangle_zero_area_witness :
  _pointInTriangle far_point flat_t0 flat_t1 flat_t2 = true.
Proof.
  apply pointInTriangle_zero_area; vm_compute; reflexivity.
Defined.
(** ** Typed arrays *)

Section TypedArrays.
Implicit Types (l : list Z) (f g v : Z).

Lemma typed_get_Some l f v :
  typed_get l f = Some v <-> (0 <= f)%Z /\ l !! Z.to_nat f = Some v.
Proof.
  unfold typed_get. destruct (0 <=? f)%Z eqn:E.
  - apply Z.leb_le in E. tauto.
  - apply Z.leb_gt in E. split; [discriminate | lia].
Qed.

Lemma typed_get_in_range l f :
  (0 <= f < Z.of_nat (length l))%Z -> exists v, typed_get l f = Some v.
Proof.
  intros Hf. destruct (lookup_lt_is_Some_2 l (Z.to_nat f)) as [v Hv]; [lia|].
  exists v. apply typed_get_Some. split; [lia | exact Hv].
Qed.

Lemma typed_get_range l f v :
  typed_get l f = Some v -> (0 <= f < Z.of_nat (length l))%Z.
Proof.
  intros [H0 Hv]%typed_get_Some. apply lookup_lt_Some in Hv. lia.
Qed.

Lemma typed_put_length m l f v : length (typed_put m l f v) = length l.
Proof. unfold typed_put. destruct (0 <=? f)%Z; [apply length_insert | reflexivity]. Qed.

Lemma typed_get_put_same m l f v :
  (0 <= f < Z.of_nat (length l))%Z ->
  typed_get (typed_put m l f v) f = Some (v mod m)%Z.
Proof.
  intros Hf. unfold typed_get, typed_put.
  destruct (0 <=? f)%Z eqn:E; [|apply Z.leb_gt in E; lia].
  apply list_lookup_insert_eq. lia.
Qed.

Lemma typed_get_put_other m l f g v :
  f <> g -> typed_get (typed_put m l f v) g = typed_get l g.
Proof.
  intros Hfg. unfold typed_get, typed_put.
  destruct (0 <=? g)%Z eqn:Eg; [|reflexivity].
  destruct (0 <=? f)%Z eqn:Ef; [|reflexivity].
  apply Z.leb_le in Eg, Ef. apply list_lookup_insert_ne. lia.
Qed.

Lemma falsy_false (o : option Z) :
  falsy o = false <-> exists v, o = Some v /\ v <> 0%Z.
Proof.
  destruct o as [v|]; simpl.
  - rewrite Z.eqb_neq. split; [eauto | intros (w & [= ->] & Hw); exact Hw].
  - split; [discriminate | intros (w & Hw & _); discriminate].
Qed.

Lemma typed_set_same_length (target source : list Z) :
  length source = length target -> typed_set target source = Ok source.
Proof.
  intros Hl. unfold typed_set. rewrite Hl, Nat.leb_refl.
  rewrite drop_all. rewrite app_nil_r. reflexivity.
Qed.

Lemma typed_get_new n f : falsy (typed_get (typed_new n) f) = true.
Proof.
  unfold typed_get, typed_new. destruct (0 <=? f)%Z; [|reflexivity].
  destruct (replicate n 0%Z !! Z.to_nat f) as [v|] eqn:E; [|reflexivity].
  apply lookup_replicate in E as [-> _]. reflexivity.
Qed.

End TypedArrays.

Section Recorder.
Implicit Types (r : AffectedFacesRecorder.t) (f g : Z).

Lemma contains_add_other f g r :
  f <> g -> AffectedFacesRecorder.contains g (AffectedFacesRecorder.add f r) = AffectedFacesRecorder.contains g r.
Proof.
  intros Hfg. unfold AffectedFacesRecorder.contains, AffectedFacesRecorder.add.
  destruct (falsy (typed_get (AffectedFacesRecorder._isFaceAffected r) f)); [|reflexivity].
  simpl. unfold uint8_put. rewrite typed_get_put_other by exact Hfg. reflexivity.
Qed.

Lemma contains_add_same f r :
  (0 <= f < Z.of_nat (length (AffectedFacesRecorder._isFaceAffected r)))%Z ->
  AffectedFacesRecorder.contains f (AffectedFacesRecorder.add f r) = true.
Proof.
  intros Hf. unfold AffectedFacesRecorder.contains, AffectedFacesRecorder.add.
  destruct (falsy (typed_get (AffectedFacesRecorder._isFaceAffected r) f)) eqn:E.
  - simpl. unfold uint8_put. rewrite typed_get_put_same by exact Hf. reflexivity.
  - rewrite E. reflexivity.
Qed.

Lemma contains_add_mono f g r :
  AffectedFacesRecorder.contains g r = true -> AffectedFacesRecorder.contains g (AffectedFacesRecorder.add f r) = true.
Proof.
  intros Hg. destruct (Z.eq_dec f g) as [->|Hne].
  - unfold AffectedFacesRecorder.add. unfold AffectedFacesRecorder.contains in Hg.
    apply negb_true_iff in Hg. rewrite Hg. unfold AffectedFacesRecorder.contains. rewrite Hg. reflexivity.
  - rewrite contains_add_other by exact Hne. exact Hg.
Qed.

Lemma contains_range f r :
  AffectedFacesRecorder.contains f r = true ->
  (0 <= f < Z.of_nat (length (AffectedFacesRecorder._isFaceAffected r)))%Z.
Proof.
  unfold AffectedFacesRecorder.contains. intros Hc. apply negb_true_iff in Hc.
  apply falsy_false in Hc as (v & Hv & _). eapply typed_get_range, Hv.
Qed.

Lemma forEach_items_add f r :
  AffectedFacesRecorder.forEach_items r `prefix_of` AffectedFacesRecorder.forEach_items (AffectedFacesRecorder.add f r).
Proof.
  unfold AffectedFacesRecorder.add. destruct (falsy _); [|reflexivity].
  unfold AffectedFacesRecorder.forEach_items.
  cbn [AffectedFacesRecorder._nAffectedFaces AffectedFacesRecorder._affectedFaces].
  rewrite seq_S, map_app.
  eexists. f_equal.
  apply map_ext_in. intros i Hi%in_seq.
  unfold uint32_put, typed_put.
  destruct (0 <=? _)%Z; [|reflexivity].
  rewrite list_lookup_insert_ne by lia. reflexivity.
Qed.

Lemma recorder_ok_constructor (nFaces : nat) :
  (Z.of_nat nFaces <= 4294967296)%Z -> recorder_ok nFaces (AffectedFacesRecorder.constructor nFaces).
Proof.
  intros Hsize. unfold AffectedFacesRecorder.constructor.
  split; simpl; try (unfold typed_new; rewrite length_replicate); auto.
  - lia.
  - constructor.
  - intros f. split.
    + intros Hin. inversion Hin.
    + intros [_ Hc]. unfold AffectedFacesRecorder.contains in Hc. simpl in Hc.
      rewrite typed_get_new in Hc. discriminate.
Qed.

Lemma recorder_ok_reset nFaces r :
  recorder_ok nFaces r -> exists r', AffectedFacesRecorder.reset r = Ok r' /\ recorder_ok nFaces r'
    /\ AffectedFacesRecorder._nAffectedFaces r' = 0.
Proof.
  intros [Hl Hfl He Hs Hc Hn Hm]. unfold AffectedFacesRecorder.reset.
  rewrite typed_set_same_length
    by (rewrite He, Hfl; unfold typed_new; apply length_replicate).
  simpl. eexists. split; [reflexivity|]. split; [|reflexivity].
  split; simpl; auto.
  - rewrite He. unfold typed_new. apply length_replicate.
  - lia.
  - constructor.
  - intros f. split.
    + intros Hin. inversion Hin.
    + intros [_ Hcf]. unfold AffectedFacesRecorder.contains in Hcf. simpl in Hcf.
      rewrite He, typed_get_new in Hcf. discriminate.
Qed.

Lemma members_bound (nFaces : nat) (l : list Z) :
  NoDup l -> (forall f, f ∈ l -> (0 <= f < Z.of_nat nFaces)%Z) -> length l <= nFaces.
Proof.
  intros Hnd Hin.
  assert (Hsub : l ⊆ Z.of_nat <$> seq 0 nFaces).
  { intros f Hf. apply Hin in Hf. apply list_elem_of_fmap.
    exists (Z.to_nat f). split; [lia|]. apply elem_of_seq. lia. }
  apply NoDup_submseteq in Hsub; [|exact Hnd].
  apply submseteq_length in Hsub. rewrite length_fmap, length_seq in Hsub. exact Hsub.
Qed.

Lemma recorder_ok_add nFaces f r :
  recorder_ok nFaces r -> (0 <= f < Z.of_nat nFaces)%Z ->
  recorder_ok nFaces (AffectedFacesRecorder.add f r).
Proof.
  intros Hok Hf. pose proof Hok as [Hl Hfl He Hs Hc Hn Hm].
  destruct (AffectedFacesRecorder.contains f r) eqn:Ec.
  { unfold AffectedFacesRecorder.add. unfold AffectedFacesRecorder.contains in Ec. apply negb_true_iff in Ec.
    rewrite Ec. exact Hok. }
  assert (Hnotin : f ∉ take (AffectedFacesRecorder._nAffectedFaces r) (AffectedFacesRecorder._affectedFaces r)).
  { intros Hin. apply Hm in Hin as [_ Hin]. congruence. }
  assert (Hlt : AffectedFacesRecorder._nAffectedFaces r < nFaces).
  { assert (Hb : length (f :: take (AffectedFacesRecorder._nAffectedFaces r) (AffectedFacesRecorder._affectedFaces r))
                 <= nFaces).
    { apply members_bound.
      - constructor; assumption.
      - intros g [->|Hg]%elem_of_cons; [exact Hf | apply Hm in Hg; tauto]. }
    simpl in Hb. rewrite length_take in Hb. lia. }
  assert (Htake : take (S (AffectedFacesRecorder._nAffectedFaces r))
                    (AffectedFacesRecorder._affectedFaces (AffectedFacesRecorder.add f r))
                  = take (AffectedFacesRecorder._nAffectedFaces r) (AffectedFacesRecorder._affectedFaces r) ++ [f]).
  { unfold AffectedFacesRecorder.add, AffectedFacesRecorder.contains in *. apply negb_false_iff in Ec. rewrite Ec. simpl.
    unfold uint32_put, typed_put.
    replace (0 <=? Z.of_nat (AffectedFacesRecorder._nAffectedFaces r))%Z with true
      by (symmetry; apply Z.leb_le; lia).
    rewrite Nat2Z.id, Z.mod_small by lia.
    erewrite take_S_r by (apply list_lookup_insert_eq; lia).
    rewrite take_insert_ge by lia. reflexivity. }
  assert (Hn' : AffectedFacesRecorder._nAffectedFaces (AffectedFacesRecorder.add f r) = S (AffectedFacesRecorder._nAffectedFaces r)).
  { unfold AffectedFacesRecorder.add, AffectedFacesRecorder.contains in *. apply negb_false_iff in Ec. rewrite Ec.
    reflexivity. }
  split.
  - unfold AffectedFacesRecorder.add. destruct (falsy _); simpl; [|exact Hl].
    unfold uint32_put. rewrite typed_put_length. exact Hl.
  - unfold AffectedFacesRecorder.add. destruct (falsy _); simpl; [|exact Hfl].
    unfold uint8_put. rewrite typed_put_length. exact Hfl.
  - unfold AffectedFacesRecorder.add. destruct (falsy _); simpl; exact He.
  - exact Hs.
  - rewrite Hn'. lia.
  - rewrite Hn', Htake. apply NoDup_app. split; [exact Hn|]. split.
    + intros g Hg [->|Hx]%elem_of_cons; [contradiction | inversion Hx].
    + apply NoDup_singleton.
  - intros g. rewrite Hn', Htake, elem_of_app, list_elem_of_singleton.
    destruct (Z.eq_dec f g) as [->|Hne].
    + rewrite contains_add_same by lia. tauto.
    + rewrite contains_add_other by exact Hne. rewrite Hm.
      split; [intros [?|?]; [assumption | congruence] | tauto].
Qed.

End Recorder.

Section ResultFacts.

Lemma bind_Ok {A B} (m : result A) (k : A -> result B) (b : B) :
  Js.bind m k = Ok b -> exists a, m = Ok a /\ k a = Ok b.
Proof. destruct m as [a|e]; simpl; [eauto | discriminate]. Qed.

Lemma defined_Ok {A} (o : option A) (a : A) : defined o = Ok a -> o = Some a.
Proof. destruct o; simpl; congruence. Qed.

Lemma for_each_cons {A S} (x : A) (xs : list A) (body : A -> S -> result S) (s s' : S) :
  for_each (x :: xs) body s = Ok s' ->
  exists s1, body x s = Ok s1 /\ for_each xs body s1 = Ok s'.
Proof. simpl. apply bind_Ok. Qed.

End ResultFacts.

Section Bitmap.

Lemma unmarked_put (l : list Z) (i : nat) :
  l !! i = Some 0%Z -> S (unmarked (<[i := 1%Z]> l)) = unmarked l.
Proof.
  unfold unmarked. revert i. induction l as [|v l IH]; intros [|i]; simpl; try discriminate.
  - intros [= ->]. reflexivity.
  - intros Hi. destruct (v =? 0)%Z; simpl; rewrite <- (IH i Hi); reflexivity.
Qed.

Lemma unmarked_length (l : list Z) : unmarked l <= length l.
Proof.
  unfold unmarked. induction l as [|v l IH]; simpl; [lia|].
  destruct (v =? 0)%Z; simpl; lia.
Qed.

End Bitmap.

Section FloodFill.
Context `{Three}.
Implicit Types (tm : TextureManager) (f g h seed : Z).

Lemma same_scene_refl tm : same_scene tm tm.
Proof. destruct tm. reflexivity. Qed.

Lemma same_scene_trans tm1 tm2 tm3 :
  same_scene tm1 tm2 -> same_scene tm2 tm3 -> same_scene tm1 tm3.
Proof.
  unfold same_scene. intros H12 H23. rewrite H23 at 1. rewrite H12 at 1.
  reflexivity.
Qed.

Lemma same_scene_sym tm1 tm2 : same_scene tm1 tm2 -> same_scene tm2 tm1.
Proof.
  destruct tm1, tm2.
  unfold same_scene, set_affectedFaces, set_isFloodFill. simpl. congruence.
Qed.

Lemma same_scene_set_isFloodFill v tm : same_scene tm (set_isFloodFill v tm).
Proof. destruct tm. reflexivity. Qed.

Lemma same_scene_set_affectedFaces v tm : same_scene tm (set_affectedFaces v tm).
Proof. destruct tm. reflexivity. Qed.

Section SameScene.
Variables (tm tm' : TextureManager).
Hypothesis Hs : same_scene tm tm'.

Lemma scene_geometry : geometry tm' = geometry tm.
Proof. rewrite Hs. reflexivity. Qed.
Lemma scene_drawing : _drawingTextureUvs tm' = _drawingTextureUvs tm.
Proof. rewrite Hs. reflexivity. Qed.
Lemma scene_viewing : _viewingTextureUvs tm' = _viewingTextureUvs tm.
Proof. rewrite Hs. reflexivity. Qed.
Lemma scene_material : _viewingMaterial tm' = _viewingMaterial tm.
Proof. rewrite Hs. reflexivity. Qed.
Lemma scene_canvas : _drawingCanvas tm' = _drawingCanvas tm.
Proof. rewrite Hs. reflexivity. Qed.
Lemma scene_bitmap_empty : _isFloodFillEmpty tm' = _isFloodFillEmpty tm.
Proof. rewrite Hs. reflexivity. Qed.
Lemma scene_counts : _nAdjacentFaces tm' = _nAdjacentFaces tm.
Proof. rewrite Hs. reflexivity. Qed.
Lemma scene_rows : _AdjacentFacesList tm' = _AdjacentFacesList tm.
Proof. rewrite Hs. reflexivity. Qed.
Lemma scene_camera : camera tm' = camera tm.
Proof. rewrite Hs. reflexivity. Qed.
Lemma scene_renderer : renderer tm' = renderer tm.
Proof. rewrite Hs. reflexivity. Qed.
Lemma scene_drawingMaterial : _drawingMaterial tm' = _drawingMaterial tm.
Proof. rewrite Hs. reflexivity. Qed.
Lemma scene_vertexUvs : _drawingVertexUvs tm' = _drawingVertexUvs tm.
Proof. rewrite Hs. reflexivity. Qed.

Lemma scene_hits center radius f : hits tm' center radius f = hits tm center radius f.
Proof. unfold hits. rewrite scene_drawing, scene_canvas. reflexivity. Qed.
Lemma scene_nAdjacent f : nAdjacent tm' f = nAdjacent tm f.
Proof. unfold nAdjacent. rewrite scene_counts. reflexivity. Qed.
Lemma scene_adjacentFace f i : adjacentFace tm' f i = adjacentFace tm f i.
Proof. unfold adjacentFace. rewrite scene_rows. reflexivity. Qed.
Lemma scene_facesCamera f : facesCamera tm' f = facesCamera tm f.
Proof. unfold facesCamera. rewrite scene_geometry, scene_camera. reflexivity. Qed.
Lemma scene_neighbours i : neighbours tm' i = neighbours tm i.
Proof. unfold neighbours. rewrite scene_rows, scene_nAdjacent. reflexivity. Qed.

End SameScene.

Lemma well_formed_same_scene tm tm' :
  same_scene tm tm' -> well_formed tm ->
  length (_isFloodFill tm') = length (_isFloodFill tm) ->
  recorder_ok (length (Geometry.faces (geometry tm))) (_affectedFaces tm') ->
  well_formed tm'.
Proof.
  intros Hs [? ? ? ? ? ? ? wf_neighbours0 wf_neighbour_count0 ?] Hb Hr.
  split; rewrite ?(scene_geometry _ _ Hs), ?(scene_drawing _ _ Hs),
    ?(scene_viewing _ _ Hs), ?(scene_material _ _ Hs),
    ?(scene_bitmap_empty _ _ Hs), ?(scene_counts _ _ Hs), ?(scene_rows _ _ Hs);
    try congruence; auto.
  - intros g h. rewrite (scene_neighbours _ _ Hs). apply wf_neighbours0.
  - intros g row. rewrite (scene_nAdjacent _ _ Hs). apply wf_neighbour_count0.
Qed.

End FloodFill.

Section FloodFill.
Context `{Three}.
Variables (center : Vector2.t) (radius : float).
Implicit Types (tm : TextureManager) (f g h seed : Z) (R : Z -> Prop).

Lemma connected_same_scene tm tm' M root f :
  same_scene tm tm' ->
  connected tm' center radius M root f -> connected tm center radius M root f.
Proof.
  intros Hs. induction 1 as [Hh HM|g h _ IH [Hg Hadj] Hfr Hh HM].
  - apply connected_seed; [|exact HM]. rewrite <- (scene_hits _ _ Hs). exact Hh.
  - eapply connected_step; [exact IH| | | |exact HM].
    + split; [exact Hg|]. rewrite <- (scene_neighbours _ _ Hs). exact Hadj.
    + unfold front. rewrite <- (scene_facesCamera _ _ Hs). exact Hfr.
    + rewrite <- (scene_hits _ _ Hs). exact Hh.
Qed.

Lemma connected_reroot tm M seed h f :
  connected tm center radius M seed seed ->
  adjacent tm seed h -> front tm h ->
  connected tm center radius M h f -> connected tm center radius M seed f.
Proof.
  intros Hseed Hadj Hfr. induction 1 as [Hh HM|g k _ IH Hgk Hfk Hk HM].
  - eapply connected_step; eassumption.
  - eapply connected_step; eassumption.
Qed.

Lemma flood_ok_refl R tm : well_formed tm -> flood_ok center radius R tm tm.
Proof.
  intros Hwf. split; auto.
  - apply same_scene_refl.
  - apply Hwf.
  - intros f H1 H2. congruence.
  - intros f H1 H2. congruence.
  - intros M _ f H1 H2. congruence.
Qed.

Lemma flood_ok_well_formed R tm tm' :
  well_formed tm -> flood_ok center radius R tm tm' -> well_formed tm'.
Proof.
  intros Hwf Hok. eapply well_formed_same_scene; [apply Hok|exact Hwf|apply Hok|apply Hok].
Qed.

Lemma flood_ok_trans R tm1 tm2 tm3 :
  flood_ok center radius R tm1 tm2 -> flood_ok center radius R tm2 tm3 ->
  flood_ok center radius R tm1 tm3.
Proof.
  intros H12 H23.
  pose proof (fo_scene _ _ _ _ _ H12) as Hs12.
  split.
  - eapply same_scene_trans; [apply H12 | apply H23].
  - rewrite (fo_bitmap _ _ _ _ _ H23). apply H12.
  - rewrite <- (scene_geometry _ _ Hs12). apply H23.
  - intros f Hf. eapply fo_marked; [exact H23|]. eapply fo_marked; eassumption.
  - intros f Hf. eapply fo_affected; [exact H23|]. eapply fo_affected; eassumption.
  - etransitivity; [apply H12 | apply H23].
  - etransitivity; [apply H23 | apply H12].
  - intros f H3 H1. destruct (marked tm2 f) eqn:E2.
    + eapply fo_affected; [exact H23|]. eapply fo_new_affected; eassumption.
    + eapply fo_new_affected; eassumption.
  - intros f H3 H1. destruct (affected tm2 f) eqn:E2.
    + destruct (fo_new_marked _ _ _ _ _ H12 f E2 H1) as [Hm2 Hm1].
      split; [|exact Hm1]. eapply fo_marked; eassumption.
    + destruct (fo_new_marked _ _ _ _ _ H23 f H3 E2) as [Hm3 Hm2].
      split; [exact Hm3|]. destruct (marked tm1 f) eqn:E1; [|reflexivity].
      apply (fo_marked _ _ _ _ _ H12) in E1. congruence.
  - intros M HM f H3 H1. destruct (marked tm2 f) eqn:E2.
    + eapply (fo_connected _ _ _ _ _ H12); [|exact E2|exact H1].
      intros k Hk Hk1. apply HM; [|exact Hk1]. eapply fo_marked; eassumption.
    + destruct (fo_connected _ _ _ _ _ H23 M) with (f := f) as (root & HR & Hc);
        [|exact H3|exact E2|].
      * intros k Hk3 Hk2. apply HM; [exact Hk3|].
        destruct (marked tm1 k) eqn:Ek1; [|reflexivity].
        apply (fo_marked _ _ _ _ _ H12) in Ek1. congruence.
      * exists root. split; [exact HR|]. eapply connected_same_scene; eassumption.
Qed.

Lemma flood_ok_roots R R' tm tm' :
  (forall root, R root -> R' root) ->
  flood_ok center radius R tm tm' -> flood_ok center radius R' tm tm'.
Proof.
  intros HR [Hs Hb Hr Hm Ha Hi Hu Hna Hnm Hc]. split; auto.
  intros M HM f H1 H2. destruct (Hc M HM f H1 H2) as (root & Hroot & Hcon).
  exists root. auto.
Qed.

End FloodFill.

Section FloodFill.
Context `{Three}.
Variables (center : Vector2.t) (radius : float).
Implicit Types (tm : TextureManager) (f g h seed : Z) (R : Z -> Prop).

Lemma add_recursive_S fuel seed tm :
  _add_recursive (S fuel) seed center radius tm
  = if (0 <=? seed)%Z && falsy (typed_get (_isFloodFill tm) seed) then
      do uvs <- defined (_drawingTextureUvs tm !! Z.to_nat seed);
      if intersects (_drawingCanvas tm) uvs center radius then
        for_each (seq 0 (nAdjacent (mark_face seed tm) seed))
          (visit_neighbour
             (fun newfaceIndex tm' =>
                _add_recursive fuel newfaceIndex center radius tm') seed)
          (mark_face seed tm)
      else Ok tm
    else Ok tm.
Proof. reflexivity. Qed.

Lemma marked_mark_face seed tm f :
  (0 <= seed < Z.of_nat (length (_isFloodFill tm)))%Z ->
  marked (mark_face seed tm) f = (f =? seed)%Z || marked tm f.
Proof.
  intros Hseed. unfold marked, mark_face. simpl. unfold uint8_put.
  destruct (Z.eqb_spec f seed) as [->|Hne].
  - rewrite typed_get_put_same by exact Hseed. reflexivity.
  - rewrite typed_get_put_other by congruence. reflexivity.
Qed.

Lemma affected_mark_face seed tm f :
  (0 <= seed < Z.of_nat (length (AffectedFacesRecorder._isFaceAffected (_affectedFaces tm))))%Z ->
  affected (mark_face seed tm) f = (f =? seed)%Z || affected tm f.
Proof.
  intros Hseed. unfold affected, mark_face. simpl.
  destruct (Z.eqb_spec f seed) as [->|Hne].
  - rewrite contains_add_same by exact Hseed. reflexivity.
  - rewrite contains_add_other by congruence. reflexivity.
Qed.

Lemma mark_face_ok R seed tm :
  well_formed tm ->
  (0 <= seed < Z.of_nat (length (Geometry.faces (geometry tm))))%Z ->
  marked tm seed = false ->
  same_scene tm (mark_face seed tm)
  /\ well_formed (mark_face seed tm)
  /\ S (unmarked (_isFloodFill (mark_face seed tm))) = unmarked (_isFloodFill tm)
  /\ affected_list tm `prefix_of` affected_list (mark_face seed tm).
Proof.
  intros Hwf Hseed Hm.
  assert (Hs : same_scene tm (mark_face seed tm)).
  { unfold mark_face. eapply same_scene_trans;
      [apply same_scene_set_isFloodFill | apply same_scene_set_affectedFaces]. }
  split; [exact Hs|]. split; [|split].
  - eapply well_formed_same_scene; [exact Hs | exact Hwf | |].
    + unfold mark_face. simpl. unfold uint8_put. apply typed_put_length.
    + unfold mark_face. simpl. apply recorder_ok_add; [apply Hwf | exact Hseed].
  - unfold mark_face. simpl. unfold uint8_put, typed_put.
    replace (0 <=? seed)%Z with true by (symmetry; apply Z.leb_le; lia).
    apply unmarked_put.
    unfold marked in Hm. apply negb_false_iff in Hm.
    destruct (typed_get_in_range (_isFloodFill tm) seed) as [v Hv].
    { rewrite (wf_bitmap _ Hwf). exact Hseed. }
    rewrite Hv in Hm. simpl in Hm. apply Z.eqb_eq in Hm. subst v.
    apply typed_get_Some in Hv. tauto.
  - unfold affected_list, mark_face. simpl. apply forEach_items_add.
Qed.

Lemma adjacentFace_adjacent tm seed i h :
  (0 <= seed)%Z -> i < nAdjacent tm seed ->
  adjacentFace tm seed i = Ok h -> adjacent tm seed h.
Proof.
  intros Hseed Hi Ha. unfold adjacentFace in Ha.
  apply bind_Ok in Ha as (row & Hrow & Hh).
  apply defined_Ok in Hrow. apply defined_Ok in Hh.
  split; [exact Hseed|]. unfold neighbours. rewrite Hrow.
  rewrite Z2Nat.id by exact Hseed.
  apply list_elem_of_lookup. exists i. rewrite lookup_take_lt by exact Hi. exact Hh.
Qed.

Lemma add_recursive_ok fuel : forall seed tm tm',
  well_formed tm ->
  _add_recursive fuel seed center radius tm = Ok tm' ->
  flood_ok center radius (eq seed) tm tm'
  /\ (hits tm center radius seed = true -> marked tm seed = false ->
      marked tm' seed = true).
Proof.
  induction fuel as [|fuel IH]; intros seed tm tm' Hwf Hrun; [discriminate|].
  rewrite add_recursive_S in Hrun.
  destruct ((0 <=? seed)%Z && falsy (typed_get (_isFloodFill tm) seed)) eqn:Hguard.
  2:{ injection Hrun as <-. split; [apply flood_ok_refl; exact Hwf|].
      unfold hits, marked. intros [Hpos _]%andb_prop Hm.
      apply negb_false_iff in Hm. rewrite Hpos, Hm in Hguard. discriminate. }
  apply andb_prop in Hguard as [Hpos Hunmarked]. apply Z.leb_le in Hpos.
  apply bind_Ok in Hrun as (uvs & Huvs & Hrun). apply defined_Ok in Huvs.
  destruct (intersects (_drawingCanvas tm) uvs center radius) eqn:Hhit.
  2:{ injection Hrun as <-. split; [apply flood_ok_refl; exact Hwf|].
      unfold hits. rewrite Huvs, Hhit, andb_false_r. discriminate. }
  assert (Hseed : (0 <= seed < Z.of_nat (length (Geometry.faces (geometry tm))))%Z).
  { apply lookup_lt_Some in Huvs. rewrite (wf_drawing _ Hwf) in Huvs. lia. }
  assert (Hm0 : marked tm seed = false).
  { unfold marked. rewrite Hunmarked. reflexivity. }
  destruct (mark_face_ok (eq seed) seed tm Hwf Hseed Hm0) as (Hs2 & Hwf2 & Hu2 & Hi2).
  assert (Hhits : hits tm center radius seed = true).
  { unfold hits. rewrite Huvs, Hhit. apply andb_true_intro. split; [|reflexivity].
    apply Z.leb_le. exact Hpos. }
  set (R' := fun h => adjacent tm seed h /\ front tm h).
  (* the loop over the neighbours *)
  assert (Hloop : forall (idx : list nat) (a : TextureManager),
             (forall i, i ∈ idx -> i < nAdjacent tm seed) ->
             well_formed a -> same_scene tm a ->
             for_each idx
               (visit_neighbour
                  (fun newfaceIndex tm' =>
                     _add_recursive fuel newfaceIndex center radius tm') seed) a
             = Ok tm' ->
             flood_ok center radius R' a tm').
  { clear Hrun. induction idx as [|i idx IHis]; intros a His Hwfa Hsa Hfor.
    - injection Hfor as <-. apply flood_ok_refl. exact Hwfa.
    - apply for_each_cons in Hfor as (a1 & Hbody & Hrest).
      unfold visit_neighbour in Hbody.
      apply bind_Ok in Hbody as (h & Hadj & Hbody).
      apply bind_Ok in Hbody as (fr & Hfr & Hbody).
      rewrite (scene_adjacentFace _ _ Hsa) in Hadj.
      rewrite (scene_facesCamera _ _ Hsa) in Hfr.
      assert (Hstep : flood_ok center radius R' a a1).
      { destruct fr.
        - apply IH in Hbody as [Hbody _]; [|exact Hwfa].
          eapply flood_ok_roots; [|exact Hbody].
          intros root <-. split; [|exact Hfr].
          eapply adjacentFace_adjacent; [exact Hpos| |exact Hadj].
          apply His. left.
        - injection Hbody as <-. apply flood_ok_refl. exact Hwfa. }
      eapply flood_ok_trans; [exact Hstep|].
      apply IHis; [|eapply flood_ok_well_formed; eassumption| |exact Hrest].
      + intros k Hk. apply His. right. exact Hk.
      + eapply same_scene_trans; [exact Hsa | apply Hstep]. }
  rewrite (scene_nAdjacent _ _ Hs2) in Hrun.
  assert (Hl : flood_ok center radius R' (mark_face seed tm) tm').
  { eapply Hloop; [|exact Hwf2|exact Hs2|exact Hrun].
    intros i Hi. apply elem_of_seq in Hi. lia. }
  clear Hloop.
  assert (Hbm : (0 <= seed < Z.of_nat (length (_isFloodFill tm)))%Z)
    by (rewrite (wf_bitmap _ Hwf); exact Hseed).
  assert (Hba : (0 <= seed < Z.of_nat (length
             (AffectedFacesRecorder._isFaceAffected (_affectedFaces tm))))%Z)
    by (rewrite (rec_flags_length _ _ (wf_recorder _ Hwf)); exact Hseed).
  assert (Hmseed : marked tm' seed = true).
  { apply (fo_marked _ _ _ _ _ Hl). rewrite marked_mark_face by exact Hbm.
    rewrite Z.eqb_refl. reflexivity. }
  assert (Haseed : affected tm' seed = true).
  { apply (fo_affected _ _ _ _ _ Hl). rewrite affected_mark_face by exact Hba.
    rewrite Z.eqb_refl. reflexivity. }
  split; [|intros _ _; exact Hmseed].
  split.
  - eapply same_scene_trans; [exact Hs2 | apply Hl].
  - rewrite (fo_bitmap _ _ _ _ _ Hl). unfold mark_face. simpl.
    unfold uint8_put. apply typed_put_length.
  - rewrite <- (scene_geometry _ _ Hs2). apply Hl.
  - intros f Hf. apply (fo_marked _ _ _ _ _ Hl).
    rewrite marked_mark_face by exact Hbm. rewrite Hf. apply orb_true_r.
  - intros f Hf. apply (fo_affected _ _ _ _ _ Hl).
    rewrite affected_mark_face by exact Hba. rewrite Hf. apply orb_true_r.
  - etransitivity; [exact Hi2 | apply Hl].
  - pose proof (fo_unmarked _ _ _ _ _ Hl). lia.
  - intros f Hf' Hf. destruct (Z.eqb_spec f seed) as [->|Hne]; [exact Haseed|].
    apply (fo_new_affected _ _ _ _ _ Hl); [exact Hf'|].
    rewrite marked_mark_face by exact Hbm. rewrite Hf.
    apply Z.eqb_neq in Hne. rewrite Hne. reflexivity.
  - intros f Hf' Hf. destruct (Z.eqb_spec f seed) as [->|Hne]; [tauto|].
    assert (Hf2 : affected (mark_face seed tm) f = false).
    { rewrite affected_mark_face by exact Hba. rewrite Hf.
      apply Z.eqb_neq in Hne. rewrite Hne. reflexivity. }
    destruct (fo_new_marked _ _ _ _ _ Hl f Hf' Hf2) as [Hm3 Hm2].
    split; [exact Hm3|].
    rewrite marked_mark_face in Hm2 by exact Hbm.
    apply orb_false_elim in Hm2. tauto.
  - intros M HM f Hf' Hf. exists seed. split; [reflexivity|].
    assert (Hcs : connected tm center radius M seed seed).
    { apply connected_seed; [exact Hhits | apply HM; [exact Hmseed | exact Hm0]]. }
    destruct (Z.eqb_spec f seed) as [->|Hne]; [exact Hcs|].
    assert (Hf2 : marked (mark_face seed tm) f = false).
    { rewrite marked_mark_face by exact Hbm. rewrite Hf.
      apply Z.eqb_neq in Hne. rewrite Hne. reflexivity. }
    destruct (fo_connected _ _ _ _ _ Hl M) with (f := f) as (h & [Hadj Hfr] & Hc);
      [|exact Hf'|exact Hf2|].
    { intros k Hk' Hk2. apply HM; [exact Hk'|].
      rewrite marked_mark_face in Hk2 by exact Hbm.
      apply orb_false_elim in Hk2. tauto. }
    eapply connected_reroot; [exact Hcs | exact Hadj | exact Hfr |].
    eapply connected_same_scene; [exact Hs2 | exact Hc].
Qed.

End FloodFill.

Section FloodFill.
Context `{Three}.
Variables (center : Vector2.t) (radius : float).
Implicit Types (tm : TextureManager) (f g h seed : Z) (R : Z -> Prop).

Lemma adjacentFace_defined tm seed i :
  well_formed tm ->
  (0 <= seed < Z.of_nat (length (Geometry.faces (geometry tm))))%Z ->
  i < nAdjacent tm seed ->
  exists h, adjacentFace tm seed i = Ok h.
Proof.
  intros Hwf Hseed Hi. unfold adjacentFace.
  destruct (lookup_lt_is_Some_2 (_AdjacentFacesList tm) (Z.to_nat seed)) as [row Hrow].
  { rewrite (wf_rows _ Hwf). lia. }
  rewrite Hrow. simpl.
  pose proof (wf_neighbour_count _ Hwf _ _ Hrow) as Hn.
  rewrite Z2Nat.id in Hn by lia.
  destruct (lookup_lt_is_Some_2 row i) as [h Hh]; [lia|].
  rewrite Hh. simpl. eauto.
Qed.

Lemma facesCamera_defined tm h :
  (0 <= h < Z.of_nat (length (Geometry.faces (geometry tm))))%Z ->
  exists fr, facesCamera tm h = Ok fr.
Proof.
  intros Hh. unfold facesCamera.
  destruct (lookup_lt_is_Some_2 (Geometry.faces (geometry tm)) (Z.to_nat h))
    as [face Hface]; [lia|].
  unfold element.
  replace (0 <=? h)%Z with true by (symmetry; apply Z.leb_le; lia).
  rewrite Hface. simpl. eauto.
Qed.

Lemma add_recursive_total fuel : forall seed tm,
  well_formed tm ->
  (seed < Z.of_nat (length (Geometry.faces (geometry tm))))%Z ->
  unmarked (_isFloodFill tm) < fuel ->
  exists tm', _add_recursive fuel seed center radius tm = Ok tm'.
Proof.
  induction fuel as [|fuel IH]; intros seed tm Hwf Hseed Hfuel; [lia|].
  rewrite add_recursive_S.
  destruct ((0 <=? seed)%Z && falsy (typed_get (_isFloodFill tm) seed)) eqn:Hguard;
    [|eauto].
  apply andb_prop in Hguard as [Hpos Hunmarked]. apply Z.leb_le in Hpos.
  destruct (lookup_lt_is_Some_2 (_drawingTextureUvs tm) (Z.to_nat seed)) as [uvs Huvs].
  { rewrite (wf_drawing _ Hwf). lia. }
  rewrite Huvs. simpl.
  destruct (intersects (_drawingCanvas tm) uvs center radius); [|eauto].
  assert (Hm0 : marked tm seed = false).
  { unfold marked. rewrite Hunmarked. reflexivity. }
  destruct (mark_face_ok (eq seed) seed tm Hwf (conj Hpos Hseed) Hm0)
    as (Hs2 & Hwf2 & Hu2 & _).
  rewrite (scene_nAdjacent _ _ Hs2).
  assert (Hloop : forall (idx : list nat) (a : TextureManager),
             (forall i, i ∈ idx -> i < nAdjacent tm seed) ->
             well_formed a -> same_scene tm a ->
             unmarked (_isFloodFill a) < fuel ->
             exists b,
               for_each idx
                 (visit_neighbour
                    (fun newfaceIndex tm' =>
                       _add_recursive fuel newfaceIndex center radius tm') seed) a
               = Ok b).
  { induction idx as [|i idx IHidx]; intros a Hidx Hwfa Hsa Hua; [simpl; eauto|].
    simpl. unfold visit_neighbour at 1.
    pose proof (scene_geometry _ _ Hsa) as Hg.
    destruct (adjacentFace_defined a seed i Hwfa) as [h Hh].
    { rewrite Hg. lia. }
    { rewrite (scene_nAdjacent _ _ Hsa). apply Hidx. left. }
    rewrite Hh. simpl.
    assert (Hhr : (0 <= h < Z.of_nat (length (Geometry.faces (geometry a))))%Z).
    { eapply (wf_neighbours _ Hwfa (Z.to_nat seed)).
      eapply adjacentFace_adjacent; [exact Hpos| |exact Hh].
      rewrite (scene_nAdjacent _ _ Hsa). apply Hidx. left. }
    destruct (facesCamera_defined a h Hhr) as [fr Hfr]. rewrite Hfr. simpl.
    assert (Hnext : forall a1, flood_ok center radius (eq h) a a1 ->
               exists b, for_each idx
                 (visit_neighbour
                    (fun newfaceIndex tm' =>
                       _add_recursive fuel newfaceIndex center radius tm') seed) a1
               = Ok b).
    { intros a1 Hok. apply IHidx.
      - intros k Hk. apply Hidx. right. exact Hk.
      - eapply flood_ok_well_formed; eassumption.
      - eapply same_scene_trans; [exact Hsa | apply Hok].
      - pose proof (fo_unmarked _ _ _ _ _ Hok). lia. }
    destruct fr.
    - destruct (IH h a Hwfa) as [a1 Ha1]; [lia | exact Hua |].
      rewrite Ha1. simpl. apply Hnext. eapply add_recursive_ok; eassumption.
    - simpl. apply Hnext. apply flood_ok_refl. exact Hwfa. }
  apply Hloop; [|exact Hwf2|exact Hs2|lia].
  intros i Hi. apply elem_of_seq in Hi. lia.
Qed.

End FloodFill.

Section Strokes.
Context `{Three}.
Implicit Types (tm : TextureManager) (f g h seed : Z).

(** *** One sample of a stroke *)

Lemma well_formed_set_drawingMaterial v tm :
  well_formed tm -> well_formed (set_drawingMaterial v tm).
Proof. intros [? ? ? ? ? ? ? ? ? ?]. split; assumption. Qed.

Lemma well_formed_reset tm :
  well_formed tm ->
  typed_set (_isFloodFill tm) (_isFloodFillEmpty tm) = Ok (_isFloodFillEmpty tm)
  /\ well_formed (sample_start tm)
  /\ (forall f, marked (sample_start tm) f = false).
Proof.
  intros Hwf. split; [|split].
  - apply typed_set_same_length.
    rewrite (wf_bitmap_empty _ Hwf), (wf_bitmap _ Hwf).
    unfold typed_new. apply length_replicate.
  - unfold sample_start.
    set (tm1 := set_drawingMaterial _ tm).
    assert (Hwf1 : well_formed tm1) by (apply well_formed_set_drawingMaterial; exact Hwf).
    change (_isFloodFillEmpty tm) with (_isFloodFillEmpty tm1).
    eapply well_formed_same_scene;
      [apply same_scene_set_isFloodFill | exact Hwf1 | | apply Hwf1].
    simpl. rewrite (wf_bitmap_empty _ Hwf), (wf_bitmap _ Hwf).
    unfold typed_new. apply length_replicate.
  - intros f. unfold marked. simpl. rewrite (wf_bitmap_empty _ Hwf).
    rewrite typed_get_new. reflexivity.
Qed.

(** What the flood-fill reads is the same at the start of a sample. *)
Lemma sample_start_hits tm center radius f :
  hits (sample_start tm) center radius f = hits tm center radius f.
Proof. reflexivity. Qed.

Lemma sample_start_neighbours tm i : neighbours (sample_start tm) i = neighbours tm i.
Proof. reflexivity. Qed.

Lemma sample_start_facesCamera tm f :
  facesCamera (sample_start tm) f = facesCamera tm f.
Proof. reflexivity. Qed.

Lemma sample_start_connected tm center radius M root f :
  connected (sample_start tm) center radius M root f
  <-> connected tm center radius M root f.
Proof.
  split; induction 1 as [Hh HM|g h _ IH [Hg Hadj] Hfr Hh HM].
  - apply connected_seed; assumption.
  - eapply connected_step; [exact IH| | | |exact HM]; [split| |]; assumption.
  - apply connected_seed; assumption.
  - eapply connected_step; [exact IH| | | |exact HM]; [split| |]; assumption.
Qed.

Lemma onStrokePainted_unfold canvasPos radius tm :
  well_formed tm ->
  onStrokePainted canvasPos radius tm
  = match _castRayFromMouse canvasPos tm with
    | [] => Ok tm
    | hit :: _ =>
        _add_recursive callStack (Face3.materialIndex hit)
          canvasPos radius (sample_start tm)
    end.
Proof.
  intros Hwf. unfold onStrokePainted.
  destruct (_castRayFromMouse canvasPos tm) as [|hit rest]; [reflexivity|].
  cbn [set_drawingMaterial _isFloodFill _isFloodFillEmpty].
  destruct (well_formed_reset tm Hwf) as (-> & _). reflexivity.
Qed.

(** The recursion marks a face at each level: a call stack that holds
    more calls than there are faces is not exhausted by a sample. *)
Lemma onStrokePainted_fits canvasPos radius tm :
  well_formed tm ->
  length (Geometry.faces (geometry tm)) < callStack ->
  onStrokePainted canvasPos radius tm <> Throw RangeError.
Proof.
  intros Hwf Hstack. rewrite onStrokePainted_unfold by exact Hwf.
  destruct (_castRayFromMouse canvasPos tm) as [|hit rest]; [discriminate|].
  destruct (well_formed_reset tm Hwf) as (_ & Hwf0 & Hm0).
  set (tm0 := sample_start tm) in *.
  set (seed := Face3.materialIndex hit).
  destruct (Z_lt_dec seed (Z.of_nat (length (Geometry.faces (geometry tm0)))))
    as [Hlt|Hge].
  - destruct (add_recursive_total canvasPos radius callStack seed tm0 Hwf0 Hlt)
      as [tm' ->]; [|discriminate].
    change (_isFloodFill tm0) with (_isFloodFillEmpty tm).
    eapply Nat.le_lt_trans; [apply unmarked_length|].
    rewrite (wf_bitmap_empty _ Hwf). unfold typed_new. rewrite length_replicate.
    exact Hstack.
  - destruct callStack as [|stack]; [lia|].
    rewrite add_recursive_S.
    replace (0 <=? seed)%Z with true by (symmetry; apply Z.leb_le; lia).
    specialize (Hm0 seed). unfold marked in Hm0. apply negb_false_iff in Hm0.
    fold tm0 in Hm0. rewrite Hm0. simpl.
    change (geometry tm0) with (geometry tm) in Hge.
    change (_drawingTextureUvs tm0) with (_drawingTextureUvs tm).
    rewrite lookup_ge_None_2; [discriminate|].
    rewrite (wf_drawing _ Hwf). lia.
Qed.

Lemma onStrokePainted_sample canvasPos radius tm tm' :
  well_formed tm ->
  onStrokePainted canvasPos radius tm = Ok tm' ->
  match _castRayFromMouse canvasPos tm with
  | [] => tm' = tm
  | hit :: _ =>
      flood_ok canvasPos radius (eq (Face3.materialIndex hit))
        (sample_start tm) tm'
  end.
Proof.
  intros Hwf. rewrite onStrokePainted_unfold by exact Hwf.
  destruct (_castRayFromMouse canvasPos tm) as [|hit rest]; [congruence|].
  intros Hrun. eapply add_recursive_ok; [|exact Hrun]. apply well_formed_reset. exact Hwf.
Qed.

Lemma onStrokePainted_well_formed canvasPos radius tm tm' :
  well_formed tm -> onStrokePainted canvasPos radius tm = Ok tm' -> well_formed tm'.
Proof.
  intros Hwf Hrun. pose proof (onStrokePainted_sample _ _ _ _ Hwf Hrun) as Hs.
  destruct (_castRayFromMouse canvasPos tm) as [|hit rest]; [subst; exact Hwf|].
  eapply flood_ok_well_formed; [|exact Hs]. apply well_formed_reset. exact Hwf.
Qed.

End Strokes.

Section Claims.
Context `{Three}.
Implicit Types (tm : TextureManager) (f g h seed : Z).

Lemma connected_end tm center radius M seed f :
  connected tm center radius M seed f ->
  hits tm center radius f = true /\ M f /\ M seed.
Proof. induction 1; tauto. Qed.

Lemma lineCircleCollide_radius_zero (a b circle : Vector2.t) (radius : float) :
  (radius =? 0)%float = true -> _lineCircleCollide a b circle radius = false.
Proof.
  intros Hr. unfold _lineCircleCollide, _pointCircleCollide. rewrite Hr.
  destruct (0 <? _)%float; reflexivity.
Qed.

Lemma hits_radius_zero tm center radius f :
  (radius =? 0)%float = true ->
  hits tm center radius f = contains_center tm center f.
Proof.
  intros Hr. unfold hits, contains_center, element.
  destruct (0 <=? f)%Z; [|reflexivity]. simpl.
  destruct (_drawingTextureUvs tm !! Z.to_nat f) as [[[uv1 uv2] uv3]|]; [|reflexivity].
  unfold intersects. rewrite !lineCircleCollide_radius_zero by exact Hr.
  rewrite !orb_false_r. reflexivity.
Qed.

(** C1 (amended): with radius 0 the three edge tests fail, so a
    flood-fill run that returns has marked and added a face only when
    the stroke center passes the point-in-triangle test on it; a seed
    that was not marked and whose projected triangle contains the center
    is marked and added; when the center is not inside the seed's
    triangle nothing changes. And the run does return, for a seed below
    the number of faces, when the call stack holds more nested calls than
    there are unmarked faces. *)
Theorem radius_zero_fill (stack : nat) (seed : Z) (center : Vector2.t)
    (radius : float) (tm : TextureManager) :
  (radius =? 0)%float = true ->
  well_formed tm ->
  (forall a b : Vector2.t, _lineCircleCollide a b center radius = false)
  /\ (forall tm', _add_recursive stack seed center radius tm = Ok tm' ->
        (forall f, marked tm' f = true -> marked tm f = false ->
                   contains_center tm center f = true)
        /\ (forall f, affected tm' f = true -> affected tm f = false ->
                      contains_center tm center f = true)
        /\ (contains_center tm center seed = false -> tm' = tm)
        /\ (contains_center tm center seed = true -> marked tm seed = false ->
            marked tm' seed = true /\ affected tm' seed = true))
  /\ ((seed < Z.of_nat (length (Geometry.faces (geometry tm))))%Z ->
      unmarked (_isFloodFill tm) < stack ->
      exists tm', _add_recursive stack seed center radius tm = Ok tm').
Proof.
  intros Hr Hwf.
  split; [intros a b; apply lineCircleCollide_radius_zero, Hr|].
  split; [|intros Hseed Hstack; apply add_recursive_total; assumption].
  intros tm' Hrun.
  destruct (add_recursive_ok center radius stack seed tm tm' Hwf Hrun) as [Hok Hmark].
  assert (Hnew : forall f, marked tm' f = true -> marked tm f = false ->
                           contains_center tm center f = true).
  { intros f Hf' Hf.
    destruct (fo_connected _ _ _ _ _ Hok (fun _ => True)) with (f := f)
      as (root & _ & Hc); [tauto | exact Hf' | exact Hf |].
    apply connected_end in Hc as (Hh & _).
    rewrite hits_radius_zero in Hh by exact Hr. exact Hh. }
  split; [exact Hnew|]. split; [|split].
  - intros f Hf' Hf. destruct (fo_new_marked _ _ _ _ _ Hok f Hf' Hf). auto.
  - intros Hout. destruct stack as [|stack]; [discriminate|].
    rewrite add_recursive_S in Hrun.
    destruct (0 <=? seed)%Z eqn:Hpos; [|simpl in Hrun; congruence].
    destruct (falsy _); [|simpl in Hrun; congruence]. simpl in Hrun.
    apply bind_Ok in Hrun as (uvs & Huvs & Hrun). apply defined_Ok in Huvs.
    assert (Hi : intersects (_drawingCanvas tm) uvs center radius = false).
    { unfold contains_center, element in Hout. rewrite Hpos in Hout.
      unfold Uvs in *. rewrite Huvs in Hout.
      destruct uvs as [[uv1 uv2] uv3]. unfold intersects.
      rewrite !lineCircleCollide_radius_zero by exact Hr.
      rewrite Hout. reflexivity. }
    rewrite Hi in Hrun. congruence.
  - intros Hin Hm. rewrite <- (hits_radius_zero tm center radius seed Hr) in Hin.
    pose proof (Hmark Hin Hm) as Hm'. split; [exact Hm'|].
    eapply fo_new_affected; eassumption.
Qed.

(** C6: every face a flood-fill run adds to the affected-face set is a
    face the run visited (marked); every visited face is in the set
    afterwards and is linked to the seed by a chain of neighbours that the
    run visited, each of which passed the circle test and, after the seed,
    the front-facing filter; and the run visits nothing unless it visits
    the seed. *)
Theorem flood_fill_connected (fuel : nat) (seed : Z) (center : Vector2.t)
    (radius : float) (tm tm' : TextureManager) :
  well_formed tm ->
  _add_recursive fuel seed center radius tm = Ok tm' ->
  let visited := fun g => marked tm' g = true /\ marked tm g = false in
  (forall f, affected tm' f = true -> affected tm f = false -> visited f)
  /\ (forall f, visited f ->
        affected tm' f = true
        /\ connected tm center radius visited seed f)
  /\ (forall f, visited f -> visited seed).
Proof.
  intros Hwf Hrun visited.
  destruct (add_recursive_ok center radius fuel seed tm tm' Hwf Hrun) as [Hok _].
  assert (Hc : forall f, visited f -> connected tm center radius visited seed f).
  { intros f [Hf' Hf].
    destruct (fo_connected _ _ _ _ _ Hok visited) with (f := f)
      as (root & <- & Hc); [unfold visited; tauto | exact Hf' | exact Hf |].
    exact Hc. }
  split; [|split].
  - intros f Hf' Hf. apply (fo_new_marked _ _ _ _ _ Hok); assumption.
  - intros f Hv. split; [|apply Hc; exact Hv].
    destruct Hv. eapply fo_new_affected; eassumption.
  - intros f Hv. apply Hc, connected_end in Hv. tauto.
Qed.

(** C10: the seed is not subject to the front-facing filter: when the
    ray hits a face whose projected triangle passes the circle test, a
    stroke sample that returns has that face marked and in the
    affected-face set, whatever its normal; and the sample does return
    when the call stack holds more nested calls than there are faces. *)
Theorem seed_is_not_filtered (canvasPos : Vector2.t) (radius : float)
    (tm : TextureManager) (hit : Face3.t) (rest : list Face3.t) :
  well_formed tm ->
  _castRayFromMouse canvasPos tm = hit :: rest ->
  hits tm canvasPos radius (Face3.materialIndex hit) = true ->
  (forall tm', onStrokePainted canvasPos radius tm = Ok tm' ->
     marked tm' (Face3.materialIndex hit) = true
     /\ affected tm' (Face3.materialIndex hit) = true)
  /\ (length (Geometry.faces (geometry tm)) < callStack ->
      exists tm', onStrokePainted canvasPos radius tm = Ok tm').
Proof.
  intros Hwf Hray Hhit.
  rewrite onStrokePainted_unfold, Hray by exact Hwf.
  destruct (well_formed_reset tm Hwf) as (_ & Hwf0 & Hm0).
  set (tm0 := sample_start tm) in *.
  set (seed := Face3.materialIndex hit) in *.
  assert (Hhit0 : hits tm0 canvasPos radius seed = true) by exact Hhit.
  split.
  - intros tm' Hrun.
    destruct (add_recursive_ok _ _ _ _ _ _ Hwf0 Hrun) as [Hok Hmark].
    specialize (Hmark Hhit0 (Hm0 seed)).
    split; [exact Hmark|].
    eapply fo_new_affected; [exact Hok | exact Hmark | apply Hm0].
  - intros Hstack.
    assert (Hseed : (seed < Z.of_nat (length (Geometry.faces (geometry tm0))))%Z).
    { unfold hits in Hhit. apply andb_prop in Hhit as [Hpos Hl].
      apply Z.leb_le in Hpos.
      destruct (_drawingTextureUvs tm !! Z.to_nat seed) eqn:E; [|discriminate].
      apply lookup_lt_Some in E. rewrite (wf_drawing _ Hwf) in E.
      change (geometry tm0) with (geometry tm). lia. }
    apply (add_recursive_total canvasPos radius callStack seed tm0 Hwf0 Hseed).
    change (_isFloodFill tm0) with (_isFloodFillEmpty tm).
    eapply Nat.le_lt_trans; [apply unmarked_length|].
    rewrite (wf_bitmap_empty _ Hwf). unfold typed_new. rewrite length_replicate.
    exact Hstack.
Qed.

End Claims.

(** ** The face adjacency built by the constructor *)

Section Counting.
Variables (vertices : list Vector3.t) (normal_i normal_j : Vector3.t).

Lemma inner_count (k : nat) : forall (ls : list nat) (c n : nat),
  for_each ls
    (fun l count =>
       do p <- defined (vertices !! k);
       do q <- defined (vertices !! l);
       Ok (if coincide p q normal_i normal_j then S count else count)) c = Ok n ->
  n = c + length (List.filter
                    (fun pq => same_corner (fst pq) (snd pq)
                               && (0 <? Vector3.dot normal_i normal_j)%float)
                    (map (fun q => (vertices !! k, q))
                       (map (fun l => vertices !! l) ls))).
Proof.
  set (test := fun pq : option Vector3.t * option Vector3.t => _).
  induction ls as [|l ls IH]; intros c n Hrun.
  - injection Hrun as <-. simpl. lia.
  - apply for_each_cons in Hrun as (c1 & Hbody & Hrest).
    apply bind_Ok in Hbody as (p & Hp & Hbody). apply defined_Ok in Hp.
    apply bind_Ok in Hbody as (q & Hq & Hbody). apply defined_Ok in Hq.
    injection Hbody as <-. apply IH in Hrest. subst n.
    cbn [map List.filter]. rewrite Hq.
    replace (test (vertices !! k, Some q)) with (coincide p q normal_i normal_j)
      by (rewrite Hp; reflexivity).
    destruct (coincide p q normal_i normal_j); cbn [length]; lia.
Qed.

Lemma outer_count (ls : list nat) : forall (ks : list nat) (c n : nat),
  for_each ks
    (fun k count =>
       for_each ls
         (fun l count =>
            do p <- defined (vertices !! k);
            do q <- defined (vertices !! l);
            Ok (if coincide p q normal_i normal_j then S count else count))
         count) c = Ok n ->
  n = c + length (List.filter
                    (fun pq => same_corner (fst pq) (snd pq)
                               && (0 <? Vector3.dot normal_i normal_j)%float)
                    (list_prod (map (fun k => vertices !! k) ks)
                               (map (fun l => vertices !! l) ls))).
Proof.
  set (test := fun pq : option Vector3.t * option Vector3.t => _).
  induction ks as [|k ks IH]; intros c n Hrun.
  - injection Hrun as <-. simpl. lia.
  - apply for_each_cons in Hrun as (c1 & Hbody & Hrest).
    apply inner_count in Hbody. apply IH in Hrest. subst n c1.
    fold test. cbn [map list_prod]. rewrite List.filter_app, length_app. lia.
Qed.

End Counting.

Lemma count_coincidences_pairs (vertices : list Vector3.t) (fi fj : Face3.t) (n : nat) :
  count_coincidences vertices fi fj = Ok n ->
  n = if normals_agree fi fj then coincident_pairs vertices fi fj else 0.
Proof.
  intros Hrun. apply outer_count in Hrun. subst n. cbn [Nat.add map].
  unfold coincident_pairs, corners, normals_agree.
  destruct (0 <? _)%float.
  - f_equal. apply List.filter_ext. intros [p q]. apply andb_true_r.
  - rewrite (List.filter_ext _ (fun _ => false)) by (intros [p q]; apply andb_false_r).
    simpl. reflexivity.
Qed.

Section Recorded.
Implicit Types (n : list Z) (adj : list (list Z)) (st : list Z * list (list Z)).

Lemma recorded_same n adj n' adj' (f : nat) :
  n' !! f = n !! f -> adj' !! f = adj !! f ->
  recorded (n', adj') f = recorded (n, adj) f.
Proof. unfold recorded. simpl. intros -> ->. reflexivity. Qed.

Lemma recorded_append n adj n' adj' (f : nat) (v z : Z) (row : list Z) :
  n !! f = Some v -> adj !! f = Some row ->
  (0 <= v)%Z -> Z.to_nat v < length row ->
  adj' !! f = Some (<[Z.to_nat v := z]> row) ->
  n' !! f = Some (v + 1)%Z ->
  recorded (n', adj') f = recorded (n, adj) f ++ [z].
Proof.
  intros Hn Hrow Hv Hlt Hrow' Hn'. unfold recorded. simpl.
  rewrite Hn, Hrow, Hrow', Hn'.
  replace (Z.to_nat (v + 1)) with (S (Z.to_nat v)) by lia.
  erewrite take_S_r by (apply list_lookup_insert_eq; exact Hlt).
  rewrite take_insert_ge by lia. reflexivity.
Qed.

Lemma processed_S (i j a b : nat) :
  processed i (S j) a b <-> processed i j a b \/ (a = i /\ b = j).
Proof. unfold processed. lia. Qed.

Variables (g : Geometry.t) (nFaces : nat).

Lemma recorded_length i j st (f : nat) (v : Z) :
  adjacency_inv g nFaces i j st ->
  fst st !! f = Some v -> length (recorded st f) = Z.to_nat v.
Proof.
  intros Hinv Hv. unfold recorded. rewrite Hv.
  destruct (lookup_lt_is_Some_2 (snd st) f) as [row Hrow].
  { rewrite (ai_rows _ _ _ _ _ Hinv), <- (ai_counts _ _ _ _ _ Hinv).
    eapply lookup_lt_Some, Hv. }
  rewrite Hrow. rewrite length_take.
  pose proof (ai_row _ _ _ _ _ Hinv f row Hrow).
  pose proof (ai_count _ _ _ _ _ Hinv f v Hv). lia.
Qed.

(** A face that is not yet recorded for [f] leaves room in its row. *)
Lemma recorded_room i j st (f h : nat) (v : Z) :
  adjacency_inv g nFaces i j st ->
  f < nFaces -> h < nFaces -> h <> f ->
  Z.of_nat h ∉ recorded st f ->
  fst st !! f = Some v ->
  Z.to_nat v + 2 <= nFaces.
Proof.
  intros Hinv Hf Hh Hne Hnotin Hv.
  rewrite <- (recorded_length i j st f v Hinv Hv).
  assert (Hb : length (Z.of_nat f :: Z.of_nat h :: recorded st f) <= nFaces).
  { apply members_bound.
    - constructor.
      + intros [Heq|Hin]%elem_of_cons; [lia|].
        apply (ai_members _ _ _ _ _ Hinv f _ Hf) in Hin as (k & Hk & _ & Hkf & _). lia.
      + constructor; [exact Hnotin | apply (ai_nodup _ _ _ _ _ Hinv)].
    - intros z [->|[->|Hin]%elem_of_cons]%elem_of_cons; [lia|lia|].
      apply (ai_members _ _ _ _ _ Hinv f _ Hf) in Hin as (k & -> & Hk & _). lia. }
  simpl in Hb. lia.
Qed.

End Recorded.

Section Step.
Variables (g : Geometry.t) (nFaces : nat).
Hypothesis Hsmall : nFaces <= 256.

Lemma adjacency_inv_skip (i j : nat) (st : list Z * list (list Z)) :
  adjacency_inv g nFaces i j st -> i < j ->
  share_edge g i j = false ->
  adjacency_inv g nFaces i (S j) st.
Proof.
  intros [Hc Hr Hrow Hcount Hnd Hmem] Hij Hno. split; auto.
  intros f z Hf. rewrite (Hmem f z Hf). split.
  - intros (h & Hz & Hh & Hne & Hp & Hs). exists h. repeat split; auto.
    apply processed_S. left. exact Hp.
  - intros (h & Hz & Hh & Hne & Hp & Hs). exists h. repeat split; auto.
    apply processed_S in Hp as [Hp|[Ha Hb]]; [exact Hp|].
    rewrite Ha, Hb in Hs. congruence.
Qed.

Lemma record_neighbours_inv (i j : nat) (st st' : list Z * list (list Z)) :
  adjacency_inv g nFaces i j st -> i < j -> j < nFaces ->
  share_edge g i j = true ->
  record_neighbours i j st = Ok st' ->
  adjacency_inv g nFaces i (S j) st'.
Proof.
  intros Hinv Hij Hj Hshare Hrun.
  pose proof Hinv as [Hc Hr Hrow Hcount Hnd Hmem].
  destruct st as [n adj]. simpl in Hc, Hr, Hrow, Hcount.
  unfold record_neighbours in Hrun.
  apply bind_Ok in Hrun as (ni & Hni & Hrun). apply defined_Ok in Hni.
  apply bind_Ok in Hrun as (row_i & Hrow_i & Hrun). apply defined_Ok in Hrow_i.
  apply bind_Ok in Hrun as (nj & Hnj & Hrun). apply defined_Ok in Hnj.
  apply bind_Ok in Hrun as (row_j & Hrow_j & Hrun). apply defined_Ok in Hrow_j.
  apply bind_Ok in Hrun as (nj' & Hnj' & Hrun). apply defined_Ok in Hnj'.
  injection Hrun as <-.
  rewrite list_lookup_insert_ne in Hrow_j by lia.
  assert (Hi_not : Z.of_nat j ∉ recorded (n, adj) i).
  { intros (h & Hz & _ & _ & Hp & _)%(Hmem i); [|lia].
    assert (h = j) by lia. subst h.
    rewrite Nat.min_l, Nat.max_r in Hp by lia. unfold processed in Hp. lia. }
  assert (Hj_not : Z.of_nat i ∉ recorded (n, adj) j).
  { intros (h & Hz & _ & _ & Hp & _)%(Hmem j); [|lia].
    assert (h = i) by lia. subst h.
    rewrite Nat.min_r, Nat.max_l in Hp by lia. unfold processed in Hp. lia. }
  pose proof (recorded_room g nFaces i j (n, adj) i j ni Hinv) as Hroom_i.
  pose proof (recorded_room g nFaces i j (n, adj) j i nj Hinv) as Hroom_j.
  specialize (Hroom_i ltac:(lia) Hj ltac:(lia) Hi_not Hni).
  specialize (Hroom_j Hj ltac:(lia) ltac:(lia) Hj_not Hnj).
  destruct (Hcount i ni Hni) as [Hni0 _]. destruct (Hcount j nj Hnj) as [Hnj0 _].
  pose proof (Hrow i row_i Hrow_i) as Hlen_i.
  pose proof (Hrow j row_j Hrow_j) as Hlen_j.
  (* the writes, without the conversions *)
  assert (Hput_i : uint32_put row_i ni (Z.of_nat j) = <[Z.to_nat ni := Z.of_nat j]> row_i).
  { unfold uint32_put, typed_put.
    replace (0 <=? ni)%Z with true by (symmetry; apply Z.leb_le; exact Hni0).
    rewrite Z.mod_small by lia. reflexivity. }
  assert (Hput_j : uint32_put row_j nj (Z.of_nat i) = <[Z.to_nat nj := Z.of_nat i]> row_j).
  { unfold uint32_put, typed_put.
    replace (0 <=? nj)%Z with true by (symmetry; apply Z.leb_le; exact Hnj0).
    rewrite Z.mod_small by lia. reflexivity. }
  assert (Hn1 : uint8_put n (Z.of_nat i) (ni + 1) = <[i := (ni + 1)%Z]> n).
  { unfold uint8_put, typed_put.
    replace (0 <=? Z.of_nat i)%Z with true by (symmetry; apply Z.leb_le; lia).
    rewrite Nat2Z.id, Z.mod_small by lia. reflexivity. }
  rewrite Hn1 in Hnj'. rewrite list_lookup_insert_ne in Hnj' by lia.
  assert (nj' = nj) by congruence. subst nj'.
  assert (Hn2 : uint8_put (uint8_put n (Z.of_nat i) (ni + 1)) (Z.of_nat j) (nj + 1)
                = <[j := (nj + 1)%Z]> (<[i := (ni + 1)%Z]> n)).
  { rewrite Hn1. unfold uint8_put, typed_put.
    replace (0 <=? Z.of_nat j)%Z with true by (symmetry; apply Z.leb_le; lia).
    rewrite Nat2Z.id, Z.mod_small by lia. reflexivity. }
  rewrite Hn2, Hput_i, Hput_j.
  set (n2 := <[j := (nj + 1)%Z]> (<[i := (ni + 1)%Z]> n)).
  set (adj2 := <[j := <[Z.to_nat nj := Z.of_nat i]> row_j]>
                 (<[i := <[Z.to_nat ni := Z.of_nat j]> row_i]> adj)).
  assert (Hn2i : n2 !! i = Some (ni + 1)%Z).
  { unfold n2. rewrite list_lookup_insert_ne by lia.
    apply list_lookup_insert_eq. lia. }
  assert (Hn2j : n2 !! j = Some (nj + 1)%Z).
  { unfold n2. apply list_lookup_insert_eq. rewrite length_insert. lia. }
  assert (Hn2f : forall f, f <> i -> f <> j -> n2 !! f = n !! f).
  { intros f Hfi Hfj. unfold n2. rewrite !list_lookup_insert_ne by lia. reflexivity. }
  assert (Ha2i : adj2 !! i = Some (<[Z.to_nat ni := Z.of_nat j]> row_i)).
  { unfold adj2. rewrite list_lookup_insert_ne by lia.
    apply list_lookup_insert_eq. lia. }
  assert (Ha2j : adj2 !! j = Some (<[Z.to_nat nj := Z.of_nat i]> row_j)).
  { unfold adj2. apply list_lookup_insert_eq. rewrite length_insert. lia. }
  assert (Ha2f : forall f, f <> i -> f <> j -> adj2 !! f = adj !! f).
  { intros f Hfi Hfj. unfold adj2. rewrite !list_lookup_insert_ne by lia. reflexivity. }
  assert (Hrec_i : recorded (n2, adj2) i = recorded (n, adj) i ++ [Z.of_nat j]).
  { eapply recorded_append; eauto. lia. }
  assert (Hrec_j : recorded (n2, adj2) j = recorded (n, adj) j ++ [Z.of_nat i]).
  { eapply recorded_append; eauto. lia. }
  assert (Hrec_f : forall f, f <> i -> f <> j ->
                             recorded (n2, adj2) f = recorded (n, adj) f).
  { intros f Hfi Hfj. apply recorded_same; [apply Hn2f | apply Ha2f]; assumption. }
  split; simpl.
  - unfold n2. rewrite !length_insert. exact Hc.
  - unfold adj2. rewrite !length_insert. exact Hr.
  - intros f row Hf.
    destruct (Nat.eq_dec f j) as [->|Hfj].
    { rewrite Ha2j in Hf. injection Hf as <-. rewrite length_insert. exact Hlen_j. }
    destruct (Nat.eq_dec f i) as [->|Hfi].
    { rewrite Ha2i in Hf. injection Hf as <-. rewrite length_insert. exact Hlen_i. }
    rewrite Ha2f in Hf by assumption. eapply Hrow, Hf.
  - intros f v Hf.
    destruct (Nat.eq_dec f j) as [->|Hfj].
    { rewrite Hn2j in Hf. injection Hf as <-. lia. }
    destruct (Nat.eq_dec f i) as [->|Hfi].
    { rewrite Hn2i in Hf. injection Hf as <-. lia. }
    rewrite Hn2f in Hf by assumption. eapply Hcount, Hf.
  - intros f.
    destruct (Nat.eq_dec f j) as [->|Hfj].
    { rewrite Hrec_j. apply NoDup_app. split; [apply Hnd|]. split.
      - intros z Hz [->|Hx]%elem_of_cons; [contradiction | inversion Hx].
      - apply NoDup_singleton. }
    destruct (Nat.eq_dec f i) as [->|Hfi].
    { rewrite Hrec_i. apply NoDup_app. split; [apply Hnd|]. split.
      - intros z Hz [->|Hx]%elem_of_cons; [contradiction | inversion Hx].
      - apply NoDup_singleton. }
    rewrite Hrec_f by assumption. apply Hnd.
  - intros f z Hf.
    destruct (Nat.eq_dec f j) as [->|Hfj].
    { rewrite Hrec_j, elem_of_app, list_elem_of_singleton, (Hmem j z Hf). split.
      - intros [(h & Hz & Hh & Hne & Hp & Hs)| ->].
        + exists h. repeat split; auto. apply processed_S. left. exact Hp.
        + exists i. repeat split; try lia.
          * apply processed_S. right. lia.
          * rewrite Nat.min_r, Nat.max_l by lia. exact Hshare.
      - intros (h & Hz & Hh & Hne & Hp & Hs).
        apply processed_S in Hp as [Hp|[Ha Hb]].
        + left. exists h. repeat split; auto.
        + right. assert (h = i) by lia. subst h. exact Hz. }
    destruct (Nat.eq_dec f i) as [->|Hfi].
    { rewrite Hrec_i, elem_of_app, list_elem_of_singleton, (Hmem i z Hf). split.
      - intros [(h & Hz & Hh & Hne & Hp & Hs)| ->].
        + exists h. repeat split; auto. apply processed_S. left. exact Hp.
        + exists j. repeat split; try lia.
          * apply processed_S. right. lia.
          * rewrite Nat.min_l, Nat.max_r by lia. exact Hshare.
      - intros (h & Hz & Hh & Hne & Hp & Hs).
        apply processed_S in Hp as [Hp|[Ha Hb]].
        + left. exists h. repeat split; auto.
        + right. assert (h = j) by lia. subst h. exact Hz. }
    rewrite Hrec_f by assumption. rewrite (Hmem f z Hf). split.
    + intros (h & Hz & Hh & Hne & Hp & Hs). exists h. repeat split; auto.
      apply processed_S. left. exact Hp.
    + intros (h & Hz & Hh & Hne & Hp & Hs). exists h. repeat split; auto.
      apply processed_S in Hp as [Hp|[Ha Hb]]; [exact Hp | lia].
Qed.

End Step.

Lemma for_each_seq_inv {S : Type} (P : nat -> S -> Prop) (body : nat -> S -> result S) :
  forall (len start : nat) (s s' : S),
  P start s ->
  (forall k a b, start <= k < start + len -> P k a -> body k a = Ok b -> P (Datatypes.S k) b) ->
  for_each (seq start len) body s = Ok s' ->
  P (start + len) s'.
Proof.
  induction len as [|len IH]; intros start s s' Hs Hstep Hrun.
  - injection Hrun as <-. rewrite Nat.add_0_r. exact Hs.
  - apply for_each_cons in Hrun as (s1 & Hbody & Hrest).
    replace (start + Datatypes.S len) with (Datatypes.S start + len) by lia.
    apply (IH (Datatypes.S start) s1 s').
    + apply (Hstep start s s1); [lia | exact Hs | exact Hbody].
    + intros k a b Hk. apply Hstep. lia.
    + exact Hrest.
Qed.

Section Loops.
Variables (g : Geometry.t).
Let nFaces := length (Geometry.faces g).
Hypothesis Hsmall : nFaces <= 256.

Lemma adjacency_inv_reindex (i j i' j' : nat) (st : list Z * list (list Z)) :
  adjacency_inv g nFaces i j st ->
  (forall a b, a < b -> b < nFaces -> processed i j a b <-> processed i' j' a b) ->
  adjacency_inv g nFaces i' j' st.
Proof.
  intros [Hc Hr Hrow Hcount Hnd Hmem] Hp. split; auto.
  intros f z Hf. rewrite (Hmem f z Hf).
  split; intros (h & Hz & Hh & Hne & Hpr & Hs); exists h; repeat split; auto;
    apply Hp; auto; lia.
Qed.

Lemma adjacency_pair_inv (i j : nat) (st st' : list Z * list (list Z)) :
  adjacency_inv g nFaces i j st -> i < j -> j < nFaces ->
  adjacency_pair g i j st = Ok st' ->
  adjacency_inv g nFaces i (S j) st'.
Proof.
  intros Hinv Hij Hj Hrun. unfold adjacency_pair in Hrun.
  apply bind_Ok in Hrun as (fi & Hfi & Hrun). apply defined_Ok in Hfi.
  apply bind_Ok in Hrun as (fj & Hfj & Hrun). apply defined_Ok in Hfj.
  apply bind_Ok in Hrun as (count & Hcount & Hrun).
  apply count_coincidences_pairs in Hcount.
  assert (Hshare : share_edge g i j = (count =? 2)%nat).
  { unfold share_edge. rewrite Hfi, Hfj. subst count.
    destruct (normals_agree fi fj); [apply andb_true_r | apply andb_false_r]. }
  destruct (count =? 2)%nat.
  - eapply record_neighbours_inv; eassumption.
  - injection Hrun as <-. apply adjacency_inv_skip; assumption.
Qed.

Lemma adjacency_inv_initial :
  adjacency_inv g nFaces 0 1 (typed_new nFaces, replicate nFaces (typed_new nFaces)).
Proof.
  split; simpl.
  - unfold typed_new. apply length_replicate.
  - apply length_replicate.
  - intros f row [-> _]%lookup_replicate. unfold typed_new. apply length_replicate.
  - intros f n [-> _]%lookup_replicate. simpl. lia.
  - intros f. unfold recorded. simpl.
    destruct (replicate nFaces (typed_new nFaces) !! f) as [row|]; [|constructor].
    destruct (typed_new nFaces !! f) as [n|] eqn:E; [|rewrite take_0; constructor].
    apply lookup_replicate in E as [-> _]. simpl. rewrite take_0. constructor.
  - intros f z Hf.
    assert (Hempty : recorded (typed_new nFaces, replicate nFaces (typed_new nFaces)) f = []).
    { unfold recorded. simpl.
      destruct (replicate nFaces (typed_new nFaces) !! f) as [row|]; [|reflexivity].
      destruct (typed_new nFaces !! f) as [n|] eqn:E; [|apply take_0].
      apply lookup_replicate in E as [-> _]. apply take_0. }
    rewrite Hempty. split; [intros Hin; inversion Hin|].
    intros (h & _ & _ & Hne & Hp & _). unfold processed in Hp. lia.
Qed.

Lemma build_adjacency_inv (st : list Z * list (list Z)) :
  build_adjacency g = Ok st ->
  adjacency_inv g nFaces nFaces nFaces st.
Proof.
  intros Hrun. unfold build_adjacency in Hrun. fold nFaces in Hrun.
  apply (for_each_seq_inv (fun i st => adjacency_inv g nFaces i (S i) st)) in Hrun.
  - eapply adjacency_inv_reindex; [exact Hrun|].
    intros a b Hab Hb. unfold processed. lia.
  - apply adjacency_inv_initial.
  - intros i a b Hi Ha Hinner.
    apply (for_each_seq_inv (fun j st => adjacency_inv g nFaces i j st)) in Hinner.
    + eapply adjacency_inv_reindex; [exact Hinner|].
      intros x y Hxy Hy. unfold processed. lia.
    + exact Ha.
    + intros j a' b' Hj Ha' Hpair. eapply adjacency_pair_inv; [exact Ha'| | |exact Hpair]; lia.
Qed.

End Loops.

Section Constructor.
Context `{Three}.

Lemma index_materials_lookup (faces : list Face3.t) (i : nat) :
  index_materials faces !! i
  = (fun f => Face3.mk (Face3.a f) (Face3.b f) (Face3.c f) (Face3.normal f)
                (Z.of_nat i)) <$> faces !! i.
Proof. unfold index_materials. apply list_lookup_imap. Qed.

Lemma share_edge_index_materials (g : Geometry.t) (i j : nat) :
  share_edge
    (Geometry.mk (Geometry.vertices g) (index_materials (Geometry.faces g))
       (Geometry.faceVertexUvs0 g)) i j
  = share_edge g i j.
Proof.
  unfold share_edge. simpl. rewrite !index_materials_lookup.
  destruct (Geometry.faces g !! i) as [fi|]; [|reflexivity].
  destruct (Geometry.faces g !! j) as [fj|]; reflexivity.
Qed.

Lemma neighbours_recorded (tm : TextureManager) (i : nat) :
  neighbours tm i = recorded (_nAdjacentFaces tm, _AdjacentFacesList tm) i.
Proof.
  unfold neighbours, recorded, nAdjacent, typed_get. simpl.
  replace (0 <=? Z.of_nat i)%Z with true by (symmetry; apply Z.leb_le; lia).
  rewrite Nat2Z.id. reflexivity.
Qed.

Lemma constructor_fields (g : Geometry.t) (r : Renderer.t) (cam : Camera)
    (tm : TextureManager) :
  constructor g r cam = Ok tm ->
  let nFaces := length (Geometry.faces g) in
  Geometry.vertices (geometry tm) = Geometry.vertices g
  /\ Geometry.faces (geometry tm) = index_materials (Geometry.faces g)
  /\ _viewingTextureUvs tm
     = replicate nFaces (Vector2.mk 0.5 0.5, Vector2.mk 0.5 0.5, Vector2.mk 0.5 0.5)
  /\ _viewingMaterial tm = replicate nFaces SinglePixelCanvas
  /\ _drawingTextureUvs tm
     = replicate nFaces (Vector2.mk 0 0, Vector2.mk 0 0, Vector2.mk 0 0)
  /\ _affectedFaces tm = AffectedFacesRecorder.constructor nFaces
  /\ _isFloodFill tm = typed_new nFaces
  /\ _isFloodFillEmpty tm = typed_new nFaces
  /\ build_adjacency (geometry tm) = Ok (_nAdjacentFaces tm, _AdjacentFacesList tm).
Proof.
  unfold constructor. intros Hrun.
  apply bind_Ok in Hrun as ([n adj] & Hadj & Hrun). injection Hrun as <-.
  simpl. repeat split; try reflexivity. exact Hadj.
Qed.

Lemma constructor_inv (g : Geometry.t) (r : Renderer.t) (cam : Camera)
    (tm : TextureManager) :
  constructor g r cam = Ok tm ->
  length (Geometry.faces g) <= 256 ->
  adjacency_inv (geometry tm) (length (Geometry.faces g))
    (length (Geometry.faces g)) (length (Geometry.faces g))
    (_nAdjacentFaces tm, _AdjacentFacesList tm).
Proof.
  intros Hrun Hsmall.
  destruct (constructor_fields g r cam tm Hrun) as (_ & Hf & _ & _ & _ & _ & _ & _ & Hb).
  assert (Hlen : length (Geometry.faces (geometry tm)) = length (Geometry.faces g)).
  { rewrite Hf. unfold index_materials. apply length_imap. }
  rewrite <- Hlen. apply build_adjacency_inv; [lia | exact Hb].
Qed.

Lemma constructor_well_formed (g : Geometry.t) (r : Renderer.t) (cam : Camera)
    (tm : TextureManager) :
  constructor g r cam = Ok tm ->
  length (Geometry.faces g) <= 256 ->
  well_formed tm.
Proof.
  intros Hrun Hsmall.
  pose proof (constructor_inv g r cam tm Hrun Hsmall) as Hinv.
  destruct (constructor_fields g r cam tm Hrun)
    as (_ & Hf & Hv & Hm & Hd & Ha & Hb & He & _).
  assert (Hlen : length (Geometry.faces (geometry tm)) = length (Geometry.faces g)).
  { rewrite Hf. unfold index_materials. apply length_imap. }
  pose proof Hinv as [Ic Ir Irow Icount _ Imem]. simpl in Ic, Ir, Irow, Icount.
  split; rewrite ?Hlen.
  - rewrite Hd. apply length_replicate.
  - rewrite Hv. apply length_replicate.
  - rewrite Hm. apply length_replicate.
  - rewrite Hb. unfold typed_new. apply length_replicate.
  - exact He.
  - exact Ic.
  - exact Ir.
  - intros f h. rewrite neighbours_recorded. intros Hin.
    destruct (Nat.lt_ge_cases f (length (Geometry.faces g))) as [Hlt|Hge].
    + apply (Imem f h Hlt) in Hin as (k & -> & Hk & _). lia.
    + unfold recorded in Hin. simpl in Hin.
      rewrite lookup_ge_None_2 in Hin by (rewrite Ir; exact Hge).
      inversion Hin.
  - intros f row Hrow. unfold nAdjacent, typed_get.
    replace (0 <=? Z.of_nat f)%Z with true by (symmetry; apply Z.leb_le; lia).
    rewrite Nat2Z.id. rewrite (Irow f row Hrow).
    destruct (_nAdjacentFaces tm !! f) as [v|] eqn:E; [|lia].
    apply (Icount f v E).
  - rewrite Ha. apply recorder_ok_constructor. lia.
Qed.

End Constructor.

(** ** Invariants of the operations, and the stroke *)

Lemma for_each_inv {A S : Type} (P : S -> Prop) (body : A -> S -> result S) :
  (forall x a b, P a -> body x a = Ok b -> P b) ->
  forall (xs : list A) (s s' : S), P s -> for_each xs body s = Ok s' -> P s'.
Proof.
  intros Hstep. induction xs as [|x xs IH]; intros s s' Hs Hrun.
  - injection Hrun as <-. exact Hs.
  - apply for_each_cons in Hrun as (s1 & Hbody & Hrest).
    eapply IH; [|exact Hrest]. eapply Hstep; eassumption.
Qed.

Section Preservation.
Context `{Three}.

(** Well-formedness only looks at these parts of a texture manager. *)
Lemma well_formed_ext (tm tm' : TextureManager) :
  well_formed tm ->
  Geometry.faces (geometry tm') = Geometry.faces (geometry tm) ->
  length (_drawingTextureUvs tm') = length (_drawingTextureUvs tm) ->
  length (_viewingTextureUvs tm') = length (_viewingTextureUvs tm) ->
  length (_viewingMaterial tm') = length (_viewingMaterial tm) ->
  length (_isFloodFill tm') = length (_isFloodFill tm) ->
  _isFloodFillEmpty tm' = _isFloodFillEmpty tm ->
  _nAdjacentFaces tm' = _nAdjacentFaces tm ->
  _AdjacentFacesList tm' = _AdjacentFacesList tm ->
  recorder_ok (length (Geometry.faces (geometry tm))) (_affectedFaces tm') ->
  well_formed tm'.
Proof.
  intros [Hd Hv Hm Hb He Hc Hr Hn Hnc Hrec] Hf Hd' Hv' Hm' Hb' He' Hc' Hr' Hrec'.
  assert (Hnb : forall g, neighbours tm' g = neighbours tm g).
  { intros g. unfold neighbours, nAdjacent. rewrite Hc', Hr'. reflexivity. }
  split; rewrite ?Hf; try congruence.
  - intros g h. rewrite Hnb. apply Hn.
  - intros g row. unfold nAdjacent. rewrite Hc', Hr'. apply Hnc.
Qed.

Lemma prepareDrawingTexture_well_formed (tm tm' : TextureManager) :
  well_formed tm -> prepareDrawingTexture tm = Ok tm' -> well_formed tm'.
Proof.
  intros Hwf Hrun. unfold prepareDrawingTexture in Hrun.
  apply bind_Ok in Hrun as (drawn & _ & Hrun).
  apply bind_Ok in Hrun as (vertexUvs & _ & Hrun).
  apply bind_Ok in Hrun as (uvs & Huvs & Hrun). injection Hrun as <-.
  apply (well_formed_ext tm); simpl; try reflexivity; [exact Hwf | | apply Hwf].
  revert Huvs.
  apply (for_each_inv (fun l : list Uvs => length l = length (_drawingTextureUvs tm)));
    [|reflexivity].
  intros i a b Ha Hbody. unfold copy_face_uvs in Hbody.
  apply bind_Ok in Hbody as (face & _ & Hbody).
  apply bind_Ok in Hbody as (old & _ & Hbody).
  apply bind_Ok in Hbody as (uva & _ & Hbody).
  apply bind_Ok in Hbody as (uvb & _ & Hbody).
  apply bind_Ok in Hbody as (uvc & _ & Hbody).
  injection Hbody as <-. rewrite length_insert. exact Ha.
Qed.

Lemma repaint_face_lengths (tm : TextureManager) (patch : Image)
    (f : Vector2.t -> Vector2.t) (item : option Z)
    (st st' : list Image * list Uvs) :
  repaint_face tm patch f item st = Ok st' ->
  length (fst st') = length (fst st) /\ length (snd st') = length (snd st).
Proof.
  destruct st as [materials uvs]. unfold repaint_face. intros Hrun.
  apply bind_Ok in Hrun as (faceIndex & _ & Hrun).
  apply bind_Ok in Hrun as (faceMaterial & _ & Hrun).
  apply bind_Ok in Hrun as (drawingUvs & _ & Hrun).
  apply bind_Ok in Hrun as (viewingUvs & _ & Hrun).
  destruct drawingUvs as [[uv0 uv1] uv2]. injection Hrun as <-.
  simpl. rewrite !length_insert. tauto.
Qed.

Lemma prepareViewingTexture_well_formed (tm tm' : TextureManager) :
  well_formed tm -> prepareViewingTexture tm = Ok tm' -> well_formed tm'.
Proof.
  intros Hwf Hrun. unfold prepareViewingTexture in Hrun.
  destruct (0 <? _)%nat; [|injection Hrun as <-; exact Hwf].
  apply bind_Ok in Hrun as (bd & _ & Hrun).
  apply bind_Ok in Hrun as (painted & Hpainted & Hrun).
  apply bind_Ok in Hrun as (recorder & Hreset & Hrun). injection Hrun as <-.
  assert (Hl : length (fst painted) = length (_viewingMaterial tm)
               /\ length (snd painted) = length (_viewingTextureUvs tm)).
  { revert Hpainted.
    apply (for_each_inv
             (fun st : list Image * list Uvs =>
                length (fst st) = length (_viewingMaterial tm)
                /\ length (snd st) = length (_viewingTextureUvs tm)));
      [|simpl; tauto].
    intros item a b [Ha1 Ha2] Hbody. apply repaint_face_lengths in Hbody. lia. }
  destruct (recorder_ok_reset _ _ (wf_recorder _ Hwf)) as (r' & Hr' & Hok & _).
  rewrite Hr' in Hreset. injection Hreset as <-.
  apply (well_formed_ext tm); simpl; try reflexivity; try tauto.
Qed.

Lemma paint_well_formed (op : CanvasOp) (tm : TextureManager) :
  well_formed tm -> well_formed (paint op tm).
Proof.
  intros Hwf. apply (well_formed_ext tm); simpl; try reflexivity; [exact Hwf | apply Hwf].
Qed.

Lemma brush_call_Ok (op : CanvasOp) (tm tm' : TextureManager) :
  brush_call op tm = Ok tm' -> tm' = paint op tm.
Proof.
  unfold brush_call. destruct (brushThrows op (_drawingCanvas tm)); [discriminate|].
  intros [= <-]. reflexivity.
Qed.

Lemma brush_call_returns (op : CanvasOp) (tm : TextureManager) :
  brush_returns -> brush_call op tm = Ok (paint op tm).
Proof. intros Hb. unfold brush_call. rewrite Hb. reflexivity. Qed.

Lemma update_well_formed (camera' : Camera) (c c' : Controls) :
  well_formed (_textureManager c) -> update camera' c = Ok c' ->
  well_formed (_textureManager c').
Proof.
  intros Hwf Hrun. unfold update in Hrun.
  apply bind_Ok in Hrun as (drawn & _ & Hrun). injection Hrun as <-.
  apply (well_formed_ext (_textureManager c)); simpl; try reflexivity;
    [exact Hwf | apply Hwf].
Qed.

End Preservation.

Section AdjacencyClaim.
Context `{Three}.

(** C5 (amended): in a mesh of at most 256 faces, face [j] is in the
    neighbour list of face [i] exactly when the two faces are distinct,
    exactly 2 of the 9 pairs (corner of the lower-numbered face, corner of
    the higher-numbered face) are at the same position and the normals
    have a positive dot product; and the stored relation is symmetric. *)
Theorem adjacency_of_constructor (g : Geometry.t) (r : Renderer.t)
    (cam : Camera) (tm : TextureManager) (i j : nat) :
  constructor g r cam = Ok tm ->
  length (Geometry.faces g) <= 256 ->
  i < length (Geometry.faces g) ->
  j < length (Geometry.faces g) ->
  (Z.of_nat j ∈ neighbours tm i
   <-> i <> j /\ share_edge g (Nat.min i j) (Nat.max i j) = true)
  /\ (Z.of_nat j ∈ neighbours tm i -> Z.of_nat i ∈ neighbours tm j).
Proof.
  intros Hrun Hsmall Hi Hj.
  pose proof (constructor_inv g r cam tm Hrun Hsmall) as Hinv.
  destruct (constructor_fields g r cam tm Hrun) as (Hv & Hf & _).
  assert (Hshare : forall a b, share_edge (geometry tm) a b = share_edge g a b).
  { intros a b. rewrite <- (share_edge_index_materials g a b).
    unfold share_edge. rewrite Hv, Hf. reflexivity. }
  assert (Hchar : forall a b, a < length (Geometry.faces g) ->
            b < length (Geometry.faces g) ->
            (Z.of_nat b ∈ neighbours tm a
             <-> a <> b /\ share_edge g (Nat.min a b) (Nat.max a b) = true)).
  { intros a b Ha Hb. rewrite neighbours_recorded.
    rewrite (ai_members _ _ _ _ _ Hinv a _ Ha). split.
    - intros (h & Hz & Hh & Hne & _ & Hs).
      assert (h = b) by lia. subst h. rewrite Hshare in Hs. split; [lia | exact Hs].
    - intros [Hne Hs]. exists b. repeat split; [assumption | lia | |].
      + unfold processed. lia.
      + rewrite Hshare. exact Hs. }
  split; [apply Hchar; assumption|].
  intros Hin. apply Hchar in Hin as [Hne Hs]; [|assumption|assumption].
  apply Hchar; [assumption|assumption|].
  split; [lia|]. rewrite Nat.min_comm, Nat.max_comm. exact Hs.
Qed.

End AdjacencyClaim.

Section StrokeClaims.
Context `{Three}.
Implicit Types (tm : TextureManager) (c : Controls).

(** C4 (amended): no operation checks a face id against the number of
    faces. For an id outside the range, [contains] answers false, [add]
    counts the id as a new member (it increments the count and writes the
    id, modulo 2^32, at the end of the member array when there is room)
    while the membership flags stay as they are, and [_add_recursive]
    returns without any effect when the id is negative and otherwise
    throws the [TypeError] of a property read on [undefined]. *)
Theorem face_id_not_checked (tm : TextureManager) (faceIndex : Z) (fuel : nat)
    (center : Vector2.t) (radius : float) :
  well_formed tm ->
  ~ (0 <= faceIndex < Z.of_nat (length (Geometry.faces (geometry tm))))%Z ->
  AffectedFacesRecorder.contains faceIndex (_affectedFaces tm) = false
  /\ AffectedFacesRecorder.add faceIndex (_affectedFaces tm)
     = AffectedFacesRecorder.mk
         (S (AffectedFacesRecorder._nAffectedFaces (_affectedFaces tm)))
         (uint32_put (AffectedFacesRecorder._affectedFaces (_affectedFaces tm))
            (Z.of_nat (AffectedFacesRecorder._nAffectedFaces (_affectedFaces tm)))
            faceIndex)
         (AffectedFacesRecorder._isFaceAffected (_affectedFaces tm))
         (AffectedFacesRecorder._isFaceAffectedEmpty (_affectedFaces tm))
  /\ _add_recursive (S fuel) faceIndex center radius tm
     = if (faceIndex <? 0)%Z then Ok tm else Throw TypeError.
Proof.
  intros Hwf Hout.
  pose proof (rec_flags_length _ _ (wf_recorder _ Hwf)) as Hflags.
  assert (Hget : forall l : list Z,
            length l = length (Geometry.faces (geometry tm)) ->
            typed_get l faceIndex = None).
  { intros l Hl. destruct (typed_get l faceIndex) as [v|] eqn:E; [|reflexivity].
    apply typed_get_range in E. rewrite Hl in E. contradiction. }
  assert (Hput : forall (l : list Z) v,
            length l = length (Geometry.faces (geometry tm)) ->
            uint8_put l faceIndex v = l).
  { intros l v Hl. unfold uint8_put, typed_put.
    destruct (0 <=? faceIndex)%Z eqn:E; [|reflexivity].
    apply Z.leb_le in E. apply list_insert_ge. lia. }
  split; [|split].
  - unfold AffectedFacesRecorder.contains. rewrite Hget by exact Hflags. reflexivity.
  - unfold AffectedFacesRecorder.add. rewrite Hget by exact Hflags. simpl.
    rewrite Hput by exact Hflags. reflexivity.
  - rewrite add_recursive_S.
    destruct (faceIndex <? 0)%Z eqn:Eneg.
    + apply Z.ltb_lt in Eneg.
      replace (0 <=? faceIndex)%Z with false by (symmetry; apply Z.leb_gt; lia).
      reflexivity.
    + apply Z.ltb_ge in Eneg.
      replace (0 <=? faceIndex)%Z with true by (symmetry; apply Z.leb_le; lia).
      rewrite Hget by apply (wf_bitmap _ Hwf). simpl.
      rewrite lookup_ge_None_2; [reflexivity|].
      rewrite (wf_drawing _ Hwf). lia.
Qed.

(** *** The samples of a stroke *)

Lemma intersects_canvas_size (canvas canvas' : Canvas.t) (uvs : Uvs)
    (center : Vector2.t) (radius : float) :
  Canvas.width canvas' = Canvas.width canvas ->
  Canvas.height canvas' = Canvas.height canvas ->
  intersects canvas' uvs center radius = intersects canvas uvs center radius.
Proof.
  intros Hw Hh. destruct uvs as [[uv1 uv2] uv3].
  unfold intersects, to_pixels. rewrite Hw, Hh. reflexivity.
Qed.

Lemma hits_paint (op : CanvasOp) tm (center : Vector2.t) (radius : float) (f : Z) :
  hits (paint op tm) center radius f = hits tm center radius f.
Proof.
  unfold hits. cbn [paint _drawingTextureUvs _drawingCanvas].
  destruct (_drawingTextureUvs tm !! Z.to_nat f) as [uvs|]; [|reflexivity].
  rewrite (intersects_canvas_size (_drawingCanvas tm)); reflexivity.
Qed.

Lemma castRay_paint (op : CanvasOp) tm (pos : Vector2.t) :
  _castRayFromMouse pos (paint op tm) = _castRayFromMouse pos tm.
Proof. reflexivity. Qed.

Lemma mousemove_sample (pos : Vector2.t) c c' :
  well_formed (_textureManager c) ->
  _state c = Draw ->
  _mousemove pos c = Ok c' ->
  well_formed (_textureManager c')
  /\ _state c' = Draw
  /\ brush_radius c' = brush_radius c
  /\ (forall f, affected (_textureManager c) f = true ->
                affected (_textureManager c') f = true)
  /\ affected_list (_textureManager c) `prefix_of` affected_list (_textureManager c')
  /\ (_castRayFromMouse pos (_textureManager c) <> [] ->
      forall f, marked (_textureManager c') f = true ->
                hits (_textureManager c) pos (brush_radius c) f = true).
Proof.
  intros Hwf Hdraw Hrun. unfold _mousemove in Hrun. rewrite Hdraw in Hrun.
  apply bind_Ok in Hrun as (tm1 & Hbrush & Hrun). apply brush_call_Ok in Hbrush as ->.
  apply bind_Ok in Hrun as (tm2 & Hstroke & Hrun). injection Hrun as <-. simpl.
  set (tm1 := paint (ContinueStroke pos) (_textureManager c)) in *.
  assert (Hwf1 : well_formed tm1) by (apply paint_well_formed; exact Hwf).
  pose proof (onStrokePainted_sample _ _ _ _ Hwf1 Hstroke) as Hsample.
  split; [eapply onStrokePainted_well_formed; eassumption|].
  split; [reflexivity|]. split; [reflexivity|].
  unfold tm1 in Hsample at 1. rewrite castRay_paint in Hsample.
  destruct (_castRayFromMouse pos (_textureManager c)) as [|hit rest].
  - subst tm2. repeat split; try tauto. reflexivity.
  - destruct (well_formed_reset tm1 Hwf1) as (_ & _ & Hm0).
    repeat split.
    + intros f Hf. apply (fo_affected _ _ _ _ _ Hsample). exact Hf.
    + apply (fo_items _ _ _ _ _ Hsample).
    + intros _ f Hf.
      destruct (fo_connected _ _ _ _ _ Hsample (fun _ => True)) with (f := f)
        as (root & _ & Hc); [tauto | exact Hf | apply Hm0 |].
      apply connected_end in Hc as (Hh & _).
      rewrite sample_start_hits in Hh.
      unfold tm1 in Hh. rewrite hits_paint in Hh. exact Hh.
Qed.

Lemma mousemove_samples (positions : list Vector2.t) : forall c c',
  well_formed (_textureManager c) ->
  _state c = Draw ->
  for_each positions _mousemove c = Ok c' ->
  well_formed (_textureManager c')
  /\ _state c' = Draw
  /\ (forall f, affected (_textureManager c) f = true ->
                affected (_textureManager c') f = true)
  /\ affected_list (_textureManager c) `prefix_of` affected_list (_textureManager c').
Proof.
  induction positions as [|pos positions IH]; intros c c' Hwf Hdraw Hrun.
  - injection Hrun as <-.
    split; [exact Hwf|]. split; [exact Hdraw|]. split; [auto | reflexivity].
  - apply for_each_cons in Hrun as (c1 & Hstep & Hrest).
    destruct (mousemove_sample pos c c1 Hwf Hdraw Hstep)
      as (Hwf1 & Hdraw1 & _ & Ha & Hp & _).
    destruct (IH c1 c' Hwf1 Hdraw1 Hrest) as (Hwf' & Hdraw' & Ha' & Hp').
    split; [exact Hwf'|]. split; [exact Hdraw'|].
    split; [auto | etransitivity; eassumption].
Qed.

(** C2 (amended): over the samples of a stroke the affected-face set only
    grows: members stay members and keep their place in the order of
    insertion. The visited bitmap is not kept from one sample to the next:
    a sample whose ray hits the mesh resets it, so the faces marked after
    that sample are faces that passed the circle test of that sample. *)
Theorem stroke_samples (positions : list Vector2.t) (pos : Vector2.t)
    (c c1 c2 : Controls) :
  well_formed (_textureManager c) ->
  _state c = Draw ->
  for_each positions _mousemove c = Ok c1 ->
  _mousemove pos c1 = Ok c2 ->
  (forall f, affected (_textureManager c) f = true ->
             affected (_textureManager c2) f = true)
  /\ affected_list (_textureManager c) `prefix_of` affected_list (_textureManager c2)
  /\ (_castRayFromMouse pos (_textureManager c1) <> [] ->
      forall f, marked (_textureManager c2) f = true ->
                hits (_textureManager c1) pos (brush_radius c1) f = true).
Proof.
  intros Hwf Hdraw Hmoves Hlast.
  destruct (mousemove_samples positions c c1 Hwf Hdraw Hmoves)
    as (Hwf1 & Hdraw1 & Ha & Hp).
  destruct (mousemove_sample pos c1 c2 Hwf1 Hdraw1 Hlast)
    as (_ & _ & _ & Ha' & Hp' & Hm).
  repeat split; auto. etransitivity; eassumption.
Qed.

End StrokeClaims.

Section ControlsInvariant.
Context `{Three}.
Implicit Types (tm : TextureManager) (c : Controls).

Lemma applyViewingTexture_well_formed (mesh : Mesh) tm :
  well_formed tm -> well_formed (fst (applyViewingTexture mesh tm)).
Proof.
  intros Hwf. apply (well_formed_ext tm); simpl; try reflexivity; [exact Hwf | apply Hwf].
Qed.

Lemma applyDrawingTexture_well_formed (mesh : Mesh) tm :
  well_formed tm -> well_formed (fst (applyDrawingTexture mesh tm)).
Proof.
  intros Hwf. apply (well_formed_ext tm); simpl; try reflexivity; [exact Hwf | apply Hwf].
Qed.

Lemma useViewingTexture_well_formed c c' :
  well_formed (_textureManager c) -> _useViewingTexture c = Ok c' ->
  well_formed (_textureManager c').
Proof.
  intros Hwf Hrun. unfold _useViewingTexture in Hrun.
  destruct (_usingViewingTexture c); [injection Hrun as <-; exact Hwf|].
  apply bind_Ok in Hrun as (tm & Hprep & Hrun). injection Hrun as <-. simpl.
  apply (applyViewingTexture_well_formed (_mesh c)).
  eapply prepareViewingTexture_well_formed; eassumption.
Qed.

Lemma useDrawingTexture_well_formed c c' :
  well_formed (_textureManager c) -> _useDrawingTexture c = Ok c' ->
  well_formed (_textureManager c').
Proof.
  intros Hwf Hrun. unfold _useDrawingTexture in Hrun.
  destruct (negb (_usingViewingTexture c)); [injection Hrun as <-; exact Hwf|].
  apply bind_Ok in Hrun as (tm & Hprep & Hrun). injection Hrun as <-. simpl.
  apply (applyDrawingTexture_well_formed (_mesh c)).
  eapply prepareDrawingTexture_well_formed; eassumption.
Qed.

Lemma new_Controls_well_formed (g : Geometry.t) (r : Renderer.t) (cam : Camera)
    (radius : float) c :
  length (Geometry.faces g) <= 256 ->
  new_Controls g r cam radius = Ok c -> well_formed (_textureManager c).
Proof.
  intros Hsmall Hrun. unfold new_Controls in Hrun.
  apply bind_Ok in Hrun as (tm & Hc & Hrun).
  eapply update_well_formed; [|exact Hrun]. simpl.
  apply (applyViewingTexture_well_formed (mkMesh NoLayer)).
  eapply constructor_well_formed; eassumption.
Qed.

Lemma mousedown_well_formed (shiftKey : bool) (pos : Vector2.t)
    (newBrush : option float) c c' :
  well_formed (_textureManager c) -> _mousedown shiftKey pos newBrush c = Ok c' ->
  well_formed (_textureManager c').
Proof.
  intros Hwf Hrun. unfold _mousedown in Hrun.
  destruct (_state c); try (injection Hrun as <-; exact Hwf).
  destruct shiftKey.
  - eapply useViewingTexture_well_formed; [|exact Hrun]. exact Hwf.
  - apply bind_Ok in Hrun as (c1 & Hdraw & Hrun).
    apply bind_Ok in Hrun as (tm1 & Hbrush & Hrun). apply brush_call_Ok in Hbrush as ->.
    apply bind_Ok in Hrun as (tm2 & Hstroke & Hrun). injection Hrun as <-. simpl.
    eapply onStrokePainted_well_formed; [|exact Hstroke].
    apply paint_well_formed.
    eapply useDrawingTexture_well_formed; [|exact Hdraw]. exact Hwf.
Qed.

End ControlsInvariant.

Section EdgeTest.
Local Open Scope float_scope.

Lemma sub_nan (x : float) : x - nan = nan.
Proof.
  apply Prim2SF_inj. rewrite FloatAxioms.sub_spec.
  change (Prim2SF nan) with S754_nan.
  destruct (Prim2SF x) as [s|s| |s m e]; reflexivity.
Qed.

Lemma nan_not_le (y : float) : (nan <=? y) = false.
Proof. rewrite FloatAxioms.leb_spec. reflexivity. Qed.

Lemma pointCircleCollide_undefined (nearest : float * float) (circle : Vector2.t)
    (r : float) :
  _pointCircleCollide (nearest_as_point nearest) circle r = false.
Proof.
  unfold _pointCircleCollide, nearest_as_point. simpl.
  destruct (r =? 0); [reflexivity|].
  rewrite !sub_nan.
  change (nan * nan + nan * nan) with nan. apply nan_not_le.
Qed.

(** The edge test sees a circle only through the two end points of the
    edge: the third test, at the point of the edge nearest to the circle
    center, is made on an array, which has no [x] or [y], and always
    fails. *)
Theorem lineCircleCollide_end_points (a b circle : Vector2.t) (radius : float) :
  _lineCircleCollide a b circle radius
  = _pointCircleCollide a circle radius || _pointCircleCollide b circle radius.
Proof.
  unfold _lineCircleCollide.
  destruct (_pointCircleCollide a circle radius); [reflexivity|].
  destruct (_pointCircleCollide b circle radius); [reflexivity|].
  destruct (0 <? _); rewrite pointCircleCollide_undefined; reflexivity.
Qed.

(** A face passes the test of the flood-fill exactly when the stroke
    center passes the point-in-triangle test or a corner of the projected
    triangle lies within the radius of the center. *)
Theorem intersects_corners (canvas : Canvas.t) (uv1 uv2 uv3 center : Vector2.t)
    (radius : float) :
  intersects canvas (uv1, uv2, uv3) center radius
  = _pointInTriangle center (to_pixels canvas uv1) (to_pixels canvas uv2)
      (to_pixels canvas uv3)
    || _pointCircleCollide (to_pixels canvas uv1) center radius
    || _pointCircleCollide (to_pixels canvas uv2) center radius
    || _pointCircleCollide (to_pixels canvas uv3) center radius.
Proof.
  assert (Hedge : forall a b,
            _lineCircleCollide a b center radius
            = _pointCircleCollide a center radius || _pointCircleCollide b center radius).
  { intros a b. unfold _lineCircleCollide.
    destruct (_pointCircleCollide a center radius); [reflexivity|].
    destruct (_pointCircleCollide b center radius); [reflexivity|].
    destruct (0 <? _); rewrite pointCircleCollide_undefined; reflexivity. }
  unfold intersects. rewrite !Hedge.
  destruct (_pointInTriangle _ _ _ _), (_pointCircleCollide (to_pixels canvas uv1) _ _),
    (_pointCircleCollide (to_pixels canvas uv2) _ _),
    (_pointCircleCollide (to_pixels canvas uv3) _ _); reflexivity.
Qed.

End EdgeTest.

Section RecorderOrder.
Implicit Types (r : AffectedFacesRecorder.t) (f g : Z) (fs seen : list Z).

Lemma first_occurrences_ext fs : forall seen seen',
  (forall x, x ∈ seen <-> x ∈ seen') ->
  first_occurrences seen fs = first_occurrences seen' fs.
Proof.
  induction fs as [|f fs IH]; intros seen seen' Hext; [reflexivity|].
  simpl. rewrite (bool_decide_ext _ _ (Hext f)).
  destruct (bool_decide (f ∈ seen')); [apply IH; exact Hext|].
  f_equal. apply IH. intros x. rewrite !elem_of_cons, Hext. reflexivity.
Qed.

Lemma forEach_items_members (nFaces : nat) r :
  recorder_ok nFaces r ->
  AffectedFacesRecorder.forEach_items r = Some <$> members r.
Proof.
  intros Hok. unfold AffectedFacesRecorder.forEach_items, members.
  pose proof (rec_count _ _ Hok) as Hn. rewrite <- (rec_list_length _ _ Hok) in Hn.
  revert Hn. generalize (AffectedFacesRecorder._nAffectedFaces r) as n.
  generalize (AffectedFacesRecorder._affectedFaces r) as l. clear.
  intros l n. induction n as [|n IH]; intros Hn; [reflexivity|].
  destruct (lookup_lt_is_Some_2 l n) as [x Hx]; [lia|].
  rewrite seq_S, map_app, (take_S_r _ _ _ Hx), fmap_app, IH by lia.
  simpl. rewrite Hx. reflexivity.
Qed.

Lemma members_add (nFaces : nat) f r :
  recorder_ok nFaces r -> (0 <= f < Z.of_nat nFaces)%Z ->
  members (AffectedFacesRecorder.add f r)
  = if AffectedFacesRecorder.contains f r then members r else members r ++ [f].
Proof.
  intros Hok Hf. pose proof Hok as [Hl Hfl He Hs Hc Hn Hm].
  destruct (AffectedFacesRecorder.contains f r) eqn:Ec.
  { unfold AffectedFacesRecorder.add. unfold AffectedFacesRecorder.contains in Ec.
    apply negb_true_iff in Ec. rewrite Ec. reflexivity. }
  assert (Hnotin : f ∉ members r).
  { intros Hin. apply Hm in Hin as [_ Hin]. congruence. }
  assert (Hlt : AffectedFacesRecorder._nAffectedFaces r < nFaces).
  { assert (Hb : length (f :: members r) <= nFaces).
    { apply members_bound.
      - constructor; assumption.
      - intros g [->|Hg]%elem_of_cons; [exact Hf | apply Hm in Hg; tauto]. }
    simpl in Hb. unfold members in Hb. rewrite length_take in Hb. lia. }
  unfold members, AffectedFacesRecorder.add, AffectedFacesRecorder.contains in *.
  apply negb_false_iff in Ec. rewrite Ec. simpl.
  unfold uint32_put, typed_put.
  replace (0 <=? Z.of_nat (AffectedFacesRecorder._nAffectedFaces r))%Z with true
    by (symmetry; apply Z.leb_le; lia).
  rewrite Nat2Z.id, Z.mod_small by lia.
  erewrite take_S_r by (apply list_lookup_insert_eq; lia).
  rewrite take_insert_ge by lia. reflexivity.
Qed.

Lemma add_all_members (nFaces : nat) fs : forall r,
  recorder_ok nFaces r ->
  (forall f, f ∈ fs -> (0 <= f < Z.of_nat nFaces)%Z) ->
  recorder_ok nFaces (add_all fs r)
  /\ members (add_all fs r) = members r ++ first_occurrences (members r) fs.
Proof.
  induction fs as [|f fs IH]; intros r Hok Hfs.
  - simpl. rewrite app_nil_r. auto.
  - assert (Hf : (0 <= f < Z.of_nat nFaces)%Z) by (apply Hfs; left).
    assert (Hok' : recorder_ok nFaces (AffectedFacesRecorder.add f r))
      by (apply recorder_ok_add; assumption).
    destruct (IH (AffectedFacesRecorder.add f r) Hok') as [Hok'' Hmem].
    { intros g Hg. apply Hfs. right. exact Hg. }
    split; [exact Hok''|].
    change (add_all (f :: fs) r) with (add_all fs (AffectedFacesRecorder.add f r)).
    rewrite Hmem. cbn [first_occurrences].
    rewrite (members_add nFaces f r Hok Hf).
    pose proof (rec_members _ _ Hok f) as Hm. unfold members.
    destruct (AffectedFacesRecorder.contains f r) eqn:Ec.
    + rewrite bool_decide_eq_true_2 by (apply Hm; tauto). reflexivity.
    + rewrite bool_decide_eq_false_2 by (intros Hin; apply Hm in Hin as [_ ?]; congruence).
      rewrite <- app_assoc. simpl. do 2 f_equal.
      apply first_occurrences_ext. intros x.
      rewrite elem_of_app, !elem_of_cons, elem_of_nil. tauto.
Qed.

End RecorderOrder.

Section RecorderUse.
Implicit Types (r : AffectedFacesRecorder.t) (f g : Z) (fs seen : list Z).

Lemma first_occurrences_elem fs : forall seen x,
  x ∈ first_occurrences seen fs <-> x ∈ fs /\ x ∉ seen.
Proof.
  induction fs as [|f fs IH]; intros seen x; simpl.
  - rewrite elem_of_nil. tauto.
  - destruct (bool_decide_reflect (f ∈ seen)) as [Hin|Hout].
    + rewrite IH, elem_of_cons. split; [tauto|].
      intros [[->|Hx] Hs]; [contradiction | tauto].
    + rewrite !elem_of_cons, IH, elem_of_cons.
      destruct (decide (x = f)) as [->|Hne]; tauto.
Qed.

Lemma first_occurrences_NoDup fs : forall seen, NoDup (first_occurrences seen fs).
Proof.
  induction fs as [|f fs IH]; intros seen; simpl; [constructor|].
  destruct (bool_decide (f ∈ seen)); [apply IH|].
  constructor; [|apply IH].
  rewrite first_occurrences_elem, elem_of_cons. tauto.
Qed.

Lemma recorder_members_facts (nFaces : nat) r :
  recorder_ok nFaces r ->
  AffectedFacesRecorder.forEach_items r = Some <$> members r
  /\ AffectedFacesRecorder.length r = length (members r)
  /\ (forall f, AffectedFacesRecorder.contains f r = true <-> f ∈ members r).
Proof.
  intros Hok. split; [eapply forEach_items_members; exact Hok|]. split.
  - unfold members, AffectedFacesRecorder.length. rewrite length_take.
    pose proof (rec_count _ _ Hok). pose proof (rec_list_length _ _ Hok). lia.
  - intros f. rewrite (rec_members _ _ Hok f). split; [|tauto].
    intros Hc. split; [|exact Hc]. apply contains_range in Hc.
    rewrite (rec_flags_length _ _ Hok) in Hc. exact Hc.
Qed.

(** A recorder visits the faces added to it once each, in the order in
    which they were first added; its length is the number of distinct
    faces added, and [contains] recognises exactly the faces added. *)
Theorem recorder_insertion_order (nFaces : nat) (fs : list Z) :
  (Z.of_nat nFaces <= 4294967296)%Z ->
  (forall f, f ∈ fs -> (0 <= f < Z.of_nat nFaces)%Z) ->
  AffectedFacesRecorder.forEach_items
    (add_all fs (AffectedFacesRecorder.constructor nFaces))
  = Some <$> first_occurrences [] fs
  /\ AffectedFacesRecorder.length (add_all fs (AffectedFacesRecorder.constructor nFaces))
     = length (first_occurrences [] fs)
  /\ NoDup (first_occurrences [] fs)
  /\ (forall f,
        AffectedFacesRecorder.contains f
          (add_all fs (AffectedFacesRecorder.constructor nFaces)) = true
        <-> f ∈ fs).
Proof.
  intros Hsize Hfs.
  destruct (add_all_members nFaces fs (AffectedFacesRecorder.constructor nFaces))
    as [Hok Hmem]; [apply recorder_ok_constructor; exact Hsize | exact Hfs |].
  change (members (AffectedFacesRecorder.constructor nFaces)) with (@nil Z) in Hmem.
  simpl in Hmem.
  destruct (recorder_members_facts nFaces _ Hok) as (Hitems & Hlen & Hc).
  rewrite Hmem in Hitems, Hlen, Hc.
  split; [exact Hitems|]. split; [exact Hlen|].
  split; [apply first_occurrences_NoDup|].
  intros f. rewrite Hc, first_occurrences_elem, elem_of_nil. tauto.
Qed.

(** [reset] empties a recorder without replacing its arrays, and the
    recorder can be used again as if it were new. *)
Theorem recorder_reset_reuse (nFaces : nat) (fs gs : list Z) :
  (Z.of_nat nFaces <= 4294967296)%Z ->
  (forall f, f ∈ fs -> (0 <= f < Z.of_nat nFaces)%Z) ->
  (forall g, g ∈ gs -> (0 <= g < Z.of_nat nFaces)%Z) ->
  exists r',
    AffectedFacesRecorder.reset (add_all fs (AffectedFacesRecorder.constructor nFaces))
    = Ok r'
    /\ AffectedFacesRecorder.length r' = 0
    /\ AffectedFacesRecorder.forEach_items r' = []
    /\ (forall f, AffectedFacesRecorder.contains f r' = false)
    /\ AffectedFacesRecorder._affectedFaces r'
       = AffectedFacesRecorder._affectedFaces
           (add_all fs (AffectedFacesRecorder.constructor nFaces))
    /\ AffectedFacesRecorder.forEach_items (add_all gs r')
       = Some <$> first_occurrences [] gs
    /\ (forall g, AffectedFacesRecorder.contains g (add_all gs r') = true <-> g ∈ gs).
Proof.
  intros Hsize Hfs Hgs.
  destruct (add_all_members nFaces fs (AffectedFacesRecorder.constructor nFaces))
    as [Hok _]; [apply recorder_ok_constructor; exact Hsize | exact Hfs |].
  destruct (recorder_ok_reset nFaces _ Hok) as (r' & Hreset & Hok' & Hn).
  exists r'. split; [exact Hreset|].
  assert (Hm0 : members r' = []) by (unfold members; rewrite Hn; apply take_0).
  destruct (recorder_members_facts nFaces _ Hok') as (Hitems & Hlen & Hc).
  rewrite Hm0 in Hitems, Hlen, Hc.
  split; [exact Hlen|]. split; [exact Hitems|]. split.
  { intros f. destruct (AffectedFacesRecorder.contains f r') eqn:E; [|reflexivity].
    apply Hc in E. inversion E. }
  split.
  { unfold AffectedFacesRecorder.reset in Hreset.
    apply bind_Ok in Hreset as (flags & _ & Hreset). injection Hreset as <-.
    reflexivity. }
  destruct (add_all_members nFaces gs r' Hok' Hgs) as [Hok'' Hmem].
  rewrite Hm0 in Hmem. simpl in Hmem.
  destruct (recorder_members_facts nFaces _ Hok'') as (Hitems' & _ & Hc').
  rewrite Hmem in Hitems', Hc'. split; [exact Hitems'|].
  intros g. rewrite Hc', first_occurrences_elem, elem_of_nil. tauto.
Qed.

End RecorderUse.

Section Reconcile.
Context `{Three}.
Implicit Types (tm : TextureManager) (f i : Z).

Lemma for_each_total {A S : Type} (P : S -> Prop) (body : A -> S -> result S) :
  forall (xs : list A) (s : S),
  P s ->
  (forall x a, x ∈ xs -> P a -> exists b, body x a = Ok b /\ P b) ->
  exists s', for_each xs body s = Ok s' /\ P s'.
Proof.
  induction xs as [|x xs IH]; intros s Hs Hstep.
  - exists s. split; [reflexivity | exact Hs].
  - destruct (Hstep x s) as (s1 & Hb & Hs1); [rewrite elem_of_cons; auto | exact Hs |].
    destruct (IH s1 Hs1) as (s' & Hrun & Hs').
    { intros y a Hy. apply Hstep. rewrite elem_of_cons. auto. }
    exists s'. split; [|exact Hs']. simpl. rewrite Hb. exact Hrun.
Qed.

Lemma element_Some {A} (l : list A) i (a : A) :
  element l i = Some a <-> (0 <= i)%Z /\ l !! Z.to_nat i = Some a.
Proof.
  unfold element. destruct (Z.leb_spec 0 i); split; try tauto; try discriminate.
  intros [? _]. lia.
Qed.

Lemma element_insert {A} (l : list A) i (a : A) :
  is_Some (element l i) -> element (<[Z.to_nat i := a]> l) i = Some a.
Proof.
  intros [b Hb]. apply element_Some in Hb as [Hi Hb]. apply element_Some.
  split; [exact Hi|]. apply list_lookup_insert_eq. eapply lookup_lt_Some, Hb.
Qed.

Lemma element_insert_ne {A} (l : list A) i f (a : A) :
  (0 <= i)%Z -> i <> f -> element (<[Z.to_nat i := a]> l) f = element l f.
Proof.
  intros Hi Hne. unfold element. destruct (Z.leb_spec 0 f); [|reflexivity].
  apply list_lookup_insert_ne. lia.
Qed.

Lemma element_in_range {A} (l : list A) i :
  (0 <= i < Z.of_nat (length l))%Z -> is_Some (element l i).
Proof.
  intros Hi. unfold element. destruct (Z.leb_spec 0 i); [|lia].
  apply lookup_lt_is_Some_2. lia.
Qed.

Lemma repaint_face_spec tm patch rf i (st st' : list Image * list Uvs) :
  repaint_face tm patch rf (Some i) st = Ok st' ->
  exists uv0 uv1 uv2,
    is_Some (element (fst st) i) /\ is_Some (element (snd st) i)
    /\ element (_drawingTextureUvs tm) i = Some (uv0, uv1, uv2)
    /\ st' = (<[Z.to_nat i := patch]> (fst st),
              <[Z.to_nat i := (rf uv0, rf uv1, rf uv2)]> (snd st)).
Proof.
  destruct st as [materials uvs]. unfold repaint_face. simpl. intros Hrun.
  apply bind_Ok in Hrun as (faceMaterial & Hm & Hrun). apply defined_Ok in Hm.
  apply bind_Ok in Hrun as (drawingUvs & Hd & Hrun). apply defined_Ok in Hd.
  apply bind_Ok in Hrun as (viewingUvs & Hv & Hrun). apply defined_Ok in Hv.
  destruct drawingUvs as [[uv0 uv1] uv2]. injection Hrun as <-.
  exists uv0, uv1, uv2. rewrite Hm, Hv. eauto.
Qed.

Lemma repaint_all tm patch rf : forall (items : list Z) (st st' : list Image * list Uvs),
  for_each (Some <$> items) (repaint_face tm patch rf) st = Ok st' ->
  (forall f, f ∉ items ->
     element (fst st') f = element (fst st) f
     /\ element (snd st') f = element (snd st) f)
  /\ (forall f, f ∈ items ->
        element (fst st') f = Some patch
        /\ exists uv0 uv1 uv2,
             element (_drawingTextureUvs tm) f = Some (uv0, uv1, uv2)
             /\ element (snd st') f = Some (rf uv0, rf uv1, rf uv2)).
Proof.
  induction items as [|i items IH]; intros st st' Hrun.
  - injection Hrun as <-. split; [tauto|]. intros f Hf. inversion Hf.
  - rewrite fmap_cons in Hrun. apply for_each_cons in Hrun as (s1 & Hbody & Hrest).
    apply repaint_face_spec in Hbody as (uv0 & uv1 & uv2 & Hm & Hv & Hd & ->).
    destruct (IH _ _ Hrest) as [IH1 IH2]. simpl in IH1.
    assert (Hi : (0 <= i)%Z) by (apply element_Some in Hd; tauto).
    split.
    + intros f Hf. rewrite elem_of_cons in Hf.
      destruct (IH1 f) as [E1 E2]; [tauto|].
      rewrite E1, E2. rewrite !element_insert_ne by (auto; intros ->; tauto). tauto.
    + intros f Hf. destruct (decide (f ∈ items)) as [Hin|Hout]; [apply IH2, Hin|].
      rewrite elem_of_cons in Hf. destruct Hf as [->|Hf]; [|contradiction].
      destruct (IH1 i Hout) as [E1 E2]. rewrite E1, E2.
      rewrite !element_insert by assumption. eauto 10.
Qed.

Lemma affected_members tm f :
  well_formed tm ->
  (affected tm f = true <-> f ∈ members (_affectedFaces tm)).
Proof.
  intros Hwf. unfold affected.
  apply (recorder_members_facts _ _ (wf_recorder _ Hwf)).
Qed.

Lemma affected_list_members tm :
  well_formed tm -> affected_list tm = Some <$> members (_affectedFaces tm).
Proof.
  intros Hwf. unfold affected_list.
  apply (recorder_members_facts _ _ (wf_recorder _ Hwf)).
Qed.

Lemma members_in_range tm f :
  well_formed tm -> f ∈ members (_affectedFaces tm) ->
  (0 <= f < Z.of_nat (length (Geometry.faces (geometry tm))))%Z.
Proof.
  intros Hwf Hf. apply (rec_members _ _ (wf_recorder _ Hwf)) in Hf. tauto.
Qed.

Lemma no_members_not_affected tm :
  well_formed tm ->
  AffectedFacesRecorder.length (_affectedFaces tm) = 0 ->
  affected_list tm = [] /\ forall f, affected tm f = false.
Proof.
  intros Hwf Hn.
  assert (Hm : members (_affectedFaces tm) = []).
  { unfold members. unfold AffectedFacesRecorder.length in Hn. rewrite Hn. apply take_0. }
  split; [rewrite affected_list_members, Hm by exact Hwf; reflexivity|].
  intros f. destruct (affected tm f) eqn:E; [|reflexivity].
  apply affected_members in E; [|exact Hwf]. rewrite Hm in E. inversion E.
Qed.

Lemma patch_bounds_total tm : well_formed tm -> exists bd, patch_bounds tm = Ok bd.
Proof.
  intros Hwf. unfold patch_bounds. rewrite affected_list_members by exact Hwf.
  destruct (for_each_total (fun _ => True) (grow_bounds tm)
              (Some <$> members (_affectedFaces tm))
              (mkBounds neg_infinity infinity neg_infinity infinity) I)
    as (bd & Hbd & _); [|eauto].
  intros item bd Hitem _. apply list_elem_of_fmap in Hitem as (f & -> & Hf).
  apply members_in_range in Hf; [|exact Hwf].
  destruct (element_in_range (_drawingTextureUvs tm) f) as [[[uv0 uv1] uv2] Huv].
  { rewrite (wf_drawing _ Hwf). exact Hf. }
  unfold grow_bounds. simpl. rewrite Huv. simpl. eauto.
Qed.

Lemma repaint_total tm patch rf : well_formed tm ->
  exists painted,
    for_each (affected_list tm) (repaint_face tm patch rf)
      (_viewingMaterial tm, _viewingTextureUvs tm) = Ok painted.
Proof.
  intros Hwf. rewrite affected_list_members by exact Hwf.
  destruct (for_each_total
              (fun st : list Image * list Uvs =>
                 length (fst st) = length (_viewingMaterial tm)
                 /\ length (snd st) = length (_viewingTextureUvs tm))
              (repaint_face tm patch rf)
              (Some <$> members (_affectedFaces tm))
              (_viewingMaterial tm, _viewingTextureUvs tm))
    as (painted & Hp & _); [simpl; tauto | | eauto].
  intros item [materials uvs] Hitem [Hl1 Hl2]. simpl in Hl1, Hl2.
  apply list_elem_of_fmap in Hitem as (f & -> & Hf).
  apply members_in_range in Hf; [|exact Hwf].
  destruct (element_in_range (_drawingTextureUvs tm) f) as [[[uv0 uv1] uv2] Huv].
  { rewrite (wf_drawing _ Hwf). exact Hf. }
  destruct (element_in_range materials f) as [m Hm].
  { rewrite Hl1, (wf_material _ Hwf). exact Hf. }
  destruct (element_in_range uvs f) as [v Hv].
  { rewrite Hl2, (wf_viewing _ Hwf). exact Hf. }
  unfold repaint_face. simpl. rewrite Hm. simpl. rewrite Huv. simpl. rewrite Hv. simpl.
  eexists. split; [reflexivity|]. simpl. rewrite !length_insert. tauto.
Qed.

Lemma prepareViewingTexture_total tm :
  well_formed tm -> exists tm', prepareViewingTexture tm = Ok tm'.
Proof.
  intros Hwf. unfold prepareViewingTexture.
  destruct (0 <? _)%nat; [|eauto].
  destruct (patch_bounds_total tm Hwf) as (bd & Hbd).
  unfold patch_bounds, affected_list in Hbd. rewrite Hbd. cbn [Js.bind]. cbv zeta.
  match goal with
  | |- context [for_each _ (repaint_face tm ?p ?r) _] =>
      destruct (repaint_total tm p r Hwf) as (painted & Hp)
  end.
  unfold affected_list in Hp. rewrite Hp. cbn [Js.bind].
  destruct (recorder_ok_reset _ _ (wf_recorder _ Hwf)) as (r' & Hr' & _).
  rewrite Hr'. cbn [Js.bind]. eauto.
Qed.

(** What a run of [prepareViewingTexture] over a non-empty recorder is
    made of. *)
Lemma prepareViewingTexture_unfold tm tm' :
  prepareViewingTexture tm = Ok tm' ->
  0 < AffectedFacesRecorder.length (_affectedFaces tm) ->
  exists bd painted recorder,
    patch_bounds tm = Ok bd
    /\ let W := Canvas.width (_drawingCanvas tm) in
       let Ht := Canvas.height (_drawingCanvas tm) in
       let xMax := (uMax bd * W)%float in
       let xMin := (uMin bd * W)%float in
       let yMax := ((1 - vMin bd) * Ht)%float in
       let yMin := ((1 - vMax bd) * Ht)%float in
       let w := Canvas.dimension 300 (xMax - xMin) in
       let h := Canvas.dimension 150 (yMax - yMin) in
       let canvas' := Canvas.mk W Ht
                        (Canvas.ops (_drawingCanvas tm) ++ [RectClip xMin yMin xMax yMax]) in
       for_each (affected_list tm)
         (repaint_face tm (PatchCanvas w h canvas' xMin yMin w h)
            (remap (_drawingCanvas tm) bd w h))
         (_viewingMaterial tm, _viewingTextureUvs tm) = Ok painted
       /\ AffectedFacesRecorder.reset (_affectedFaces tm) = Ok recorder
       /\ tm' = mkTextureManager (geometry tm) (renderer tm) (camera tm)
                  (snd painted) (fst painted) (_drawingTextureUvs tm) canvas'
                  (_drawingMaterial tm) (_drawingVertexUvs tm) recorder
                  (_isFloodFillEmpty tm) (_isFloodFill tm) (_nAdjacentFaces tm)
                  (_AdjacentFacesList tm).
Proof.
  intros Hrun Hn. unfold prepareViewingTexture in Hrun.
  apply Nat.ltb_lt in Hn. rewrite Hn in Hrun.
  apply bind_Ok in Hrun as (bd & Hbd & Hrun).
  apply bind_Ok in Hrun as (painted & Hpainted & Hrun).
  apply bind_Ok in Hrun as (recorder & Hreset & Hrun). injection Hrun as <-.
  exists bd, painted, recorder. split; [exact Hbd|].
  cbv zeta. split; [exact Hpainted|]. split; [exact Hreset | reflexivity].
Qed.

Lemma prepareViewingTexture_resets tm tm' :
  prepareViewingTexture tm = Ok tm' ->
  AffectedFacesRecorder.length (_affectedFaces tm') = 0.
Proof.
  intros Hrun.
  destruct (Nat.eq_0_gt_0_cases (AffectedFacesRecorder.length (_affectedFaces tm)))
    as [H0|Hpos].
  - unfold prepareViewingTexture in Hrun.
    replace (0 <? _)%nat with false in Hrun by (symmetry; apply Nat.ltb_ge; lia).
    injection Hrun as <-. exact H0.
  - destruct (prepareViewingTexture_unfold tm tm' Hrun Hpos)
      as (bd & painted & recorder & _ & _ & Hreset & ->).
    simpl. unfold AffectedFacesRecorder.reset in Hreset.
    apply bind_Ok in Hreset as (flags & _ & Hreset). injection Hreset as <-.
    reflexivity.
Qed.

(** [prepareViewingTexture] returns on a texture manager whose arrays
    have one entry per face, and leaves the set of affected faces empty. *)
Theorem prepareViewingTexture_flush tm :
  well_formed tm ->
  exists tm', prepareViewingTexture tm = Ok tm'
    /\ well_formed tm'
    /\ AffectedFacesRecorder.length (_affectedFaces tm') = 0
    /\ affected_list tm' = []
    /\ (forall f, affected tm' f = false).
Proof.
  intros Hwf. destruct (prepareViewingTexture_total tm Hwf) as (tm' & Hrun).
  exists tm'. split; [exact Hrun|].
  assert (Hwf' : well_formed tm') by (eapply prepareViewingTexture_well_formed; eassumption).
  split; [exact Hwf'|].
  pose proof (prepareViewingTexture_resets tm tm' Hrun) as Hn.
  split; [exact Hn|]. apply no_members_not_affected; assumption.
Qed.

(** [prepareViewingTexture] gives every affected face one and the same
    patch canvas, cut out of the drawing canvas (clipped to a rectangle
    whose width and height are the right and bottom edges of the bounds)
    at the top left corner of the bounds, and the drawing UVs of the face
    in the coordinates of the patch. *)
Theorem prepareViewingTexture_patch tm tm' :
  well_formed tm ->
  prepareViewingTexture tm = Ok tm' ->
  0 < AffectedFacesRecorder.length (_affectedFaces tm) ->
  exists bd,
    patch_bounds tm = Ok bd
    /\ let W := Canvas.width (_drawingCanvas tm) in
       let Ht := Canvas.height (_drawingCanvas tm) in
       let xMax := (uMax bd * W)%float in
       let xMin := (uMin bd * W)%float in
       let yMax := ((1 - vMin bd) * Ht)%float in
       let yMin := ((1 - vMax bd) * Ht)%float in
       let w := Canvas.dimension 300 (xMax - xMin) in
       let h := Canvas.dimension 150 (yMax - yMin) in
       _drawingCanvas tm'
       = Canvas.mk W Ht (Canvas.ops (_drawingCanvas tm) ++ [RectClip xMin yMin xMax yMax])
       /\ forall f, affected tm f = true ->
            element (_viewingMaterial tm') f
            = Some (PatchCanvas w h (_drawingCanvas tm') xMin yMin w h)
            /\ exists uv0 uv1 uv2,
                 element (_drawingTextureUvs tm) f = Some (uv0, uv1, uv2)
                 /\ element (_viewingTextureUvs tm') f
                    = Some (remap (_drawingCanvas tm) bd w h uv0,
                            remap (_drawingCanvas tm) bd w h uv1,
                            remap (_drawingCanvas tm) bd w h uv2).
Proof.
  intros Hwf Hrun Hpos.
  destruct (prepareViewingTexture_unfold tm tm' Hrun Hpos)
    as (bd & painted & recorder & Hbd & Hpainted & _ & ->).
  exists bd. split; [exact Hbd|]. cbv zeta. simpl. split; [reflexivity|].
  rewrite affected_list_members in Hpainted by exact Hwf.
  apply repaint_all in Hpainted as [_ Hin].
  intros f Hf. apply affected_members in Hf; [|exact Hwf]. apply Hin, Hf.
Qed.

(** [prepareViewingTexture] changes the viewing material and the viewing
    UVs of the affected faces only, and nothing of the geometry, the
    drawing UVs, the flood-fill bitmap or the adjacency. *)
Theorem prepareViewingTexture_frame tm tm' :
  well_formed tm ->
  prepareViewingTexture tm = Ok tm' ->
  geometry tm' = geometry tm
  /\ renderer tm' = renderer tm
  /\ _drawingTextureUvs tm' = _drawingTextureUvs tm
  /\ _drawingVertexUvs tm' = _drawingVertexUvs tm
  /\ _isFloodFill tm' = _isFloodFill tm
  /\ _nAdjacentFaces tm' = _nAdjacentFaces tm
  /\ _AdjacentFacesList tm' = _AdjacentFacesList tm
  /\ (forall f, affected tm f = false ->
        element (_viewingMaterial tm') f = element (_viewingMaterial tm) f
        /\ element (_viewingTextureUvs tm') f = element (_viewingTextureUvs tm) f).
Proof.
  intros Hwf Hrun.
  destruct (Nat.eq_0_gt_0_cases (AffectedFacesRecorder.length (_affectedFaces tm)))
    as [H0|Hpos].
  - unfold prepareViewingTexture in Hrun.
    replace (0 <? _)%nat with false in Hrun by (symmetry; apply Nat.ltb_ge; lia).
    injection Hrun as <-. repeat split; reflexivity.
  - destruct (prepareViewingTexture_unfold tm tm' Hrun Hpos)
      as (bd & painted & recorder & _ & Hpainted & _ & ->).
    cbv zeta in Hpainted. simpl. repeat (split; [reflexivity|]).
    rewrite affected_list_members in Hpainted by exact Hwf.
    apply repaint_all in Hpainted as [Hout _].
    intros f Hf. apply Hout. intros Hin.
    apply affected_members in Hin; [|exact Hwf]. congruence.
Qed.

End Reconcile.

Section Projection.
Context `{Three}.
Implicit Types (tm : TextureManager).

Lemma for_each_seq_total {S : Type} (P : nat -> S -> Prop) (body : nat -> S -> result S) :
  forall (len start : nat) (s : S),
  P start s ->
  (forall k a, start <= k < start + len -> P k a ->
     exists b, body k a = Ok b /\ P (Datatypes.S k) b) ->
  exists s', for_each (seq start len) body s = Ok s' /\ P (start + len) s'.
Proof.
  induction len as [|len IH]; intros start s Hs Hstep.
  - exists s. rewrite Nat.add_0_r. split; [reflexivity | exact Hs].
  - destruct (Hstep start s) as (s1 & Hb & Hs1); [lia | exact Hs |].
    destruct (IH (Datatypes.S start) s1 Hs1) as (s' & Hrun & Hs').
    { intros k a Hk. apply Hstep. lia. }
    exists s'. replace (start + Datatypes.S len) with (Datatypes.S start + len) by lia.
    split; [|exact Hs']. simpl. rewrite Hb. exact Hrun.
Qed.

Lemma project_vertices tm :
  drawable tm ->
  exists vertexUvs,
    for_each (seq 0 (length (Geometry.vertices (geometry tm))))
      (project_vertex tm) (_drawingVertexUvs tm) = Ok vertexUvs
    /\ vertexUvs = projected_uv tm <$> Geometry.vertices (geometry tm).
Proof.
  intros Hd.
  destruct (for_each_seq_total
              (fun k (l : list Vector2.t) =>
                 length l = length (Geometry.vertices (geometry tm))
                 /\ forall i v, i < k -> Geometry.vertices (geometry tm) !! i = Some v ->
                      l !! i = Some (projected_uv tm v))
              (project_vertex tm)
              (length (Geometry.vertices (geometry tm))) 0 (_drawingVertexUvs tm))
    as (l & Hrun & Hlen & Hl).
  { split; [apply Hd | intros; lia]. }
  { intros k a Hk [Hlen Ha].
    destruct (lookup_lt_is_Some_2 (Geometry.vertices (geometry tm)) k) as [v Hv]; [lia|].
    destruct (lookup_lt_is_Some_2 a k) as [uv Huv]; [lia|].
    unfold project_vertex. rewrite Hv, Huv. simpl. eexists. split; [reflexivity|].
    split; [rewrite length_insert; exact Hlen|].
    intros i v' Hi Hv'. destruct (decide (i = k)) as [->|Hne].
    - rewrite list_lookup_insert_eq by lia. rewrite Hv in Hv'. injection Hv' as <-.
      reflexivity.
    - rewrite list_lookup_insert_ne by auto. apply Ha; [lia | exact Hv']. }
  exists l. split; [exact Hrun|]. apply list_eq. intros i.
  rewrite list_lookup_fmap.
  destruct (Geometry.vertices (geometry tm) !! i) as [v|] eqn:Hv; simpl.
  - apply Hl; [|exact Hv]. apply lookup_lt_Some in Hv. lia.
  - apply lookup_ge_None. apply lookup_ge_None in Hv. lia.
Qed.

Lemma copy_faces tm (vertexUvs : list Vector2.t) :
  well_formed tm ->
  corners_exist (geometry tm) ->
  length vertexUvs = length (Geometry.vertices (geometry tm)) ->
  exists uvs,
    for_each (seq 0 (length (Geometry.faces (geometry tm))))
      (copy_face_uvs tm vertexUvs) (_drawingTextureUvs tm) = Ok uvs
    /\ length uvs = length (Geometry.faces (geometry tm))
    /\ forall i face, Geometry.faces (geometry tm) !! i = Some face ->
         exists uva uvb uvc,
           vertexUvs !! Face3.a face = Some uva
           /\ vertexUvs !! Face3.b face = Some uvb
           /\ vertexUvs !! Face3.c face = Some uvc
           /\ uvs !! i = Some (uva, uvb, uvc).
Proof.
  intros Hwf Hc Hlen.
  destruct (for_each_seq_total
              (fun k (l : list Uvs) =>
                 length l = length (Geometry.faces (geometry tm))
                 /\ forall i face, i < k -> Geometry.faces (geometry tm) !! i = Some face ->
                      exists uva uvb uvc,
                        vertexUvs !! Face3.a face = Some uva
                        /\ vertexUvs !! Face3.b face = Some uvb
                        /\ vertexUvs !! Face3.c face = Some uvc
                        /\ l !! i = Some (uva, uvb, uvc))
              (copy_face_uvs tm vertexUvs)
              (length (Geometry.faces (geometry tm))) 0 (_drawingTextureUvs tm))
    as (l & Hrun & Hl & Hfaces).
  { split; [apply Hwf | intros; lia]. }
  { intros k a Hk [Hla Ha].
    destruct (lookup_lt_is_Some_2 (Geometry.faces (geometry tm)) k) as [face Hface]; [lia|].
    destruct (lookup_lt_is_Some_2 a k) as [old Hold]; [lia|].
    destruct (Hc face) as (Hca & Hcb & Hcc); [eapply list_elem_of_lookup_2, Hface|].
    destruct (lookup_lt_is_Some_2 vertexUvs (Face3.a face)) as [uva Hua]; [lia|].
    destruct (lookup_lt_is_Some_2 vertexUvs (Face3.b face)) as [uvb Hub]; [lia|].
    destruct (lookup_lt_is_Some_2 vertexUvs (Face3.c face)) as [uvc Huc]; [lia|].
    unfold copy_face_uvs. rewrite Hface, Hold. simpl. rewrite Hua, Hub, Huc. simpl.
    eexists. split; [reflexivity|]. split; [rewrite length_insert; exact Hla|].
    intros i face' Hi Hface'. destruct (decide (i = k)) as [->|Hne].
    - rewrite Hface in Hface'. injection Hface' as <-.
      exists uva, uvb, uvc. rewrite list_lookup_insert_eq by (unfold Uvs in *; lia). auto.
    - rewrite list_lookup_insert_ne by auto. apply Ha; [lia | exact Hface']. }
  exists l. split; [exact Hrun|]. split; [exact Hl|].
  intros i face Hface. apply Hfaces; [|exact Hface].
  apply lookup_lt_Some in Hface. lia.
Qed.

Lemma drawImage_visible (r : Renderer.t) :
  Renderer.visible r = true ->
  Renderer.drawImage r = Ok (DrawRendererOutput (Renderer.renderCalls r)).
Proof. intros Hv. unfold Renderer.drawImage. rewrite Hv. reflexivity. Qed.

Lemma drawImage_Ok (r : Renderer.t) (op : CanvasOp) :
  Renderer.drawImage r = Ok op ->
  Renderer.visible r = true /\ op = DrawRendererOutput (Renderer.renderCalls r).
Proof.
  unfold Renderer.drawImage. destruct (Renderer.visible r); [|discriminate].
  intros [= <-]. auto.
Qed.

Lemma prepareDrawingTexture_total tm :
  well_formed tm -> drawable tm -> Renderer.visible (renderer tm) = true ->
  exists tm', prepareDrawingTexture tm = Ok tm'.
Proof.
  intros Hwf Hd Hvis.
  destruct (project_vertices tm Hd) as (vertexUvs & Hv & Hvs).
  destruct (copy_faces tm vertexUvs Hwf (dr_corners _ Hd)) as (uvs & Hu & _).
  { rewrite Hvs. apply length_fmap. }
  unfold prepareDrawingTexture.
  rewrite (drawImage_visible (Renderer.render (renderer tm)) Hvis). cbn [Js.bind].
  rewrite Hv. cbn [Js.bind]. rewrite Hu. cbn [Js.bind].
  eauto.
Qed.

(** [prepareDrawingTexture] on a mesh whose faces have their corners
    among the vertices. When the renderer's canvas has pixels it returns:
    it renders once, replaces what was on the drawing canvas by the
    renderer's output at the renderer's size, asks for the upload of the
    drawing texture, gives every vertex the UV of its projection and
    every face, corner by corner, the UVs of its three vertices; the
    viewing texture and the affected faces stay as they are. When the
    renderer's canvas has width or height zero, drawing it is an
    [InvalidStateError]. *)
Theorem prepareDrawingTexture_projects tm :
  well_formed tm -> drawable tm ->
  if Renderer.visible (renderer tm) then
    exists tm',
      prepareDrawingTexture tm = Ok tm'
      /\ renderer tm' = Renderer.render (renderer tm)
      /\ _drawingCanvas tm'
         = Canvas.mk (Canvas.dimension 300 (Renderer.domElement_width (renderer tm)))
                     (Canvas.dimension 150 (Renderer.domElement_height (renderer tm)))
                     [DrawRendererOutput (S (Renderer.renderCalls (renderer tm)))]
      /\ _drawingMaterial tm' = Texture.set_needsUpdate (_drawingMaterial tm)
      /\ _drawingVertexUvs tm' = projected_uv tm <$> Geometry.vertices (geometry tm)
      /\ length (_drawingTextureUvs tm') = length (Geometry.faces (geometry tm))
      /\ (forall i face, Geometry.faces (geometry tm) !! i = Some face ->
            exists va vb vc,
              Geometry.vertices (geometry tm) !! Face3.a face = Some va
              /\ Geometry.vertices (geometry tm) !! Face3.b face = Some vb
              /\ Geometry.vertices (geometry tm) !! Face3.c face = Some vc
              /\ _drawingTextureUvs tm' !! i
                 = Some (projected_uv tm va, projected_uv tm vb, projected_uv tm vc))
      /\ geometry tm' = geometry tm
      /\ camera tm' = camera tm
      /\ _viewingMaterial tm' = _viewingMaterial tm
      /\ _viewingTextureUvs tm' = _viewingTextureUvs tm
      /\ _affectedFaces tm' = _affectedFaces tm
      /\ _isFloodFill tm' = _isFloodFill tm
  else prepareDrawingTexture tm = Throw InvalidStateError.
Proof.
  intros Hwf Hd. destruct (Renderer.visible (renderer tm)) eqn:Hvis.
  2:{ unfold prepareDrawingTexture, Renderer.drawImage.
      change (Renderer.visible (Renderer.render (renderer tm)))
        with (Renderer.visible (renderer tm)).
      rewrite Hvis. reflexivity. }
  destruct (project_vertices tm Hd) as (vertexUvs & Hv & Hvs).
  destruct (copy_faces tm vertexUvs Hwf (dr_corners _ Hd)) as (uvs & Hu & Hlen & Hfaces).
  { rewrite Hvs. apply length_fmap. }
  eexists. split.
  { unfold prepareDrawingTexture.
    rewrite (drawImage_visible (Renderer.render (renderer tm)) Hvis). cbn [Js.bind].
    rewrite Hv. cbn [Js.bind]. rewrite Hu. cbn [Js.bind].
    reflexivity. }
  simpl. repeat (split; [first [reflexivity | assumption]|]).
  split; [|repeat split; reflexivity].
  intros i face Hface. destruct (Hfaces i face Hface) as (uva & uvb & uvc & Ha & Hb & Hc & Hi).
  rewrite Hvs in Ha, Hb, Hc. rewrite list_lookup_fmap in Ha, Hb, Hc.
  destruct (Geometry.vertices (geometry tm) !! Face3.a face) as [va|]; [|discriminate].
  destruct (Geometry.vertices (geometry tm) !! Face3.b face) as [vb|]; [|discriminate].
  destruct (Geometry.vertices (geometry tm) !! Face3.c face) as [vc|]; [|discriminate].
  simpl in Ha, Hb, Hc. injection Ha as <-. injection Hb as <-. injection Hc as <-.
  exists va, vb, vc. auto.
Qed.

Lemma prepareDrawingTexture_drawable tm tm' :
  drawable tm -> prepareDrawingTexture tm = Ok tm' -> drawable tm'.
Proof.
  intros Hd Hrun.
  destruct (project_vertices tm Hd) as (vertexUvs & Hv & Hvs).
  unfold prepareDrawingTexture in Hrun.
  apply bind_Ok in Hrun as (drawn & _ & Hrun).
  rewrite Hv in Hrun. cbn [Js.bind] in Hrun.
  apply bind_Ok in Hrun as (uvs & _ & Hrun). injection Hrun as <-.
  destruct Hd as [Hl Hc Hm]. split; simpl; [|exact Hc|exact Hm].
  rewrite Hvs. apply length_fmap.
Qed.

End Projection.

Section ConstructorReturns.
Context `{Three}.

Lemma count_coincidences_Ok (vertices : list Vector3.t) (fi fj : Face3.t) :
  (exists n, count_coincidences vertices fi fj = Ok n)
  <-> (Face3.a fi < length vertices /\ Face3.b fi < length vertices
       /\ Face3.c fi < length vertices)
      /\ (Face3.a fj < length vertices /\ Face3.b fj < length vertices
          /\ Face3.c fj < length vertices).
Proof.
  rewrite <- !lookup_lt_is_Some. unfold count_coincidences. simpl.
  destruct (vertices !! Face3.a fi) as [p1|], (vertices !! Face3.b fi) as [p2|],
    (vertices !! Face3.c fi) as [p3|], (vertices !! Face3.a fj) as [q1|],
    (vertices !! Face3.b fj) as [q2|], (vertices !! Face3.c fj) as [q3|];
    simpl; (split; [intros [n Hn] | intros [(Ha & Hb & Hc) (Ha' & Hb' & Hc')]]);
    try discriminate Hn;
    try (exfalso; first [ apply is_Some_None in Ha | apply is_Some_None in Hb
                        | apply is_Some_None in Hc | apply is_Some_None in Ha'
                        | apply is_Some_None in Hb' | apply is_Some_None in Hc' ];
         assumption);
    eauto 10.
Qed.

Lemma for_each_seq_reaches {S : Type} (body : nat -> S -> result S) :
  forall (len start : nat) (s s' : S),
  for_each (seq start len) body s = Ok s' ->
  forall k, start <= k < start + len -> exists a b, body k a = Ok b.
Proof.
  induction len as [|len IH]; intros start s s' Hrun k Hk; [lia|].
  apply for_each_cons in Hrun as (s1 & Hbody & Hrest).
  destruct (decide (k = start)) as [->|Hne]; [eauto|].
  apply (IH (Datatypes.S start) s1 s' Hrest). lia.
Qed.

Lemma record_neighbours_total (nFaces i j : nat) (st : list Z * list (list Z)) :
  length (fst st) = nFaces -> length (snd st) = nFaces ->
  i < nFaces -> j < nFaces ->
  exists st', record_neighbours i j st = Ok st'
    /\ length (fst st') = nFaces /\ length (snd st') = nFaces.
Proof.
  destruct st as [n adj]. simpl. intros Hn Hadj Hi Hj.
  destruct (lookup_lt_is_Some_2 n i) as [ni Hni]; [lia|].
  destruct (lookup_lt_is_Some_2 adj i) as [row_i Hrow_i]; [lia|].
  destruct (lookup_lt_is_Some_2 n j) as [nj Hnj]; [lia|].
  destruct (lookup_lt_is_Some_2 (<[i := uint32_put row_i ni (Z.of_nat j)]> adj) j)
    as [row_j Hrow_j]; [rewrite length_insert; lia|].
  assert (Hput : forall (a : list Z) (x v : Z), length (uint8_put a x v) = length a).
  { intros a x v. unfold uint8_put, typed_put. destruct (0 <=? x)%Z; [|reflexivity].
    apply length_insert. }
  destruct (lookup_lt_is_Some_2 (uint8_put n (Z.of_nat i) (ni + 1)) j) as [nj' Hnj'];
    [rewrite Hput; lia|].
  unfold record_neighbours. rewrite Hni, Hrow_i. simpl. rewrite Hnj, Hrow_j. simpl.
  rewrite Hnj'. simpl. eexists. split; [reflexivity|]. simpl.
  rewrite !Hput, !length_insert. auto.
Qed.

Lemma adjacency_pair_total (g : Geometry.t) (i j : nat) (st : list Z * list (list Z)) :
  corners_exist g ->
  length (fst st) = length (Geometry.faces g) ->
  length (snd st) = length (Geometry.faces g) ->
  i < length (Geometry.faces g) -> j < length (Geometry.faces g) ->
  exists st', adjacency_pair g i j st = Ok st'
    /\ length (fst st') = length (Geometry.faces g)
    /\ length (snd st') = length (Geometry.faces g).
Proof.
  intros Hc Hn Hadj Hi Hj.
  destruct (lookup_lt_is_Some_2 (Geometry.faces g) i Hi) as [fi Hfi].
  destruct (lookup_lt_is_Some_2 (Geometry.faces g) j Hj) as [fj Hfj].
  destruct (proj2 (count_coincidences_Ok (Geometry.vertices g) fi fj)) as [count Hcount].
  { split; apply Hc; eapply list_elem_of_lookup_2; eassumption. }
  unfold adjacency_pair. rewrite Hfi, Hfj. simpl. rewrite Hcount. simpl.
  destruct (count =? 2)%nat; [|eauto].
  apply record_neighbours_total; assumption.
Qed.

Lemma build_adjacency_total (g : Geometry.t) :
  corners_exist g -> exists st, build_adjacency g = Ok st.
Proof.
  intros Hc. unfold build_adjacency.
  set (nFaces := length (Geometry.faces g)).
  destruct (for_each_seq_total
              (fun _ (st : list Z * list (list Z)) =>
                 length (fst st) = nFaces /\ length (snd st) = nFaces)
              (fun i st =>
                 for_each (seq (S i) (nFaces - S i))
                   (fun j st => adjacency_pair g i j st) st)
              (nFaces - 1) 0 (typed_new nFaces, replicate nFaces (typed_new nFaces)))
    as (st & Hrun & _); [| |eauto].
  - simpl. unfold typed_new. rewrite !length_replicate. auto.
  - intros i a Hi Ha.
    apply (for_each_seq_total
             (fun _ (st : list Z * list (list Z)) =>
                length (fst st) = nFaces /\ length (snd st) = nFaces)
             (fun j st => adjacency_pair g i j st) (nFaces - S i) (S i) a Ha).
    intros j b Hj [Hb1 Hb2]. apply adjacency_pair_total; auto; unfold nFaces in *; lia.
Qed.

Lemma build_adjacency_corners (g : Geometry.t) (st : list Z * list (list Z)) :
  build_adjacency g = Ok st -> 2 <= length (Geometry.faces g) -> corners_exist g.
Proof.
  intros Hrun Hlen face Hface.
  apply list_elem_of_lookup_1 in Hface as [m Hm].
  pose proof (lookup_lt_Some _ _ _ Hm) as Hmlt.
  unfold build_adjacency in Hrun.
  assert (Hpair : forall i j, i < j -> j < length (Geometry.faces g) ->
            exists a b, adjacency_pair g i j a = Ok b).
  { intros i j Hij Hj.
    destruct (for_each_seq_reaches _ _ _ _ _ Hrun i) as (a & b & Hinner); [lia|].
    apply (for_each_seq_reaches _ _ _ _ _ Hinner j). lia. }
  assert (Hread : forall i j fi fj, i < j ->
            Geometry.faces g !! i = Some fi -> Geometry.faces g !! j = Some fj ->
            exists n, count_coincidences (Geometry.vertices g) fi fj = Ok n).
  { intros i j fi fj Hij Hfi Hfj.
    destruct (Hpair i j Hij) as (a & b & Hp); [eapply lookup_lt_Some, Hfj|].
    unfold adjacency_pair in Hp. rewrite Hfi, Hfj in Hp. simpl in Hp.
    apply bind_Ok in Hp as (n & Hn & _). eauto. }
  destruct m as [|m].
  - destruct (lookup_lt_is_Some_2 (Geometry.faces g) 1) as [fj Hfj]; [lia|].
    destruct (Hread 0 1 face fj) as [n Hn]; [lia | assumption | assumption |].
    apply (proj1 (count_coincidences_Ok (Geometry.vertices g) face fj)). eauto.
  - destruct (lookup_lt_is_Some_2 (Geometry.faces g) 0) as [fi Hfi]; [lia|].
    destruct (Hread 0 (S m) fi face) as [n Hn]; [lia | assumption | assumption |].
    apply (proj1 (count_coincidences_Ok (Geometry.vertices g) fi face)). eauto.
Qed.

Lemma corners_exist_index_materials (g : Geometry.t) :
  corners_exist
    (Geometry.mk (Geometry.vertices g) (index_materials (Geometry.faces g))
       (Geometry.faceVertexUvs0 g))
  <-> corners_exist g.
Proof.
  unfold corners_exist. simpl. split; intros Hc face Hface.
  - apply list_elem_of_lookup_1 in Hface as [i Hi].
    specialize (Hc (Face3.mk (Face3.a face) (Face3.b face) (Face3.c face)
                      (Face3.normal face) (Z.of_nat i))).
    apply Hc. eapply list_elem_of_lookup_2 with (i := i).
    rewrite index_materials_lookup, Hi. reflexivity.
  - apply list_elem_of_lookup_1 in Hface as [i Hi].
    rewrite index_materials_lookup in Hi.
    destruct (Geometry.faces g !! i) as [face0|] eqn:E; [|discriminate].
    injection Hi as <-. simpl. apply Hc. eapply list_elem_of_lookup_2, E.
Qed.

Lemma constructor_total (g : Geometry.t) (r : Renderer.t) (cam : Camera) :
  corners_exist g -> exists tm, constructor g r cam = Ok tm.
Proof.
  intros Hc. unfold constructor.
  destruct (build_adjacency_total
              (Geometry.mk (Geometry.vertices g) (index_materials (Geometry.faces g))
                 (Geometry.faceVertexUvs0 g))) as [st ->];
    [apply corners_exist_index_materials, Hc|].
  simpl. eauto.
Qed.

(** The constructor returns exactly on the meshes with fewer than two
    faces and on the meshes whose faces all have their corners among the
    vertices: on any other mesh the adjacency loops read a vertex that
    does not exist. *)
Theorem constructor_returns (g : Geometry.t) (r : Renderer.t) (cam : Camera) :
  (exists tm, constructor g r cam = Ok tm)
  <-> (length (Geometry.faces g) <= 1 \/ corners_exist g).
Proof.
  unfold constructor.
  set (g' := Geometry.mk (Geometry.vertices g) (index_materials (Geometry.faces g))
               (Geometry.faceVertexUvs0 g)).
  assert (Hlen : length (Geometry.faces g') = length (Geometry.faces g)).
  { unfold g', index_materials. simpl. apply length_imap. }
  split.
  - intros [tm Hrun]. apply bind_Ok in Hrun as (st & Hst & _).
    destruct (Nat.le_gt_cases (length (Geometry.faces g)) 1) as [Hle|Hgt]; [auto|].
    right. apply corners_exist_index_materials.
    eapply build_adjacency_corners; [exact Hst|]. simpl. unfold index_materials. rewrite length_imap. lia.
  - intros [Hle|Hc].
    + assert (Hb : exists st, build_adjacency g' = Ok st).
      { unfold build_adjacency. rewrite Hlen.
        replace (length (Geometry.faces g) - 1) with 0 by lia. simpl. eauto. }
      destruct Hb as [st ->]. simpl. eauto.
    + apply (constructor_total g r cam Hc).
Qed.

Lemma constructor_drawable (g : Geometry.t) (r : Renderer.t) (cam : Camera)
    (tm : TextureManager) :
  constructor g r cam = Ok tm -> corners_exist g -> drawable tm.
Proof.
  intros Hrun Hc. unfold constructor in Hrun.
  apply bind_Ok in Hrun as (st & _ & Hrun). injection Hrun as <-.
  split; simpl.
  - apply length_replicate.
  - apply corners_exist_index_materials, Hc.
  - intros i face Hi. rewrite index_materials_lookup in Hi.
    destruct (Geometry.faces g !! i); [|discriminate]. injection Hi as <-. reflexivity.
Qed.

End ConstructorReturns.

Section Pages.
Context `{Three}.
Implicit Types (tm : TextureManager) (c : Controls) (p : Page) (l : bool).

(** *** The texture manager stays sound *)

Lemma sound_ext tm tm' :
  sound tm -> well_formed tm' ->
  Geometry.vertices (geometry tm') = Geometry.vertices (geometry tm) ->
  Geometry.faces (geometry tm') = Geometry.faces (geometry tm) ->
  length (_drawingVertexUvs tm') = length (_drawingVertexUvs tm) ->
  _viewingMaterial tm' = _viewingMaterial tm ->
  _viewingTextureUvs tm' = _viewingTextureUvs tm ->
  sound tm'.
Proof.
  intros [Hwf [Hv Hc Hm] Hp] Hwf' Ev Ef El Em Eu. split; [exact Hwf'| |].
  - split.
    + rewrite El, Ev. exact Hv.
    + unfold corners_exist. rewrite Ev, Ef. exact Hc.
    + rewrite Ef. exact Hm.
  - unfold pixel_faces_centered. rewrite Em, Eu. exact Hp.
Qed.

Lemma sound_set_faceVertexUvs0 (layer : Layer) tm :
  sound tm -> sound (set_faceVertexUvs0 layer tm).
Proof.
  intros Hs. apply (sound_ext tm); try reflexivity; [exact Hs|].
  apply (well_formed_ext tm); simpl; try reflexivity; [apply Hs | apply Hs].
Qed.

Lemma sound_paint (op : CanvasOp) tm : sound tm -> sound (paint op tm).
Proof.
  intros Hs. apply (sound_ext tm); try reflexivity; [exact Hs|].
  apply paint_well_formed, Hs.
Qed.

Lemma sound_set_renderer (r : Renderer.t) tm : sound tm -> sound (set_renderer r tm).
Proof.
  intros Hs. apply (sound_ext tm); try reflexivity; [exact Hs|].
  apply (well_formed_ext tm); simpl; try reflexivity; [apply Hs | apply Hs].
Qed.

Lemma sound_set_camera (cam : Camera) tm : sound tm -> sound (set_camera cam tm).
Proof.
  intros Hs. apply (sound_ext tm); try reflexivity; [exact Hs|].
  apply (well_formed_ext tm); simpl; try reflexivity; [apply Hs | apply Hs].
Qed.

Lemma update_spec (camera' : Camera) c c' :
  update camera' c = Ok c' ->
  Renderer.visible (renderer (_textureManager c)) = true
  /\ c' = mkControls (_state c) (_mesh c) (brush_radius c)
            (set_renderer (Renderer.render (renderer (_textureManager c)))
               (set_camera camera' (_textureManager c)))
            (_usingViewingTexture c)
            (canvas c
             ++ [DrawRendererOutput
                   (S (Renderer.renderCalls (renderer (_textureManager c))))]).
Proof.
  unfold update. intros Hrun. apply bind_Ok in Hrun as (drawn & Hd & Hrun).
  apply drawImage_Ok in Hd as [Hv ->]. injection Hrun as <-.
  split; [exact Hv | reflexivity].
Qed.

Lemma update_returns (camera' : Camera) c :
  Renderer.visible (renderer (_textureManager c)) = true ->
  exists c', update camera' c = Ok c'.
Proof.
  intros Hv. unfold update.
  rewrite (drawImage_visible
             (Renderer.render (renderer (set_camera camera' (_textureManager c)))) Hv).
  simpl. eauto.
Qed.

Lemma sound_update (camera' : Camera) c c' :
  sound (_textureManager c) -> update camera' c = Ok c' ->
  sound (_textureManager c').
Proof.
  intros Hs Hrun. apply update_spec in Hrun as [_ ->]. simpl.
  apply sound_set_renderer, sound_set_camera, Hs.
Qed.

Lemma sound_prepareDrawingTexture tm tm' :
  sound tm -> prepareDrawingTexture tm = Ok tm' -> sound tm'.
Proof.
  intros Hs Hrun.
  pose proof (prepareDrawingTexture_drawable tm tm' (sd_drawable _ Hs) Hrun) as Hd.
  pose proof (prepareDrawingTexture_well_formed tm tm' (sd_well_formed _ Hs) Hrun) as Hwf.
  split; [exact Hwf | exact Hd |].
  unfold prepareDrawingTexture in Hrun.
  apply bind_Ok in Hrun as (drawn & _ & Hrun).
  apply bind_Ok in Hrun as (vertexUvs & _ & Hrun).
  apply bind_Ok in Hrun as (uvs & _ & Hrun). injection Hrun as <-.
  exact (sd_pixels _ Hs).
Qed.

Lemma sound_prepareViewingTexture tm tm' :
  sound tm -> prepareViewingTexture tm = Ok tm' -> sound tm'.
Proof.
  intros Hs Hrun. pose proof (sd_well_formed _ Hs) as Hwf.
  pose proof (prepareViewingTexture_well_formed tm tm' Hwf Hrun) as Hwf'.
  destruct (Nat.eq_0_gt_0_cases (AffectedFacesRecorder.length (_affectedFaces tm)))
    as [H0|Hpos].
  { unfold prepareViewingTexture in Hrun.
    replace (0 <? _)%nat with false in Hrun by (symmetry; apply Nat.ltb_ge; lia).
    injection Hrun as <-. exact Hs. }
  destruct (prepareViewingTexture_unfold tm tm' Hrun Hpos)
    as (bd & painted & recorder & _ & Hpainted & _ & Etm).
  cbv zeta in Hpainted. rewrite affected_list_members in Hpainted by exact Hwf.
  apply repaint_all in Hpainted as [Hout Hin]. simpl in Hout.
  split; [exact Hwf'| |].
  - destruct (sd_drawable _ Hs) as [Hv Hc Hm]. subst tm'. split; assumption.
  - intros f Hpixel. subst tm'. simpl in *.
    destruct (decide (f ∈ members (_affectedFaces tm))) as [Hf|Hf].
    + destruct (Hin f Hf) as [Hm _]. congruence.
    + destruct (Hout f Hf) as [Em Eu]. rewrite Eu. apply (sd_pixels _ Hs).
      rewrite <- Em. exact Hpixel.
Qed.

(** A sample writes the bitmap, the recorder and the upload flag of the
    drawing texture, and nothing else. *)
Lemma onStrokePainted_scene (pos : Vector2.t) (radius : float) tm tm' :
  well_formed tm -> onStrokePainted pos radius tm = Ok tm' ->
  same_scene (set_drawingMaterial (_drawingMaterial tm') tm) tm'.
Proof.
  intros Hwf Hrun. pose proof (onStrokePainted_sample _ _ _ _ Hwf Hrun) as Hsample.
  destruct (_castRayFromMouse pos tm) as [|hit rest].
  - subst tm'. destruct tm. reflexivity.
  - pose proof (fo_scene _ _ _ _ _ Hsample) as Hs.
    rewrite (scene_drawingMaterial _ _ Hs). exact Hs.
Qed.

Lemma sound_onStrokePainted (pos : Vector2.t) (radius : float) tm tm' :
  sound tm -> onStrokePainted pos radius tm = Ok tm' -> sound tm'.
Proof.
  intros Hs Hrun.
  pose proof (onStrokePainted_scene pos radius tm tm' (sd_well_formed _ Hs) Hrun) as Hsc.
  apply (sound_ext tm); try (rewrite Hsc; reflexivity); [exact Hs|].
  eapply onStrokePainted_well_formed; [apply Hs | exact Hrun].
Qed.

Lemma sound_constructor (g : Geometry.t) (r : Renderer.t) (cam : Camera) tm :
  constructor g r cam = Ok tm ->
  length (Geometry.faces g) <= 256 -> corners_exist g -> sound tm.
Proof.
  intros Hrun Hsmall Hc. split.
  - eapply constructor_well_formed; eassumption.
  - eapply constructor_drawable; eassumption.
  - destruct (constructor_fields g r cam tm Hrun) as (_ & _ & Hv & Hm & _).
    intros f Hf. rewrite Hv. rewrite Hm in Hf.
    apply element_Some in Hf as [Hpos Hf]. apply element_Some. split; [exact Hpos|].
    apply lookup_replicate in Hf as [_ Hf]. apply lookup_replicate. split; [reflexivity|].
    exact Hf.
Qed.

(** *** The stroke returns *)

Lemma onStrokePainted_returns (pos : Vector2.t) (radius : float) tm :
  ray_caster_sound -> sound tm ->
  length (Geometry.faces (geometry tm)) < callStack ->
  exists tm', onStrokePainted pos radius tm = Ok tm'.
Proof.
  intros Hray Hs Hstack. pose proof (sd_well_formed _ Hs) as Hwf.
  rewrite onStrokePainted_unfold by exact Hwf.
  destruct (_castRayFromMouse pos tm) as [|hit rest] eqn:Hcast; [eauto|].
  assert (Hhit : hit ∈ Geometry.faces (geometry tm)).
  { unfold _castRayFromMouse in Hcast. eapply Hray. rewrite Hcast.
    apply elem_of_cons. auto. }
  apply list_elem_of_lookup_1 in Hhit as [i Hi].
  rewrite (dr_material _ (sd_drawable _ Hs) i hit Hi).
  destruct (well_formed_reset tm Hwf) as (_ & Hwf0 & _).
  apply add_recursive_total; [exact Hwf0 | |].
  - simpl. apply lookup_lt_Some in Hi. lia.
  - simpl. eapply Nat.le_lt_trans; [apply unmarked_length|].
    rewrite (wf_bitmap_empty _ Hwf). unfold typed_new. rewrite length_replicate.
    exact Hstack.
Qed.

(** *** The two switches *)

Lemma useViewingTexture_spec c c' :
  _useViewingTexture c = Ok c' ->
  (_usingViewingTexture c = true /\ c' = c)
  \/ (_usingViewingTexture c = false
      /\ exists tm1,
           prepareViewingTexture (_textureManager c) = Ok tm1
           /\ c' = mkControls (_state c) (mkMesh ViewingLayer) (brush_radius c)
                     (set_faceVertexUvs0 ViewingLayer tm1) true (canvas c)).
Proof.
  unfold _useViewingTexture. destruct (_usingViewingTexture c).
  - intros [= <-]. auto.
  - intros Hrun. apply bind_Ok in Hrun as (tm1 & Hprep & Hrun). injection Hrun as <-.
    right. eauto.
Qed.

Lemma useDrawingTexture_spec c c' :
  _useDrawingTexture c = Ok c' ->
  (_usingViewingTexture c = false /\ c' = c)
  \/ (_usingViewingTexture c = true
      /\ exists tm1,
           prepareDrawingTexture (_textureManager c) = Ok tm1
           /\ c' = mkControls (_state c) (mkMesh DrawingLayer) (brush_radius c)
                     (set_faceVertexUvs0 DrawingLayer tm1) false (canvas c)).
Proof.
  unfold _useDrawingTexture. destruct (_usingViewingTexture c); simpl.
  - intros Hrun. apply bind_Ok in Hrun as (tm1 & Hprep & Hrun). injection Hrun as <-.
    right. eauto.
  - intros [= <-]. auto.
Qed.

Lemma useViewingTexture_returns c :
  sound (_textureManager c) -> exists c', _useViewingTexture c = Ok c'.
Proof.
  intros Hs. unfold _useViewingTexture. destruct (_usingViewingTexture c); [eauto|].
  destruct (prepareViewingTexture_total (_textureManager c) (sd_well_formed _ Hs))
    as (tm1 & ->).
  simpl. eauto.
Qed.

Lemma useDrawingTexture_returns c :
  sound (_textureManager c) ->
  Renderer.visible (renderer (_textureManager c)) = true ->
  exists c', _useDrawingTexture c = Ok c'.
Proof.
  intros Hs Hv. unfold _useDrawingTexture.
  destruct (negb (_usingViewingTexture c)); [eauto|].
  destruct (prepareDrawingTexture_total (_textureManager c)
              (sd_well_formed _ Hs) (sd_drawable _ Hs) Hv) as (tm1 & ->).
  simpl. eauto.
Qed.

(** *** The size of the mesh and of the renderer's canvas *)

Lemma prepareViewingTexture_size tm tm' :
  prepareViewingTexture tm = Ok tm' ->
  geometry tm' = geometry tm /\ renderer tm' = renderer tm.
Proof.
  unfold prepareViewingTexture. destruct (0 <? _)%nat; [|intros [= <-]; auto].
  intros Hrun.
  apply bind_Ok in Hrun as (bd & _ & Hrun).
  apply bind_Ok in Hrun as (painted & _ & Hrun).
  apply bind_Ok in Hrun as (recorder & _ & Hrun). injection Hrun as <-. auto.
Qed.

Lemma prepareDrawingTexture_size tm tm' :
  prepareDrawingTexture tm = Ok tm' ->
  geometry tm' = geometry tm /\ renderer tm' = Renderer.render (renderer tm).
Proof.
  unfold prepareDrawingTexture. intros Hrun.
  apply bind_Ok in Hrun as (drawn & _ & Hrun).
  apply bind_Ok in Hrun as (vertexUvs & _ & Hrun).
  apply bind_Ok in Hrun as (uvs & _ & Hrun). injection Hrun as <-. auto.
Qed.

Lemma useViewingTexture_size c c' :
  _useViewingTexture c = Ok c' ->
  Geometry.faces (geometry (_textureManager c'))
  = Geometry.faces (geometry (_textureManager c))
  /\ Renderer.visible (renderer (_textureManager c'))
     = Renderer.visible (renderer (_textureManager c)).
Proof.
  intros Hrun.
  apply useViewingTexture_spec in Hrun as [[_ ->]|(_ & tm1 & Hprep & ->)]; [auto|].
  apply prepareViewingTexture_size in Hprep as [Hg Hr]. simpl.
  rewrite Hg, Hr. auto.
Qed.

Lemma useDrawingTexture_size c c' :
  _useDrawingTexture c = Ok c' ->
  Geometry.faces (geometry (_textureManager c'))
  = Geometry.faces (geometry (_textureManager c))
  /\ Renderer.visible (renderer (_textureManager c'))
     = Renderer.visible (renderer (_textureManager c)).
Proof.
  intros Hrun.
  apply useDrawingTexture_spec in Hrun as [[_ ->]|(_ & tm1 & Hprep & ->)]; [auto|].
  apply prepareDrawingTexture_size in Hprep as [Hg Hr]. simpl.
  rewrite Hg, Hr. auto.
Qed.

Lemma onStrokePainted_size (pos : Vector2.t) (radius : float) tm tm' :
  well_formed tm -> onStrokePainted pos radius tm = Ok tm' ->
  geometry tm' = geometry tm /\ renderer tm' = renderer tm.
Proof.
  intros Hwf Hrun. pose proof (onStrokePainted_scene _ _ _ _ Hwf Hrun) as Hs.
  split; [apply (scene_geometry _ _ Hs) | apply (scene_renderer _ _ Hs)].
Qed.

Lemma flushed tm tm' :
  well_formed tm -> prepareViewingTexture tm = Ok tm' ->
  AffectedFacesRecorder.length (_affectedFaces tm') = 0.
Proof.
  intros _. apply prepareViewingTexture_resets.
Qed.

Lemma useViewingTexture_ok c c' l :
  _useViewingTexture c = Ok c' ->
  sound (_textureManager c) ->
  l = negb (is_Idle (_state c)) ->
  material (_mesh c) = layer_in_use c ->
  Geometry.faceVertexUvs0 (geometry (_textureManager c)) = layer_in_use c ->
  page_ok (mkPage c' l)
  /\ _state c' = _state c /\ brush_radius c' = brush_radius c
  /\ _usingViewingTexture c' = true
  /\ ((_usingViewingTexture c = true ->
       AffectedFacesRecorder.length (_affectedFaces (_textureManager c)) = 0) ->
      AffectedFacesRecorder.length (_affectedFaces (_textureManager c')) = 0).
Proof.
  intros Hrun Hs Hl Hmesh Hgeo.
  apply useViewingTexture_spec in Hrun as [[Hflag ->]|(Hflag & tm1 & Hprep & ->)].
  - split; [|auto]. split; simpl; auto.
  - split; [|simpl; split; [reflexivity|]; split; [reflexivity|]; split; [reflexivity|]].
    + split; simpl; auto.
      apply sound_set_faceVertexUvs0. eapply sound_prepareViewingTexture; eassumption.
    + intros _. eapply flushed; [apply Hs | exact Hprep].
Qed.

Lemma useDrawingTexture_ok c c' l :
  _useDrawingTexture c = Ok c' ->
  sound (_textureManager c) ->
  l = negb (is_Idle (_state c)) ->
  material (_mesh c) = layer_in_use c ->
  Geometry.faceVertexUvs0 (geometry (_textureManager c)) = layer_in_use c ->
  _state c <> View ->
  page_ok (mkPage c' l)
  /\ _state c' = _state c /\ brush_radius c' = brush_radius c
  /\ _usingViewingTexture c' = false.
Proof.
  intros Hrun Hs Hl Hmesh Hgeo Hstate.
  apply useDrawingTexture_spec in Hrun as [[Hflag ->]|(Hflag & tm1 & Hprep & ->)].
  - split; [|auto]. split; simpl; auto; intros Hv; contradiction.
  - split; [|simpl; auto].
    split; simpl; auto;
      first [ intros Hv; contradiction
            | apply sound_set_faceVertexUvs0;
              eapply sound_prepareDrawingTexture; eassumption ].
Qed.

(** *** One event *)

Lemma stroke_ok (op : CanvasOp) (pos : Vector2.t) (radius : float) c tm2 :
  page_ok (mkPage c true) ->
  _state c = Draw ->
  onStrokePainted pos radius (paint op (_textureManager c)) = Ok tm2 ->
  page_ok (mkPage (mkControls Draw (_mesh c) radius tm2 (_usingViewingTexture c)
                     (canvas c)) true).
Proof.
  intros [Hs Hl Hmesh Hgeo Hview] Hdraw Hstroke. simpl in *.
  assert (Hs1 : sound (paint op (_textureManager c))) by (apply sound_paint, Hs).
  pose proof (onStrokePainted_scene _ _ _ _ (sd_well_formed _ Hs1) Hstroke) as Hsc.
  split; simpl.
  - eapply sound_onStrokePainted; eassumption.
  - reflexivity.
  - exact Hmesh.
  - rewrite Hsc. simpl. exact Hgeo.
  - discriminate.
Qed.

Lemma mouseup_spec (camera' : Camera) c c' :
  _mouseup camera' c = Ok c' ->
  Renderer.visible (renderer (_textureManager c)) = true
  /\ exists tm1,
       (tm1 = _textureManager c \/ tm1 = paint FinishStroke (_textureManager c))
       /\ c' = mkControls Idle (_mesh c) (brush_radius c)
                 (set_renderer (Renderer.render (renderer tm1)) (set_camera camera' tm1))
                 (_usingViewingTexture c)
                 (canvas c ++ [DrawRendererOutput (S (Renderer.renderCalls (renderer tm1)))]).
Proof.
  unfold _mouseup. intros Hrun. apply bind_Ok in Hrun as (tm1 & Htm1 & Hrun).
  apply bind_Ok in Hrun as (c1 & Hupd & Hrun).
  injection Hrun as <-. apply update_spec in Hupd as [Hv ->]. simpl in Hv.
  assert (Hcases : tm1 = _textureManager c \/ tm1 = paint FinishStroke (_textureManager c)).
  { destruct (_state c);
      first [ injection Htm1 as <-; left; reflexivity
            | apply brush_call_Ok in Htm1; right; exact Htm1 ]. }
  split; [destruct Hcases as [->| ->]; exact Hv|].
  exists tm1. split; [exact Hcases | reflexivity].
Qed.

Lemma dispatch_ok (e : Event) p p' :
  page_ok p -> dispatch e p = Ok p' -> page_ok p'.
Proof.
  intros Hok Hrun. destruct p as [c l]. pose proof Hok as [Hs Hl Hmesh Hgeo Hview].
  simpl in Hs, Hl, Hmesh, Hgeo, Hview.
  destruct e as [shiftKey pos newBrush|pos|camera'|shiftKey|width height camera'|camera'];
    simpl in Hrun.
  - apply bind_Ok in Hrun as (c' & Hdown & Hrun). injection Hrun as <-.
    unfold _mousedown in Hdown. destruct (_state c) eqn:Hstate.
    + simpl in Hl. subst l. simpl. destruct shiftKey.
      * apply (useViewingTexture_ok _ _ true Hdown Hs eq_refl Hmesh Hgeo).
      * apply bind_Ok in Hdown as (c1 & Hdraw & Hdown).
        apply bind_Ok in Hdown as (tm1 & Hbrush & Hdown). apply brush_call_Ok in Hbrush as ->.
        apply bind_Ok in Hdown as (tm2 & Hstroke & Hdown). injection Hdown as <-.
        destruct (useDrawingTexture_ok _ _ true Hdraw Hs eq_refl Hmesh Hgeo)
          as (Hok1 & Hstate1 & _ & _); [discriminate|]. simpl in Hstate1.
        destruct (stroke_ok (StartStroke pos) pos
                    (default (brush_radius c1) newBrush) c1 tm2 Hok1 Hstate1 Hstroke)
          as [Hs2 _ Hmesh2 Hgeo2 _].
        split; simpl; auto. discriminate.
    + injection Hdown as <-. simpl. rewrite orb_false_r. exact Hok.
    + injection Hdown as <-. simpl. rewrite orb_false_r. exact Hok.
  - destruct l; [|injection Hrun as <-; exact Hok].
    apply bind_Ok in Hrun as (c' & Hmove & Hrun). injection Hrun as <-.
    unfold _mousemove in Hmove. destruct (_state c) eqn:Hstate.
    + discriminate Hl.
    + apply bind_Ok in Hmove as (tm1 & Hbrush & Hmove). apply brush_call_Ok in Hbrush as ->.
      apply bind_Ok in Hmove as (tm2 & Hstroke & Hmove). injection Hmove as <-.
      eapply stroke_ok; eauto.
    + injection Hmove as <-. exact Hok.
  - destruct l; [|injection Hrun as <-; exact Hok].
    apply bind_Ok in Hrun as (c' & Hup & Hrun). injection Hrun as <-.
    apply mouseup_spec in Hup as (_ & tm1 & Htm1 & ->).
    split; simpl; auto; try discriminate.
    + apply sound_set_renderer, sound_set_camera.
      destruct Htm1 as [->| ->]; [exact Hs | apply sound_paint, Hs].
    + destruct Htm1 as [->| ->]; exact Hgeo.
  - apply bind_Ok in Hrun as (c' & Hwheel & Hrun). injection Hrun as <-.
    unfold _mousewheel in Hwheel.
    destruct (is_Draw (_state c) || negb shiftKey); [injection Hwheel as <-; exact Hok|].
    apply (useViewingTexture_ok _ _ l Hwheel Hs Hl Hmesh Hgeo).
  - apply bind_Ok in Hrun as (c' & Hresize & Hrun). injection Hrun as <-.
    unfold handleResize in Hresize.
    apply (useViewingTexture_ok _ _ l Hresize
             (sound_set_camera _ _ (sound_set_renderer _ _ Hs)) Hl Hmesh Hgeo).
  - apply bind_Ok in Hrun as (c' & Hupd & Hrun). injection Hrun as <-.
    apply update_spec in Hupd as [_ ->].
    split; simpl; auto. apply sound_set_renderer, sound_set_camera, Hs.
Qed.

(** The number of faces stays, and the renderer's canvas keeps its pixels
    unless it is resized to none. *)
Lemma dispatch_runnable (e : Event) p p' :
  page_ok p -> runnable p -> keeps_visible e = true ->
  dispatch e p = Ok p' -> runnable p'.
Proof.
  intros Hok [Hstack Hvis] Hkeep Hrun. destruct p as [c l].
  pose proof Hok as [Hs Hl Hmesh Hgeo Hview].
  simpl in Hs, Hl, Hmesh, Hgeo, Hview, Hstack, Hvis.
  assert (Hfrom : forall c' : Controls,
            Geometry.faces (geometry (_textureManager c'))
            = Geometry.faces (geometry (_textureManager c))
            /\ Renderer.visible (renderer (_textureManager c'))
               = Renderer.visible (renderer (_textureManager c)) ->
            forall l', runnable (mkPage c' l')).
  { intros c' [Hf Hv] l'. split; simpl; [rewrite Hf; exact Hstack | rewrite Hv; exact Hvis]. }
  destruct e as [shiftKey pos newBrush|pos|camera'|shiftKey|width height camera'|camera'];
    simpl in Hrun.
  - apply bind_Ok in Hrun as (c' & Hdown & Hrun). injection Hrun as <-.
    apply Hfrom.
    unfold _mousedown in Hdown. destruct (_state c) eqn:Hstate;
      [|injection Hdown as <-; auto|injection Hdown as <-; auto].
    destruct shiftKey.
    + apply useViewingTexture_size in Hdown. exact Hdown.
    + apply bind_Ok in Hdown as (c1 & Hdraw & Hdown).
      apply bind_Ok in Hdown as (tm1 & Hbrush & Hdown). apply brush_call_Ok in Hbrush as ->.
      apply bind_Ok in Hdown as (tm2 & Hstroke & Hdown). injection Hdown as <-.
      destruct (useDrawingTexture_ok _ _ true Hdraw Hs eq_refl Hmesh Hgeo)
        as ([Hs1 _ _ _ _] & _); [discriminate|]. simpl in Hs1.
      apply useDrawingTexture_size in Hdraw as [Hf Hv]. simpl in Hf, Hv.
      apply onStrokePainted_size in Hstroke as [Hg Hr];
        [|apply paint_well_formed, Hs1].
      simpl. rewrite Hg, Hr. simpl. auto.
  - destruct l; [|injection Hrun as <-; split; assumption].
    apply bind_Ok in Hrun as (c' & Hmove & Hrun). injection Hrun as <-.
    apply Hfrom.
    unfold _mousemove in Hmove. destruct (_state c) eqn:Hstate;
      [injection Hmove as <-; auto| |injection Hmove as <-; auto].
    apply bind_Ok in Hmove as (tm1 & Hbrush & Hmove). apply brush_call_Ok in Hbrush as ->.
    apply bind_Ok in Hmove as (tm2 & Hstroke & Hmove). injection Hmove as <-.
    apply onStrokePainted_size in Hstroke as [Hg Hr];
      [|apply paint_well_formed, Hs].
    simpl. rewrite Hg, Hr. simpl. auto.
  - destruct l; [|injection Hrun as <-; split; assumption].
    apply bind_Ok in Hrun as (c' & Hup & Hrun). injection Hrun as <-.
    apply Hfrom.
    apply mouseup_spec in Hup as (_ & tm1 & Htm1 & ->). simpl.
    destruct Htm1 as [->| ->]; auto.
  - apply bind_Ok in Hrun as (c' & Hwheel & Hrun). injection Hrun as <-.
    apply Hfrom.
    unfold _mousewheel in Hwheel.
    destruct (is_Draw (_state c) || negb shiftKey); [injection Hwheel as <-; auto|].
    apply useViewingTexture_size in Hwheel. exact Hwheel.
  - apply bind_Ok in Hrun as (c' & Hresize & Hrun). injection Hrun as <-.
    unfold handleResize in Hresize.
    apply useViewingTexture_size in Hresize as [Hf Hv]. simpl in Hf, Hv.
    split; simpl; [rewrite Hf; exact Hstack | rewrite Hv; exact Hkeep].
  - apply bind_Ok in Hrun as (c' & Hupd & Hrun). injection Hrun as <-.
    apply Hfrom.
    apply update_spec in Hupd as [_ ->]. simpl. auto.
Qed.

Lemma dispatch_returns (e : Event) p :
  ray_caster_sound -> brush_returns ->
  page_ok p -> runnable p -> keeps_visible e = true ->
  exists p', dispatch e p = Ok p'.
Proof.
  intros Hray Hbrush Hok [Hstack Hvis] Hkeep. destruct p as [c l].
  pose proof Hok as [Hs Hl Hmesh Hgeo Hview].
  simpl in Hs, Hl, Hmesh, Hgeo, Hview, Hstack, Hvis.
  destruct e as [shiftKey pos newBrush|pos|camera'|shiftKey|width height camera'|camera'];
    simpl.
  - unfold _mousedown. destruct (_state c) eqn:Hstate; simpl; eauto.
    destruct shiftKey.
    + destruct (useViewingTexture_returns
                  (mkControls View (_mesh c) (brush_radius c) (_textureManager c)
                     (_usingViewingTexture c) (canvas c)) Hs) as [c' ->].
      simpl. eauto.
    + destruct (useDrawingTexture_returns
                  (mkControls Draw (_mesh c) (brush_radius c) (_textureManager c)
                     (_usingViewingTexture c) (canvas c)) Hs Hvis) as [c1 Hdraw].
      rewrite Hdraw. cbn [Js.bind].
      destruct (useDrawingTexture_ok _ _ true Hdraw Hs eq_refl Hmesh Hgeo)
        as ([Hs1 _ _ _ _] & _); [discriminate|]. simpl in Hs1.
      apply useDrawingTexture_size in Hdraw as [Hf _]. simpl in Hf.
      rewrite (brush_call_returns _ _ Hbrush). cbn [Js.bind].
      destruct (onStrokePainted_returns pos (default (brush_radius c1) newBrush)
                  (paint (StartStroke pos) (_textureManager c1)) Hray)
        as [tm2 ->]; [apply sound_paint, Hs1 | simpl; rewrite Hf; exact Hstack |].
      simpl. eauto.
  - destruct l; [|eauto]. unfold _mousemove. destruct (_state c); simpl; eauto.
    rewrite (brush_call_returns _ _ Hbrush). cbn [Js.bind].
    destruct (onStrokePainted_returns pos (brush_radius c)
                (paint (ContinueStroke pos) (_textureManager c)) Hray)
      as [tm2 ->]; [apply sound_paint, Hs | exact Hstack |].
    simpl. eauto.
  - destruct l; [|eauto]. unfold _mouseup.
    assert (Htm1 : exists tm1,
              match _state c with
              | Draw => brush_call FinishStroke (_textureManager c)
              | _ => Ok (_textureManager c)
              end = Ok tm1
              /\ Renderer.visible (renderer tm1) = true).
    { destruct (_state c); eauto.
      rewrite (brush_call_returns _ _ Hbrush). eauto. }
    destruct Htm1 as (tm1 & -> & Hv1). cbn [Js.bind].
    destruct (update_returns camera' (set_textureManager tm1 c) Hv1) as [c1 ->].
    simpl. eauto.
  - unfold _mousewheel. destruct (is_Draw (_state c) || negb shiftKey); simpl; eauto.
    destruct (useViewingTexture_returns c Hs) as [c' ->]. simpl. eauto.
  - unfold handleResize.
    match goal with
    | |- context [_useViewingTexture ?c0] =>
        destruct (useViewingTexture_returns c0) as [c' ->]
    end; [apply sound_set_camera, sound_set_renderer, Hs|].
    simpl. eauto.
  - destruct (update_returns camera' c Hvis) as [c' ->]. simpl. eauto.
Qed.


(** *** Runs *)

Lemma new_Page_spec (g : Geometry.t) (r : Renderer.t) (cam : Camera) (radius : float) p0 :
  new_Page g r cam radius = Ok p0 ->
  Renderer.visible r = true
  /\ exists tm,
       constructor g r cam = Ok tm
       /\ p0 = mkPage
                 (mkControls Idle (mkMesh ViewingLayer) radius
                    (set_renderer (Renderer.render (renderer tm))
                       (set_camera cam (set_faceVertexUvs0 ViewingLayer tm)))
                    true
                    [DrawRendererOutput (S (Renderer.renderCalls (renderer tm)))])
                 false.
Proof.
  intros Hrun. unfold new_Page in Hrun.
  apply bind_Ok in Hrun as (c & Hnew & Hrun). injection Hrun as <-.
  unfold new_Controls in Hnew.
  apply bind_Ok in Hnew as (tm & Hcons & Hnew).
  cbn [applyViewingTexture] in Hnew. apply update_spec in Hnew as [Hv ->]. simpl in Hv.
  assert (Hr : renderer tm = r).
  { unfold constructor in Hcons. apply bind_Ok in Hcons as (st & _ & Hcons).
    injection Hcons as <-. reflexivity. }
  rewrite Hr in Hv. split; [exact Hv|]. exists tm. split; [exact Hcons | reflexivity].
Qed.

Lemma new_Page_ok (g : Geometry.t) (r : Renderer.t) (cam : Camera) (radius : float) p0 :
  length (Geometry.faces g) <= 256 -> corners_exist g ->
  new_Page g r cam radius = Ok p0 -> page_ok p0 /\ reconciled p0.
Proof.
  intros Hsmall Hc Hrun.
  apply new_Page_spec in Hrun as (_ & tm & Hcons & ->).
  split; split; simpl; auto; try discriminate.
  - apply sound_set_renderer, sound_set_camera, sound_set_faceVertexUvs0.
    eapply sound_constructor; eassumption.
  - intros _. destruct (constructor_fields g r cam tm Hcons)
      as (_ & _ & _ & _ & _ & -> & _).
    reflexivity.
Qed.

Lemma new_Page_runnable (g : Geometry.t) (r : Renderer.t) (cam : Camera)
    (radius : float) p0 :
  length (Geometry.faces g) < callStack ->
  new_Page g r cam radius = Ok p0 -> runnable p0.
Proof.
  intros Hstack Hrun.
  apply new_Page_spec in Hrun as (Hv & tm & Hcons & ->).
  assert (Hr : renderer tm = r /\ length (Geometry.faces (geometry tm))
                                  = length (Geometry.faces g)).
  { unfold constructor in Hcons. apply bind_Ok in Hcons as (st & _ & Hcons).
    injection Hcons as <-. simpl. split; [reflexivity|].
    unfold index_materials. apply length_imap. }
  destruct Hr as [Hr Hf].
  split; simpl; [rewrite Hf; exact Hstack | rewrite Hr; exact Hv].
Qed.

Lemma new_Page_returns (g : Geometry.t) (r : Renderer.t) (cam : Camera) (radius : float) :
  corners_exist g -> Renderer.visible r = true ->
  exists p0, new_Page g r cam radius = Ok p0.
Proof.
  intros Hc Hv. destruct (constructor_total g r cam Hc) as [tm Htm].
  unfold new_Page, new_Controls. rewrite Htm. cbn [Js.bind applyViewingTexture].
  assert (Hr : renderer tm = r).
  { unfold constructor in Htm. apply bind_Ok in Htm as (st & _ & Htm).
    injection Htm as <-. reflexivity. }
  match goal with
  | |- context [update cam ?c0] => destruct (update_returns cam c0) as [c1 ->]
  end; [simpl; rewrite Hr; exact Hv|].
  simpl. eauto.
Qed.

Lemma run_ok (events : list Event) : forall p p',
  page_ok p -> run events p = Ok p' -> page_ok p'.
Proof.
  unfold run. induction events as [|e events IH]; intros p p' Hok Hrun.
  - injection Hrun as <-. exact Hok.
  - apply for_each_cons in Hrun as (p1 & Hstep & Hrest).
    eapply IH; [|exact Hrest]. eapply dispatch_ok; eassumption.
Qed.


(** *** The drawing canvas keeps its pixels *)

Lemma prepareDrawingTexture_pixels tm tm' :
  prepareDrawingTexture tm = Ok tm' -> Canvas.has_pixels (_drawingCanvas tm') = true.
Proof.
  unfold prepareDrawingTexture. intros Hrun.
  apply bind_Ok in Hrun as (drawn & Hd & Hrun). apply drawImage_Ok in Hd as [Hv _].
  apply bind_Ok in Hrun as (vertexUvs & _ & Hrun).
  apply bind_Ok in Hrun as (uvs & _ & Hrun). injection Hrun as <-. exact Hv.
Qed.

Lemma prepareViewingTexture_pixels tm tm' :
  prepareViewingTexture tm = Ok tm' ->
  Canvas.has_pixels (_drawingCanvas tm') = Canvas.has_pixels (_drawingCanvas tm).
Proof.
  unfold prepareViewingTexture. destruct (0 <? _)%nat; [|intros [= <-]; reflexivity].
  intros Hrun.
  apply bind_Ok in Hrun as (bd & _ & Hrun).
  apply bind_Ok in Hrun as (painted & _ & Hrun).
  apply bind_Ok in Hrun as (recorder & _ & Hrun). injection Hrun as <-. reflexivity.
Qed.

Lemma useViewingTexture_pixels c c' :
  _useViewingTexture c = Ok c' ->
  Canvas.has_pixels (_drawingCanvas (_textureManager c'))
  = Canvas.has_pixels (_drawingCanvas (_textureManager c)).
Proof.
  intros Hrun.
  apply useViewingTexture_spec in Hrun as [[_ ->]|(_ & tm1 & Hprep & ->)];
    [reflexivity|].
  apply prepareViewingTexture_pixels in Hprep. exact Hprep.
Qed.

Lemma useDrawingTexture_pixels c c' :
  _useDrawingTexture c = Ok c' ->
  Canvas.has_pixels (_drawingCanvas (_textureManager c)) = true ->
  Canvas.has_pixels (_drawingCanvas (_textureManager c')) = true.
Proof.
  intros Hrun Hpx.
  apply useDrawingTexture_spec in Hrun as [[_ ->]|(_ & tm1 & Hprep & ->)];
    [exact Hpx|].
  apply prepareDrawingTexture_pixels in Hprep. exact Hprep.
Qed.

Lemma onStrokePainted_pixels (op : CanvasOp) (pos : Vector2.t) (radius : float) tm tm' :
  well_formed tm -> onStrokePainted pos radius (paint op tm) = Ok tm' ->
  Canvas.has_pixels (_drawingCanvas tm') = Canvas.has_pixels (_drawingCanvas tm).
Proof.
  intros Hwf Hrun.
  apply onStrokePainted_scene in Hrun; [|apply paint_well_formed, Hwf].
  rewrite (scene_canvas _ _ Hrun). reflexivity.
Qed.

Lemma dispatch_pixels (e : Event) p p' :
  page_ok p -> dispatch e p = Ok p' ->
  Canvas.has_pixels (_drawingCanvas (_textureManager (controls p))) = true ->
  Canvas.has_pixels (_drawingCanvas (_textureManager (controls p'))) = true.
Proof.
  intros Hok Hrun Hpx. destruct p as [c l]. pose proof Hok as [Hs Hl Hmesh Hgeo Hview].
  simpl in Hs, Hl, Hmesh, Hgeo, Hview, Hpx.
  destruct e as [shiftKey pos newBrush|pos|camera'|shiftKey|width height camera'|camera'];
    simpl in Hrun.
  - apply bind_Ok in Hrun as (c' & Hdown & Hrun). injection Hrun as <-. simpl.
    unfold _mousedown in Hdown. destruct (_state c) eqn:Hstate;
      [|injection Hdown as <-; exact Hpx|injection Hdown as <-; exact Hpx].
    destruct shiftKey.
    + apply useViewingTexture_pixels in Hdown. rewrite Hdown. exact Hpx.
    + apply bind_Ok in Hdown as (c1 & Hdraw & Hdown).
      apply bind_Ok in Hdown as (tm1 & Hbrush & Hdown). apply brush_call_Ok in Hbrush as ->.
      apply bind_Ok in Hdown as (tm2 & Hstroke & Hdown). injection Hdown as <-. simpl.
      destruct (useDrawingTexture_ok _ _ true Hdraw Hs eq_refl Hmesh Hgeo)
        as ([Hs1 _ _ _ _] & _); [discriminate|]. simpl in Hs1.
      apply useDrawingTexture_pixels in Hdraw; [|exact Hpx].
      apply onStrokePainted_pixels in Hstroke; [|apply Hs1].
      rewrite Hstroke. exact Hdraw.
  - destruct l; [|injection Hrun as <-; exact Hpx].
    apply bind_Ok in Hrun as (c' & Hmove & Hrun). injection Hrun as <-. simpl.
    unfold _mousemove in Hmove. destruct (_state c) eqn:Hstate;
      [injection Hmove as <-; exact Hpx| |injection Hmove as <-; exact Hpx].
    apply bind_Ok in Hmove as (tm1 & Hbrush & Hmove). apply brush_call_Ok in Hbrush as ->.
    apply bind_Ok in Hmove as (tm2 & Hstroke & Hmove). injection Hmove as <-. simpl.
    apply onStrokePainted_pixels in Hstroke; [|apply Hs].
    rewrite Hstroke. exact Hpx.
  - destruct l; [|injection Hrun as <-; exact Hpx].
    apply bind_Ok in Hrun as (c' & Hup & Hrun). injection Hrun as <-. simpl.
    apply mouseup_spec in Hup as (_ & tm1 & Htm1 & ->). simpl.
    destruct Htm1 as [->| ->]; exact Hpx.
  - apply bind_Ok in Hrun as (c' & Hwheel & Hrun). injection Hrun as <-. simpl.
    unfold _mousewheel in Hwheel.
    destruct (is_Draw (_state c) || negb shiftKey); [injection Hwheel as <-; exact Hpx|].
    apply useViewingTexture_pixels in Hwheel. rewrite Hwheel. exact Hpx.
  - apply bind_Ok in Hrun as (c' & Hresize & Hrun). injection Hrun as <-. simpl.
    unfold handleResize in Hresize.
    apply useViewingTexture_pixels in Hresize. rewrite Hresize. exact Hpx.
  - apply bind_Ok in Hrun as (c' & Hupd & Hrun). injection Hrun as <-. simpl.
    apply update_spec in Hupd as [_ ->]. exact Hpx.
Qed.

(** The drawing canvas has pixels throughout a run: it is made with the
    default size, and it takes the size of the renderer's canvas only
    when that one has pixels. So the patch [prepareViewingTexture] cuts
    out of it is never cut out of a canvas without pixels. *)
Lemma drawing_canvas_has_pixels (g : Geometry.t) (r : Renderer.t) (cam : Camera)
    (radius : float) (events : list Event) (p0 p : Page) :
  length (Geometry.faces g) <= 256 ->
  corners_exist g ->
  new_Page g r cam radius = Ok p0 ->
  run events p0 = Ok p ->
  Canvas.has_pixels (_drawingCanvas (_textureManager (controls p))) = true.
Proof.
  intros Hsmall Hc Hnew Hrun.
  destruct (new_Page_ok g r cam radius p0 Hsmall Hc Hnew) as [Hok _].
  assert (Hpx : Canvas.has_pixels (_drawingCanvas (_textureManager (controls p0))) = true).
  { apply new_Page_spec in Hnew as (_ & tm & Hcons & ->). simpl.
    unfold constructor in Hcons. apply bind_Ok in Hcons as (st & _ & Hcons).
    injection Hcons as <-. reflexivity. }
  clear Hnew. revert p0 Hok Hpx Hrun. unfold run.
  induction events as [|e events IH]; intros p0 Hok Hpx Hrun.
  - injection Hrun as <-. exact Hpx.
  - apply for_each_cons in Hrun as (p1 & Hstep & Hrest).
    apply (IH p1); [eapply dispatch_ok; eassumption | | exact Hrest].
    eapply dispatch_pixels; eassumption.
Qed.

(** With a ray caster that reports faces of the mesh and a brush whose
    calls return, on a mesh of at most 256 faces whose faces have their
    corners among the vertices, a call stack that holds more nested calls
    than there are faces and a renderer whose canvas has pixels, the page
    is made, and every list of events that does not resize the
    renderer's canvas to width or height zero runs to its end without an
    error. A renderer canvas without pixels makes the constructor throw
    [InvalidStateError]. *)
Theorem run_returns (g : Geometry.t) (r : Renderer.t) (cam : Camera)
    (radius : float) :
  ray_caster_sound ->
  brush_returns ->
  length (Geometry.faces g) <= 256 ->
  length (Geometry.faces g) < callStack ->
  corners_exist g ->
  if Renderer.visible r then
    exists p0, new_Page g r cam radius = Ok p0
      /\ forall events,
           Forall (fun e => keeps_visible e = true) events ->
           exists p, run events p0 = Ok p
  else new_Page g r cam radius = Throw InvalidStateError.
Proof.
  intros Hray Hbrush Hsmall Hstack Hc. destruct (Renderer.visible r) eqn:Hv.
  2:{ destruct (constructor_total g r cam Hc) as [tm Htm].
      assert (Hr : renderer tm = r).
      { unfold constructor in Htm. apply bind_Ok in Htm as (st & _ & Htm).
        injection Htm as <-. reflexivity. }
      unfold new_Page, new_Controls. rewrite Htm.
      cbn [Js.bind applyViewingTexture]. unfold update, Renderer.drawImage.
      cbn [_textureManager set_camera set_faceVertexUvs0 renderer].
      change (Renderer.visible (Renderer.render (renderer tm)))
        with (Renderer.visible (renderer tm)).
      rewrite Hr, Hv. reflexivity. }
  destruct (new_Page_returns g r cam radius Hc Hv) as [p0 Hnew].
  exists p0. split; [exact Hnew|].
  destruct (new_Page_ok g r cam radius p0 Hsmall Hc Hnew) as [Hok _].
  pose proof (new_Page_runnable g r cam radius p0 Hstack Hnew) as Hcan.
  clear Hnew. intros events. revert p0 Hok Hcan. unfold run.
  induction events as [|e events IH]; intros p Hok Hcan Hkeep; [simpl; eauto|].
  apply Forall_cons in Hkeep as [Hkeep Hkeeps].
  destruct (dispatch_returns e p Hray Hbrush Hok Hcan Hkeep) as [p1 Hstep].
  destruct (IH p1) as [p' Hrest];
    [eapply dispatch_ok; eassumption
    |eapply dispatch_runnable; eassumption
    |exact Hkeeps|].
  exists p'. simpl. rewrite Hstep. exact Hrest.
Qed.


End Pages.

Section Closure.
Context `{Three}.
Variables (center : Vector2.t) (radius : float).
Implicit Types (tm a : TextureManager) (f g h seed : Z).

Lemma scene_adjacent tm tm' g h :
  same_scene tm tm' -> adjacent tm' g h <-> adjacent tm g h.
Proof. intros Hs. unfold adjacent. rewrite (scene_neighbours _ _ Hs). tauto. Qed.

Lemma scene_front tm tm' h : same_scene tm tm' -> front tm' h <-> front tm h.
Proof. intros Hs. unfold front. rewrite (scene_facesCamera _ _ Hs). tauto. Qed.

Lemma adjacent_index tm g h :
  adjacent tm g h -> exists i, i < nAdjacent tm g /\ adjacentFace tm g i = Ok h.
Proof.
  intros [Hg Hh]. unfold neighbours in Hh. unfold adjacentFace.
  destruct (_AdjacentFacesList tm !! Z.to_nat g) as [row|]; [|inversion Hh].
  rewrite Z2Nat.id in Hh by exact Hg.
  apply list_elem_of_lookup_1 in Hh as [i Hi].
  apply lookup_take_Some in Hi as [Hi Hlt].
  exists i. split; [exact Hlt|]. simpl. rewrite Hi. reflexivity.
Qed.

Lemma add_recursive_closed fuel : forall seed tm tm',
  well_formed tm ->
  _add_recursive fuel seed center radius tm = Ok tm' ->
  forall g h,
    marked tm' g = true -> marked tm g = false ->
    adjacent tm g h -> front tm h -> hits tm center radius h = true ->
    marked tm' h = true.
Proof.
  induction fuel as [|fuel IH]; intros seed tm tm' Hwf Hrun; [discriminate|].
  rewrite add_recursive_S in Hrun.
  destruct ((0 <=? seed)%Z && falsy (typed_get (_isFloodFill tm) seed)) eqn:Hguard;
    [|injection Hrun as <-; intros; congruence].
  apply andb_prop in Hguard as [Hpos Hunmarked]. apply Z.leb_le in Hpos.
  apply bind_Ok in Hrun as (uvs & Huvs & Hrun). apply defined_Ok in Huvs.
  destruct (intersects (_drawingCanvas tm) uvs center radius) eqn:Hhit;
    [|injection Hrun as <-; intros; congruence].
  assert (Hseed : (0 <= seed < Z.of_nat (length (Geometry.faces (geometry tm))))%Z).
  { apply lookup_lt_Some in Huvs. rewrite (wf_drawing _ Hwf) in Huvs. lia. }
  assert (Hm0 : marked tm seed = false).
  { unfold marked. rewrite Hunmarked. reflexivity. }
  destruct (mark_face_ok (eq seed) seed tm Hwf Hseed Hm0) as (Hs2 & Hwf2 & _ & _).
  rewrite (scene_nAdjacent _ _ Hs2) in Hrun.
  assert (Hloop : forall (idx : list nat) (a : TextureManager),
             well_formed a -> same_scene tm a ->
             for_each idx
               (visit_neighbour
                  (fun newfaceIndex tm' =>
                     _add_recursive fuel newfaceIndex center radius tm') seed) a
             = Ok tm' ->
             (forall f, marked a f = true -> marked tm' f = true)
             /\ (forall g h, marked tm' g = true -> marked a g = false ->
                   adjacent tm g h -> front tm h -> hits tm center radius h = true ->
                   marked tm' h = true)
             /\ (forall i h, i ∈ idx -> adjacentFace tm seed i = Ok h ->
                   front tm h -> hits tm center radius h = true ->
                   marked tm' h = true)).
  { clear Hrun. induction idx as [|i idx IHidx]; intros a Hwfa Hsa Hfor.
    - injection Hfor as <-. split; [auto|]. split; [intros; congruence|].
      intros i h Hi. inversion Hi.
    - apply for_each_cons in Hfor as (a1 & Hbody & Hrest).
      unfold visit_neighbour in Hbody.
      apply bind_Ok in Hbody as (hi & Hadj & Hbody).
      apply bind_Ok in Hbody as (fr & Hfr & Hbody).
      rewrite (scene_adjacentFace _ _ Hsa) in Hadj.
      rewrite (scene_facesCamera _ _ Hsa) in Hfr.
      assert (Hstep : well_formed a1 /\ same_scene tm a1
                /\ (forall f, marked a f = true -> marked a1 f = true)
                /\ (forall g h, marked a1 g = true -> marked a g = false ->
                      adjacent tm g h -> front tm h ->
                      hits tm center radius h = true -> marked a1 h = true)
                /\ (front tm hi -> hits tm center radius hi = true ->
                    marked a1 hi = true)).
      { destruct fr.
        - pose proof (add_recursive_ok center radius fuel hi a a1 Hwfa Hbody)
            as [Hok Hmark].
          split; [eapply flood_ok_well_formed; eassumption|].
          split; [eapply same_scene_trans; [exact Hsa | apply Hok]|].
          split; [apply Hok|]. split.
          + intros g h Hg1 Hg0 Hgh Hfh Hhh.
            apply (IH hi a a1 Hwfa Hbody g h Hg1 Hg0).
            * apply (scene_adjacent _ _ _ _ Hsa). exact Hgh.
            * apply (scene_front _ _ _ Hsa). exact Hfh.
            * rewrite (scene_hits _ _ Hsa). exact Hhh.
          + intros _ Hhh. destruct (marked a hi) eqn:Hm.
            * apply (fo_marked _ _ _ _ _ Hok). exact Hm.
            * apply Hmark; [|reflexivity]. rewrite (scene_hits _ _ Hsa). exact Hhh.
        - injection Hbody as <-.
          split; [exact Hwfa|]. split; [exact Hsa|]. split; [auto|].
          split; [intros; congruence|].
          intros Hfront. unfold front in Hfront. congruence. }
      destruct Hstep as (Hwf1 & Hs1 & Hmono1 & Hclosed1 & Hhi).
      destruct (IHidx a1 Hwf1 Hs1 Hrest) as (Hmono & Hclosed & Hidx).
      split; [auto|]. split.
      + intros g h Hg' Hga Hgh Hfh Hhh. destruct (marked a1 g) eqn:Hg1.
        * apply Hmono. eapply Hclosed1; eassumption.
        * eapply Hclosed; eassumption.
      + intros k h Hk Hkh Hfh Hhh. apply elem_of_cons in Hk as [->|Hk].
        * rewrite Hadj in Hkh. injection Hkh as <-. apply Hmono, Hhi; assumption.
        * eapply Hidx; eassumption. }
  destruct (Hloop _ _ Hwf2 Hs2 Hrun) as (Hmono & Hclosed & Hidx). clear Hloop.
  assert (Hbm : (0 <= seed < Z.of_nat (length (_isFloodFill tm)))%Z)
    by (rewrite (wf_bitmap _ Hwf); exact Hseed).
  intros g h Hg' Hg Hgh Hfh Hhh.
  destruct (Z.eq_dec g seed) as [->|Hne].
  - destruct (adjacent_index tm seed h Hgh) as (i & Hi & Hih).
    apply (Hidx i h); try assumption. apply elem_of_seq. lia.
  - apply (Hclosed g h); try assumption.
    rewrite marked_mark_face by exact Hbm. rewrite Hg.
    apply Z.eqb_neq in Hne. rewrite Hne. reflexivity.
Qed.

(** The faces a flood-fill run visits are closed under the step of the
    fill: when the run has visited a face, it has also visited every
    neighbour of that face that passes the front-facing filter and the
    circle test. *)
Theorem flood_fill_closed (fuel : nat) (seed : Z) (tm tm' : TextureManager) :
  well_formed tm ->
  _add_recursive fuel seed center radius tm = Ok tm' ->
  (hits tm center radius seed = true -> marked tm' seed = true)
  /\ forall g h,
       marked tm' g = true -> marked tm g = false ->
       adjacent tm g h -> front tm h -> hits tm center radius h = true ->
       marked tm' h = true.
Proof.
  intros Hwf Hrun. split; [|eapply add_recursive_closed; eassumption].
  intros Hhit. destruct (add_recursive_ok center radius fuel seed tm tm' Hwf Hrun)
    as [Hok Hmark].
  destruct (marked tm seed) eqn:Hm; [apply (fo_marked _ _ _ _ _ Hok), Hm | auto].
Qed.

End Closure.

Section StrokeMarks.
Context `{Three}.
Implicit Types (tm : TextureManager) (f g h seed : Z).

(** A stroke sample that hits a face marks exactly the faces linked to the
    hit face by a chain of neighbours, every face of which passes the
    circle test and every face of which after the hit face passes the
    front-facing filter; the affected faces afterwards are those of before
    and the marked ones. *)
Theorem stroke_marks_exactly (canvasPos : Vector2.t) (radius : float)
    (tm tm' : TextureManager) (hit : Face3.t) (rest : list Face3.t) :
  well_formed tm ->
  _castRayFromMouse canvasPos tm = hit :: rest ->
  onStrokePainted canvasPos radius tm = Ok tm' ->
  (forall f, marked tm' f = true
             <-> connected tm canvasPos radius (fun _ => True)
                   (Face3.materialIndex hit) f)
  /\ (forall f, affected tm' f = true
                <-> affected tm f = true \/ marked tm' f = true).
Proof.
  intros Hwf Hray Hrun.
  pose proof (onStrokePainted_sample _ _ _ _ Hwf Hrun) as Hok. rewrite Hray in Hok.
  rewrite onStrokePainted_unfold, Hray in Hrun by exact Hwf.
  destruct (well_formed_reset tm Hwf) as (_ & Hwf0 & Hm0).
  set (tm0 := sample_start tm) in *.
  set (seed := Face3.materialIndex hit) in *.
  pose proof (add_recursive_closed canvasPos radius _ seed tm0 tm' Hwf0 Hrun)
    as Hclosed.
  assert (Hseed : hits tm0 canvasPos radius seed = true -> marked tm' seed = true).
  { intros Hh.
    apply (add_recursive_ok canvasPos radius _ seed tm0 tm' Hwf0 Hrun); [exact Hh|].
    apply Hm0. }
  assert (Hconn : forall M f, connected tm0 canvasPos radius M seed f
                              <-> connected tm canvasPos radius M seed f).
  { intros M f. apply sample_start_connected. }
  split.
  - intros f. rewrite <- Hconn. split.
    + intros Hf.
      destruct (fo_connected _ _ _ _ _ Hok (fun _ => True)) with (f := f)
        as (root & <- & Hc); [tauto | exact Hf | apply Hm0 |].
      exact Hc.
    + induction 1 as [Hh _|g h Hc IH Ha Hf Hh _].
      * apply Hseed, Hh.
      * apply (Hclosed g h); try assumption. apply Hm0.
  - intros f. split.
    + intros Hf. destruct (affected tm f) eqn:Ha; [auto|]. right.
      apply (fo_new_marked _ _ _ _ _ Hok f Hf Ha).
    + intros [Ha|Hm].
      * apply (fo_affected _ _ _ _ _ Hok). exact Ha.
      * apply (fo_new_affected _ _ _ _ _ Hok f Hm). apply Hm0.
Qed.

End StrokeMarks.

Section Switches.
Context `{Three}.
Implicit Types (tm : TextureManager) (c : Controls).

(** A flood-fill run from a face of a well-formed texture manager returns
    or exhausts the call stack: it reads no entry that is not there. *)
Lemma add_recursive_outcome (center : Vector2.t) (radius : float) (fuel : nat) :
  forall (seed : Z) tm,
  well_formed tm ->
  (seed < Z.of_nat (length (Geometry.faces (geometry tm))))%Z ->
  (exists tm', _add_recursive fuel seed center radius tm = Ok tm')
  \/ _add_recursive fuel seed center radius tm = Throw RangeError.
Proof.
  induction fuel as [|fuel IH]; intros seed tm Hwf Hseed; [right; reflexivity|].
  rewrite add_recursive_S.
  destruct ((0 <=? seed)%Z && falsy (typed_get (_isFloodFill tm) seed)) eqn:Hguard;
    [|eauto].
  apply andb_prop in Hguard as [Hpos Hunmarked]. apply Z.leb_le in Hpos.
  destruct (lookup_lt_is_Some_2 (_drawingTextureUvs tm) (Z.to_nat seed)) as [uvs Huvs].
  { rewrite (wf_drawing _ Hwf). lia. }
  rewrite Huvs. simpl.
  destruct (intersects (_drawingCanvas tm) uvs center radius); [|eauto].
  assert (Hm0 : marked tm seed = false).
  { unfold marked. rewrite Hunmarked. reflexivity. }
  destruct (mark_face_ok (eq seed) seed tm Hwf (conj Hpos Hseed) Hm0)
    as (Hs2 & Hwf2 & _ & _).
  rewrite (scene_nAdjacent _ _ Hs2).
  assert (Hloop : forall (idx : list nat) (a : TextureManager),
             (forall i, i ∈ idx -> i < nAdjacent tm seed) ->
             well_formed a -> same_scene tm a ->
             (exists b,
                for_each idx
                  (visit_neighbour
                     (fun newfaceIndex tm' =>
                        _add_recursive fuel newfaceIndex center radius tm') seed) a
                = Ok b)
             \/ for_each idx
                  (visit_neighbour
                     (fun newfaceIndex tm' =>
                        _add_recursive fuel newfaceIndex center radius tm') seed) a
                = Throw RangeError).
  { induction idx as [|i idx IHidx]; intros a Hidx Hwfa Hsa; [simpl; eauto|].
    simpl. unfold visit_neighbour at 1 3.
    pose proof (scene_geometry _ _ Hsa) as Hg.
    destruct (adjacentFace_defined a seed i Hwfa) as [h Hh].
    { rewrite Hg. lia. }
    { rewrite (scene_nAdjacent _ _ Hsa). apply Hidx. left. }
    rewrite Hh. simpl.
    assert (Hhr : (0 <= h < Z.of_nat (length (Geometry.faces (geometry a))))%Z).
    { eapply (wf_neighbours _ Hwfa (Z.to_nat seed)).
      eapply adjacentFace_adjacent; [exact Hpos| |exact Hh].
      rewrite (scene_nAdjacent _ _ Hsa). apply Hidx. left. }
    destruct (facesCamera_defined a h Hhr) as [fr Hfr]. rewrite Hfr. simpl.
    assert (Hnext : forall a1, flood_ok center radius (eq h) a a1 ->
               (exists b, for_each idx
                  (visit_neighbour
                     (fun newfaceIndex tm' =>
                        _add_recursive fuel newfaceIndex center radius tm') seed) a1
                = Ok b)
               \/ for_each idx
                    (visit_neighbour
                       (fun newfaceIndex tm' =>
                          _add_recursive fuel newfaceIndex center radius tm') seed) a1
                  = Throw RangeError).
    { intros a1 Hok. apply IHidx.
      - intros k Hk. apply Hidx. right. exact Hk.
      - eapply flood_ok_well_formed; eassumption.
      - eapply same_scene_trans; [exact Hsa | apply Hok]. }
    destruct fr.
    - destruct (IH h a Hwfa) as [[a1 Ha1]|Hthrow]; [lia| |].
      + rewrite Ha1. simpl. apply Hnext. eapply add_recursive_ok; eassumption.
      + rewrite Hthrow. right. reflexivity.
    - simpl. apply Hnext. apply flood_ok_refl. exact Hwfa. }
  apply Hloop; [|exact Hwf2|exact Hs2].
  intros i Hi. apply elem_of_seq in Hi. lia.
Qed.

(** The outcome of a stroke sample: no change when the ray hits nothing.
    When it hits a face and the call stack holds no call at all, a
    [RangeError]; otherwise a [TypeError] when the material index of the
    hit face is not below the number of faces; and when it is, a normal
    return or a [RangeError] for exhausting the call stack, which does
    not happen when the stack holds more nested calls than there are
    faces. *)
Theorem onStrokePainted_outcome (canvasPos : Vector2.t) (radius : float) tm :
  well_formed tm ->
  match _castRayFromMouse canvasPos tm with
  | [] => onStrokePainted canvasPos radius tm = Ok tm
  | hit :: _ =>
      if (callStack =? 0)%nat
      then onStrokePainted canvasPos radius tm = Throw RangeError
      else if (Face3.materialIndex hit
               <? Z.of_nat (length (Geometry.faces (geometry tm))))%Z
      then ((exists tm', onStrokePainted canvasPos radius tm = Ok tm')
            \/ onStrokePainted canvasPos radius tm = Throw RangeError)
           /\ (length (Geometry.faces (geometry tm)) < callStack ->
               exists tm', onStrokePainted canvasPos radius tm = Ok tm')
      else onStrokePainted canvasPos radius tm = Throw TypeError
  end.
Proof.
  intros Hwf. rewrite onStrokePainted_unfold by exact Hwf.
  destruct (_castRayFromMouse canvasPos tm) as [|hit rest]; [reflexivity|].
  destruct (well_formed_reset tm Hwf) as (_ & Hwf0 & Hm0).
  set (tm0 := sample_start tm) in *.
  set (seed := Face3.materialIndex hit).
  destruct callStack as [|stack] eqn:Hstack; [reflexivity|].
  cbn [Nat.eqb].
  destruct (Z.ltb_spec seed (Z.of_nat (length (Geometry.faces (geometry tm)))))
    as [Hlt|Hge].
  - split; [apply add_recursive_outcome; [exact Hwf0 | exact Hlt]|].
    intros Hroom. apply add_recursive_total; [exact Hwf0 | exact Hlt |].
    change (_isFloodFill tm0) with (_isFloodFillEmpty tm).
    eapply Nat.le_lt_trans; [apply unmarked_length|].
    rewrite (wf_bitmap_empty _ Hwf). unfold typed_new. rewrite length_replicate.
    exact Hroom.
  - rewrite add_recursive_S.
    replace (0 <=? seed)%Z with true by (symmetry; apply Z.leb_le; lia).
    specialize (Hm0 seed). unfold marked in Hm0. apply negb_false_iff in Hm0.
    rewrite Hm0. simpl.
    change (_drawingTextureUvs tm0) with (_drawingTextureUvs tm).
    rewrite lookup_ge_None_2; [reflexivity|].
    rewrite (wf_drawing _ Hwf). lia.
Qed.

(** Each switch does nothing when its texture is already in use: a
    second call in a row returns the controls unchanged, without a
    render and without touching a texture. *)
Theorem switch_idempotent c c' :
  (_useViewingTexture c = Ok c' -> _useViewingTexture c' = Ok c')
  /\ (_useDrawingTexture c = Ok c' -> _useDrawingTexture c' = Ok c').
Proof.
  split; intros Hrun.
  - apply useViewingTexture_spec in Hrun as [[Hflag ->]|(_ & tm1 & _ & ->)];
      unfold _useViewingTexture; [rewrite Hflag|]; reflexivity.
  - apply useDrawingTexture_spec in Hrun as [[Hflag ->]|(_ & tm1 & _ & ->)];
      unfold _useDrawingTexture; [rewrite Hflag|]; reflexivity.
Qed.

(** Switching to the drawing texture and back while no face is affected
    renders once and leaves the viewing material and the viewing UVs as
    they were; the mesh shows the viewing texture again. *)
Theorem switch_round_trip c c1 c2 :
  _usingViewingTexture c = true ->
  AffectedFacesRecorder.length (_affectedFaces (_textureManager c)) = 0 ->
  _useDrawingTexture c = Ok c1 ->
  _useViewingTexture c1 = Ok c2 ->
  _viewingMaterial (_textureManager c2) = _viewingMaterial (_textureManager c)
  /\ _viewingTextureUvs (_textureManager c2) = _viewingTextureUvs (_textureManager c)
  /\ _affectedFaces (_textureManager c2) = _affectedFaces (_textureManager c)
  /\ Renderer.renderCalls (renderer (_textureManager c2))
     = S (Renderer.renderCalls (renderer (_textureManager c)))
  /\ _usingViewingTexture c2 = true
  /\ material (_mesh c2) = ViewingLayer
  /\ Geometry.faceVertexUvs0 (geometry (_textureManager c2)) = ViewingLayer
  /\ _state c2 = _state c.
Proof.
  intros Hflag Hn Hdraw Hview.
  apply useDrawingTexture_spec in Hdraw as [[Hflag' _]|(_ & tm1 & Hprep & ->)];
    [congruence|].
  unfold prepareDrawingTexture in Hprep.
  apply bind_Ok in Hprep as (drawn & _ & Hprep).
  apply bind_Ok in Hprep as (vertexUvs & _ & Hprep).
  apply bind_Ok in Hprep as (uvs & _ & Hprep). injection Hprep as <-.
  apply useViewingTexture_spec in Hview as [[Hflag' _]|(_ & tm2 & Hprep & ->)];
    [discriminate|].
  unfold prepareViewingTexture in Hprep.
  match type of Hprep with
  | context [(0 <? ?n)%nat] =>
      replace (0 <? n)%nat with false in Hprep
        by (symmetry; apply Nat.ltb_ge; simpl; rewrite Hn; reflexivity)
  end.
  injection Hprep as <-. simpl. repeat split; reflexivity.
Qed.

End Switches.

Section FloatOrder.
Local Open Scope float_scope.

Ltac compare_cases :=
  repeat match goal with
         | H : context [Z.compare ?x ?y] |- _ => destruct (Z.compare_spec x y)
         | |- context [Z.compare ?x ?y] => destruct (Z.compare_spec x y)
         | H : context [Pos.compare_cont Eq ?x ?y] |- _ =>
             change (Pos.compare_cont Eq x y) with (Pos.compare x y) in H;
             destruct (Pos.compare_spec x y)
         | |- context [Pos.compare_cont Eq ?x ?y] =>
             change (Pos.compare_cont Eq x y) with (Pos.compare x y);
             destruct (Pos.compare_spec x y)
         end.

Lemma SFleb_trans (a b c : spec_float) :
  SFleb a b = true -> SFleb b c = true -> SFleb a c = true.
Proof.
  unfold SFleb, SFcompare.
  destruct a as [sa|sa| |sa ma ea], b as [sb|sb| |sb mb eb], c as [sc|sc| |sc mc ec];
    try destruct sa; try destruct sb; try destruct sc; simpl;
    try reflexivity; try discriminate;
    compare_cases; simpl; try reflexivity; try discriminate; intros; subst; lia.
Qed.

Lemma SFleb_total (a b : spec_float) :
  a <> S754_nan -> b <> S754_nan -> SFltb a b = false -> SFleb b a = true.
Proof.
  unfold SFleb, SFltb, SFcompare.
  destruct a as [sa|sa| |sa ma ea], b as [sb|sb| |sb mb eb];
    try destruct sa; try destruct sb; simpl;
    try reflexivity; try discriminate; try congruence;
    compare_cases; simpl; try reflexivity; try discriminate; intros; subst; lia.
Qed.

Lemma SFltb_leb (a b : spec_float) : SFltb a b = true -> SFleb a b = true.
Proof. unfold SFleb, SFltb. destruct (SFcompare a b) as [[| |]|]; auto. Qed.

Lemma SFleb_refl (a : spec_float) : a <> S754_nan -> SFleb a a = true.
Proof.
  unfold SFleb, SFcompare. destruct a as [sa|sa| |sa ma ea]; try destruct sa; simpl;
    try reflexivity; try congruence; intros _;
    rewrite Z.compare_refl;
    change (Pos.compare_cont Eq ma ma) with (Pos.compare ma ma);
    rewrite Pos.compare_refl; reflexivity.
Qed.

Lemma is_nan_SF (x : float) : is_nan x = false <-> Prim2SF x <> S754_nan.
Proof.
  unfold is_nan. rewrite FloatAxioms.eqb_spec. unfold SFeqb.
  split.
  - intros Hx E. rewrite E in Hx. discriminate.
  - intros Hx. pose proof (SFleb_refl _ Hx) as Hr. unfold SFleb in Hr.
    destruct (Prim2SF x) as [s|s| |s m e] eqn:E; try congruence;
      unfold SFcompare in *; try destruct s; simpl in *; try reflexivity;
      rewrite Z.compare_refl in *;
      change (Pos.compare_cont Eq m m) with (Pos.compare m m) in *;
      rewrite Pos.compare_refl in *; reflexivity.
Qed.

Lemma leb_trans (x y z : float) : (x <=? y) = true -> (y <=? z) = true -> (x <=? z) = true.
Proof. rewrite !FloatAxioms.leb_spec. apply SFleb_trans. Qed.

Lemma leb_refl (x : float) : is_nan x = false -> (x <=? x) = true.
Proof. rewrite FloatAxioms.leb_spec, is_nan_SF. apply SFleb_refl. Qed.

Lemma ltb_leb (x y : float) : (x <? y) = true -> (x <=? y) = true.
Proof. rewrite FloatAxioms.ltb_spec, FloatAxioms.leb_spec. apply SFltb_leb. Qed.

Lemma not_ltb_leb (x y : float) :
  is_nan x = false -> is_nan y = false -> (x <? y) = false -> (y <=? x) = true.
Proof.
  rewrite FloatAxioms.ltb_spec, FloatAxioms.leb_spec, !is_nan_SF. apply SFleb_total.
Qed.

Lemma zeros_leb (x y : float) : (x =? 0) = true -> (y =? 0) = true -> (x <=? y) = true.
Proof.
  rewrite !FloatAxioms.eqb_spec, FloatAxioms.leb_spec.
  change (Prim2SF 0) with (S754_zero false).
  unfold SFeqb, SFleb, SFcompare.
  destruct (Prim2SF x) as [s|s| |s m e], (Prim2SF y) as [s'|s'| |s' m' e'];
    try destruct s; try destruct s'; simpl; try reflexivity; discriminate.
Qed.

Lemma neg_infinity_leb (x : float) : is_nan x = false -> (neg_infinity <=? x) = true.
Proof.
  rewrite FloatAxioms.leb_spec, is_nan_SF.
  change (Prim2SF neg_infinity) with (S754_infinity true).
  unfold SFleb, SFcompare.
  destruct (Prim2SF x) as [s|s| |s m e]; try destruct s; simpl; try reflexivity; congruence.
Qed.

Lemma leb_infinity (x : float) : is_nan x = false -> (x <=? infinity) = true.
Proof.
  rewrite FloatAxioms.leb_spec, is_nan_SF.
  change (Prim2SF infinity) with (S754_infinity false).
  unfold SFleb, SFcompare.
  destruct (Prim2SF x) as [s|s| |s m e]; try destruct s; simpl; try reflexivity; congruence.
Qed.

(** [Math.max] and [Math.min] on numbers: the result is a number, above
    (below) every argument. *)
Lemma max_from_upper (xs : list float) : forall highest : float,
  is_nan highest = false ->
  (forall x, x ∈ xs -> is_nan x = false) ->
  is_nan (max_from highest xs) = false
  /\ (highest <=? max_from highest xs) = true
  /\ (forall x, x ∈ xs -> (x <=? max_from highest xs) = true).
Proof.
  induction xs as [|x xs IH]; intros highest Hh Hxs.
  - simpl. split; [exact Hh|]. split; [apply leb_refl, Hh|]. intros x Hx. inversion Hx.
  - assert (Hx : is_nan x = false) by (apply Hxs, elem_of_cons; auto).
    assert (Hrest : forall y, y ∈ xs -> is_nan y = false)
      by (intros y Hy; apply Hxs, elem_of_cons; auto).
    simpl. rewrite Hx.
    destruct (IH x Hx Hrest) as (Nx & Lx & Ax).
    destruct (IH highest Hh Hrest) as (Nh & Lh & Ah).
    destruct (is_pos_zero x && is_neg_zero highest) eqn:Hz.
    { apply andb_prop in Hz as [Hpz Hnz].
      unfold is_pos_zero in Hpz. unfold is_neg_zero in Hnz.
      apply andb_prop in Hpz as [Hx0 _]. apply andb_prop in Hnz as [Hh0 _].
      split; [exact Nx|]. split.
      - apply (leb_trans highest x _); [apply zeros_leb; assumption | exact Lx].
      - intros y Hy. apply elem_of_cons in Hy as [->|Hy]; auto. }
    destruct (highest <? x) eqn:Hlt.
    + split; [exact Nx|]. split.
      * apply (leb_trans highest x _); [apply ltb_leb, Hlt | exact Lx].
      * intros y Hy. apply elem_of_cons in Hy as [->|Hy]; auto.
    + split; [exact Nh|]. split; [exact Lh|].
      intros y Hy. apply elem_of_cons in Hy as [->|Hy]; auto.
      apply (leb_trans x highest _); [apply not_ltb_leb; assumption | exact Lh].
Qed.

Lemma min_from_lower (xs : list float) : forall lowest : float,
  is_nan lowest = false ->
  (forall x, x ∈ xs -> is_nan x = false) ->
  is_nan (min_from lowest xs) = false
  /\ (min_from lowest xs <=? lowest) = true
  /\ (forall x, x ∈ xs -> (min_from lowest xs <=? x) = true).
Proof.
  induction xs as [|x xs IH]; intros lowest Hl Hxs.
  - simpl. split; [exact Hl|]. split; [apply leb_refl, Hl|]. intros x Hx. inversion Hx.
  - assert (Hx : is_nan x = false) by (apply Hxs, elem_of_cons; auto).
    assert (Hrest : forall y, y ∈ xs -> is_nan y = false)
      by (intros y Hy; apply Hxs, elem_of_cons; auto).
    simpl. rewrite Hx.
    destruct (IH x Hx Hrest) as (Nx & Lx & Ax).
    destruct (IH lowest Hl Hrest) as (Nl & Ll & Al).
    destruct (is_neg_zero x && is_pos_zero lowest) eqn:Hz.
    { apply andb_prop in Hz as [Hnz Hpz].
      unfold is_pos_zero in Hpz. unfold is_neg_zero in Hnz.
      apply andb_prop in Hpz as [Hl0 _]. apply andb_prop in Hnz as [Hx0 _].
      split; [exact Nx|]. split.
      - apply (leb_trans _ x lowest); [exact Lx | apply zeros_leb; assumption].
      - intros y Hy. apply elem_of_cons in Hy as [->|Hy]; auto. }
    destruct (x <? lowest) eqn:Hlt.
    + split; [exact Nx|]. split.
      * apply (leb_trans _ x lowest); [exact Lx | apply ltb_leb, Hlt].
      * intros y Hy. apply elem_of_cons in Hy as [->|Hy]; auto.
    + split; [exact Nl|]. split; [exact Ll|].
      intros y Hy. apply elem_of_cons in Hy as [->|Hy]; auto.
      apply (leb_trans _ lowest x); [exact Ll | apply not_ltb_leb; assumption].
Qed.

Lemma Math_max_upper (xs : list float) :
  (forall x, x ∈ xs -> is_nan x = false) ->
  is_nan (Math_max xs) = false /\ forall x, x ∈ xs -> (x <=? Math_max xs) = true.
Proof.
  intros Hxs. destruct (max_from_upper xs neg_infinity eq_refl Hxs) as (Hn & _ & Hu). auto.
Qed.

Lemma Math_min_lower (xs : list float) :
  (forall x, x ∈ xs -> is_nan x = false) ->
  is_nan (Math_min xs) = false /\ forall x, x ∈ xs -> (Math_min xs <=? x) = true.
Proof.
  intros Hxs. destruct (min_from_lower xs infinity eq_refl Hxs) as (Hn & _ & Hu). auto.
Qed.

End FloatOrder.

Section PatchBounds.
Context `{Three}.
Local Open Scope float_scope.
Implicit Types (tm : TextureManager) (bd : Bounds) (uv : Vector2.t).

Lemma grow_bounds_spec tm (f : Z) bd bd' :
  grow_bounds tm (Some f) bd = Ok bd' ->
  exists uv0 uv1 uv2,
    element (_drawingTextureUvs tm) f = Some (uv0, uv1, uv2)
    /\ bd' = mkBounds
               (Math_max [uMax bd; Vector2.x uv0; Vector2.x uv1; Vector2.x uv2])
               (Math_min [uMin bd; Vector2.x uv0; Vector2.x uv1; Vector2.x uv2])
               (Math_max [vMax bd; Vector2.y uv0; Vector2.y uv1; Vector2.y uv2])
               (Math_min [vMin bd; Vector2.y uv0; Vector2.y uv1; Vector2.y uv2]).
Proof.
  unfold grow_bounds. simpl. intros Hrun.
  apply bind_Ok in Hrun as ([[uv0 uv1] uv2] & Hd & Hrun). apply defined_Ok in Hd.
  injection Hrun as <-. eauto.
Qed.

Lemma grow_all tm : forall (items : list Z) bd0 bd,
  for_each (Some <$> items) (grow_bounds tm) bd0 = Ok bd ->
  is_nan (uMax bd0) = false -> is_nan (uMin bd0) = false ->
  is_nan (vMax bd0) = false -> is_nan (vMin bd0) = false ->
  (forall f uv0 uv1 uv2 uv,
     f ∈ items -> element (_drawingTextureUvs tm) f = Some (uv0, uv1, uv2) ->
     uv ∈ [uv0; uv1; uv2] ->
     is_nan (Vector2.x uv) = false /\ is_nan (Vector2.y uv) = false) ->
  (is_nan (uMax bd) = false /\ is_nan (uMin bd) = false
   /\ is_nan (vMax bd) = false /\ is_nan (vMin bd) = false)
  /\ ((uMax bd0 <=? uMax bd) = true /\ (uMin bd <=? uMin bd0) = true
      /\ (vMax bd0 <=? vMax bd) = true /\ (vMin bd <=? vMin bd0) = true)
  /\ (forall f uv0 uv1 uv2 uv,
        f ∈ items -> element (_drawingTextureUvs tm) f = Some (uv0, uv1, uv2) ->
        uv ∈ [uv0; uv1; uv2] ->
        (uMin bd <=? Vector2.x uv) = true /\ (Vector2.x uv <=? uMax bd) = true
        /\ (vMin bd <=? Vector2.y uv) = true /\ (Vector2.y uv <=? vMax bd) = true).
Proof.
  induction items as [|f items IH]; intros bd0 bd Hrun N1 N2 N3 N4 Hnum.
  - injection Hrun as <-. split; [auto|]. split.
    + repeat split; apply leb_refl; assumption.
    + intros f uv0 uv1 uv2 uv Hf. inversion Hf.
  - rewrite fmap_cons in Hrun. apply for_each_cons in Hrun as (bd1 & Hstep & Hrest).
    apply grow_bounds_spec in Hstep as (uv0 & uv1 & uv2 & Huv & ->).
    assert (Hc : forall uv, uv ∈ [uv0; uv1; uv2] ->
              is_nan (Vector2.x uv) = false /\ is_nan (Vector2.y uv) = false).
    { intros uv Huv'. apply (Hnum f uv0 uv1 uv2 uv); [apply elem_of_cons; auto | | ]; assumption. }
    assert (Hin : forall uv (l : list Vector2.t) (g : Vector2.t -> float) (b : float),
              uv ∈ l -> g uv ∈ b :: (g <$> l)).
    { intros uv l g b Hl. apply elem_of_cons. right. apply list_elem_of_fmap. eauto. }
    assert (Hxs : forall b : float, is_nan b = false ->
              forall v, v ∈ b :: (Vector2.x <$> [uv0; uv1; uv2]) -> is_nan v = false).
    { intros b Hb v Hv. apply elem_of_cons in Hv as [->|Hv]; [exact Hb|].
      apply list_elem_of_fmap in Hv as (uv & -> & Huv'). apply Hc, Huv'. }
    assert (Hys : forall b : float, is_nan b = false ->
              forall v, v ∈ b :: (Vector2.y <$> [uv0; uv1; uv2]) -> is_nan v = false).
    { intros b Hb v Hv. apply elem_of_cons in Hv as [->|Hv]; [exact Hb|].
      apply list_elem_of_fmap in Hv as (uv & -> & Huv'). apply Hc, Huv'. }
    destruct (Math_max_upper _ (Hxs _ N1)) as [M1 U1].
    destruct (Math_min_lower _ (Hxs _ N2)) as [M2 U2].
    destruct (Math_max_upper _ (Hys _ N3)) as [M3 U3].
    destruct (Math_min_lower _ (Hys _ N4)) as [M4 U4].
    change (Vector2.x <$> [uv0; uv1; uv2])
      with [Vector2.x uv0; Vector2.x uv1; Vector2.x uv2] in *.
    change (Vector2.y <$> [uv0; uv1; uv2])
      with [Vector2.y uv0; Vector2.y uv1; Vector2.y uv2] in *.
    destruct (IH _ bd Hrest) as (Nbd & (G1 & G2 & G3 & G4) & Hcover);
      [exact M1 | exact M2 | exact M3 | exact M4 | |].
    { intros g w0 w1 w2 w Hg. apply Hnum. apply elem_of_cons. auto. }
    simpl in G1, G2, G3, G4.
    split; [exact Nbd|]. split.
    + split; [|split; [|split]].
      * eapply leb_trans; [apply U1, elem_of_cons; auto | exact G1].
      * eapply leb_trans; [exact G2 | apply U2, elem_of_cons; auto].
      * eapply leb_trans; [apply U3, elem_of_cons; auto | exact G3].
      * eapply leb_trans; [exact G4 | apply U4, elem_of_cons; auto].
    + intros g w0 w1 w2 w Hg Hw Hwin. apply elem_of_cons in Hg as [->|Hg].
      * rewrite Huv in Hw. injection Hw as <- <- <-.
        split; [|split; [|split]].
        -- eapply leb_trans; [exact G2 | apply U2; exact (Hin w [uv0; uv1; uv2] Vector2.x (uMin bd0) Hwin)].
        -- eapply leb_trans; [apply U1; exact (Hin w [uv0; uv1; uv2] Vector2.x (uMax bd0) Hwin) | exact G1].
        -- eapply leb_trans; [exact G4 | apply U4; exact (Hin w [uv0; uv1; uv2] Vector2.y (vMin bd0) Hwin)].
        -- eapply leb_trans; [apply U3; exact (Hin w [uv0; uv1; uv2] Vector2.y (vMax bd0) Hwin) | exact G3].
      * eapply Hcover; eassumption.
Qed.

(** When no drawing UV of an affected face is NaN, the bounds computed by
    [prepareViewingTexture] are numbers and enclose every corner of every
    affected face. *)
Theorem patch_bounds_cover tm bd :
  well_formed tm ->
  patch_bounds tm = Ok bd ->
  (forall (f : Z) uv0 uv1 uv2 uv,
     affected tm f = true ->
     element (_drawingTextureUvs tm) f = Some (uv0, uv1, uv2) ->
     uv ∈ [uv0; uv1; uv2] ->
     is_nan (Vector2.x uv) = false /\ is_nan (Vector2.y uv) = false) ->
  (is_nan (uMax bd) = false /\ is_nan (uMin bd) = false
   /\ is_nan (vMax bd) = false /\ is_nan (vMin bd) = false)
  /\ (forall (f : Z) uv0 uv1 uv2 uv,
        affected tm f = true ->
        element (_drawingTextureUvs tm) f = Some (uv0, uv1, uv2) ->
        uv ∈ [uv0; uv1; uv2] ->
        (uMin bd <=? Vector2.x uv) = true /\ (Vector2.x uv <=? uMax bd) = true
        /\ (vMin bd <=? Vector2.y uv) = true /\ (Vector2.y uv <=? vMax bd) = true).
Proof.
  intros Hwf Hrun Hnum. unfold patch_bounds in Hrun.
  rewrite affected_list_members in Hrun by exact Hwf.
  destruct (grow_all tm _ _ _ Hrun eq_refl eq_refl eq_refl eq_refl)
    as (Hn & _ & Hcover).
  { intros f uv0 uv1 uv2 uv Hf. apply Hnum. apply affected_members; assumption. }
  split; [exact Hn|].
  intros f uv0 uv1 uv2 uv Hf. apply Hcover. apply affected_members; assumption.
Qed.

End PatchBounds.

Section NotANumber.
Local Open Scope float_scope.

Lemma is_nan_eq (x : float) : is_nan x = true -> x = nan.
Proof.
  intros Hx. apply Prim2SF_inj. change (Prim2SF nan) with S754_nan.
  destruct (Prim2SF x) as [s|s| |s m e] eqn:E; [| |reflexivity|];
    (assert (Hn : is_nan x = false) by (apply is_nan_SF; rewrite E; discriminate));
    congruence.
Qed.

Lemma nan_sub (x : float) : nan - x = nan.
Proof.
  apply Prim2SF_inj. rewrite FloatAxioms.sub_spec.
  change (Prim2SF nan) with S754_nan. reflexivity.
Qed.

Lemma nan_mul (x : float) : nan * x = nan.
Proof.
  apply Prim2SF_inj. rewrite FloatAxioms.mul_spec.
  change (Prim2SF nan) with S754_nan. reflexivity.
Qed.

Lemma mul_nan (x : float) : x * nan = nan.
Proof.
  apply Prim2SF_inj. rewrite FloatAxioms.mul_spec.
  change (Prim2SF nan) with S754_nan.
  destruct (Prim2SF x) as [s|s| |s m e]; reflexivity.
Qed.

Lemma nan_add (x : float) : nan + x = nan.
Proof.
  apply Prim2SF_inj. rewrite FloatAxioms.add_spec.
  change (Prim2SF nan) with S754_nan. reflexivity.
Qed.

Lemma add_nan (x : float) : x + nan = nan.
Proof.
  apply Prim2SF_inj. rewrite FloatAxioms.add_spec.
  change (Prim2SF nan) with S754_nan.
  destruct (Prim2SF x) as [s|s| |s m e]; reflexivity.
Qed.

Lemma not_le_nan (x : float) : (x <=? nan) = false.
Proof.
  rewrite FloatAxioms.leb_spec. change (Prim2SF nan) with S754_nan.
  destruct (Prim2SF x) as [s|s| |s m e]; reflexivity.
Qed.

Ltac absorb :=
  repeat first [ rewrite nan_sub | rewrite sub_nan | rewrite nan_mul | rewrite mul_nan
               | rewrite nan_add | rewrite add_nan ].

Lemma pointInTriangle_nan (point t0 t1 t2 : Vector2.t) :
  is_nan (Vector2.x point) || is_nan (Vector2.y point) = true ->
  _pointInTriangle point t0 t1 t2 = false.
Proof.
  intros Hp. destruct point as [px py]. simpl in Hp.
  unfold _pointInTriangle, bary_numerators. simpl.
  apply orb_prop in Hp as [Hx|Hy].
  - apply is_nan_eq in Hx. subst px. absorb. rewrite not_le_nan. reflexivity.
  - apply is_nan_eq in Hy. subst py. absorb. rewrite not_le_nan. reflexivity.
Qed.

Lemma pointCircleCollide_nan (point circle : Vector2.t) (r : float) :
  is_nan (Vector2.x circle) || is_nan (Vector2.y circle) = true ->
  _pointCircleCollide point circle r = false.
Proof.
  intros Hc. destruct circle as [cx cy]. simpl in Hc.
  unfold _pointCircleCollide. simpl. destruct (r =? 0); [reflexivity|].
  apply orb_prop in Hc as [Hx|Hy].
  - apply is_nan_eq in Hx. subst cx. absorb. apply nan_not_le.
  - apply is_nan_eq in Hy. subst cy. absorb. apply nan_not_le.
Qed.

Lemma lineCircleCollide_nan (a b circle : Vector2.t) (r : float) :
  is_nan (Vector2.x circle) || is_nan (Vector2.y circle) = true ->
  _lineCircleCollide a b circle r = false.
Proof.
  intros Hc. unfold _lineCircleCollide.
  rewrite !pointCircleCollide_nan by exact Hc.
  destruct (0 <? _); rewrite pointCircleCollide_nan by exact Hc; reflexivity.
Qed.

End NotANumber.

Section NanStroke.
Context `{Three}.
Implicit Types (tm : TextureManager).

(** A stroke sample at a position with a NaN coordinate passes none of
    the tests, on any face and with any radius, so a flood-fill run around
    it that returns has changed nothing. *)
Theorem stroke_at_nan (center : Vector2.t) (radius : float) (fuel : nat) (seed : Z)
    tm tm' :
  is_nan (Vector2.x center) || is_nan (Vector2.y center) = true ->
  _add_recursive fuel seed center radius tm = Ok tm' ->
  tm' = tm /\ forall f, hits tm center radius f = false.
Proof.
  intros Hnan Hrun.
  assert (Hmiss : forall canvas uvs, intersects canvas uvs center radius = false).
  { intros canvas [[uv1 uv2] uv3]. unfold intersects.
    rewrite pointInTriangle_nan by exact Hnan.
    rewrite !lineCircleCollide_nan by exact Hnan. reflexivity. }
  split.
  - destruct fuel as [|fuel]; [discriminate|].
    rewrite add_recursive_S in Hrun.
    destruct ((0 <=? seed)%Z && falsy (typed_get (_isFloodFill tm) seed));
      [|congruence].
    apply bind_Ok in Hrun as (uvs & _ & Hrun). rewrite Hmiss in Hrun. congruence.
  - intros f. unfold hits. destruct (_drawingTextureUvs tm !! Z.to_nat f);
      [rewrite Hmiss|]; apply andb_false_r.
Qed.

End NanStroke.

Section Accumulation.
Context `{Three}.
Implicit Types (tm : TextureManager) (c : Controls) (p : Page).

Lemma stroke_accumulates (pos : Vector2.t) (radius : float) tm tm' :
  well_formed tm -> onStrokePainted pos radius tm = Ok tm' ->
  affected_list tm `prefix_of` affected_list tm'
  /\ (forall f, affected tm f = true -> affected tm' f = true).
Proof.
  intros Hwf Hrun. pose proof (onStrokePainted_sample _ _ _ _ Hwf Hrun) as Hs.
  destruct (_castRayFromMouse pos tm) as [|hit rest].
  - subst tm'. split; [reflexivity | auto].
  - split; [apply (fo_items _ _ _ _ _ Hs) | apply (fo_affected _ _ _ _ _ Hs)].
Qed.

Lemma useDrawingTexture_recorder c c' :
  _useDrawingTexture c = Ok c' ->
  _affectedFaces (_textureManager c') = _affectedFaces (_textureManager c).
Proof.
  intros Hrun.
  apply useDrawingTexture_spec in Hrun as [[_ ->]|(_ & tm1 & Hprep & ->)];
    [reflexivity|].
  unfold prepareDrawingTexture in Hprep.
  apply bind_Ok in Hprep as (drawn & _ & Hprep).
  apply bind_Ok in Hprep as (vertexUvs & _ & Hprep).
  apply bind_Ok in Hprep as (uvs & _ & Hprep). injection Hprep as <-. reflexivity.
Qed.

Lemma dispatch_accumulates (e : Event) p p' :
  page_ok p -> dispatch e p = Ok p' -> switches_to_viewing e = false ->
  affected_list (_textureManager (controls p))
    `prefix_of` affected_list (_textureManager (controls p'))
  /\ (forall f, affected (_textureManager (controls p)) f = true ->
                affected (_textureManager (controls p')) f = true).
Proof.
  intros Hok Hrun Hsw. destruct p as [c l]. pose proof Hok as [Hs Hl Hmesh Hgeo Hview].
  simpl in Hs, Hl, Hmesh, Hgeo, Hview. simpl.
  destruct e as [shiftKey pos newBrush|pos|camera'|shiftKey|width height camera'|camera'];
    simpl in Hsw; try discriminate Hsw; try subst shiftKey; simpl in Hrun.
  - apply bind_Ok in Hrun as (c' & Hdown & Hrun). injection Hrun as <-. simpl.
    unfold _mousedown in Hdown. destruct (_state c) eqn:Hstate;
      try (injection Hdown as <-; split; [reflexivity | auto]).
    apply bind_Ok in Hdown as (c1 & Hdraw & Hdown).
    apply bind_Ok in Hdown as (tm1 & Hbrush & Hdown). apply brush_call_Ok in Hbrush as ->.
    apply bind_Ok in Hdown as (tm2 & Hstroke & Hdown). injection Hdown as <-. simpl.
    pose proof (useDrawingTexture_recorder _ _ Hdraw) as Hrec. simpl in Hrec.
    destruct (useDrawingTexture_ok _ _ true Hdraw Hs eq_refl Hmesh Hgeo)
      as ([Hs1 _ _ _ _] & _); [discriminate|]. simpl in Hs1.
    apply stroke_accumulates in Hstroke;
      [|apply paint_well_formed, Hs1].
    unfold affected_list, affected in *. simpl in Hstroke. rewrite Hrec in Hstroke.
    exact Hstroke.
  - destruct l; [|injection Hrun as <-; split; [reflexivity | auto]].
    apply bind_Ok in Hrun as (c' & Hmove & Hrun). injection Hrun as <-. simpl.
    unfold _mousemove in Hmove. destruct (_state c) eqn:Hstate;
      try (injection Hmove as <-; split; [reflexivity | auto]).
    apply bind_Ok in Hmove as (tm1 & Hbrush & Hmove). apply brush_call_Ok in Hbrush as ->.
    apply bind_Ok in Hmove as (tm2 & Hstroke & Hmove). injection Hmove as <-. simpl.
    apply stroke_accumulates in Hstroke; [|apply paint_well_formed, Hs].
    exact Hstroke.
  - destruct l; [|injection Hrun as <-; split; [reflexivity | auto]].
    apply bind_Ok in Hrun as (c' & Hup & Hrun). injection Hrun as <-. simpl.
    apply mouseup_spec in Hup as (_ & tm1 & Htm1 & ->). simpl.
    destruct Htm1 as [->| ->]; (split; [reflexivity | intros f Hf; exact Hf]).
  - apply bind_Ok in Hrun as (c' & Hwheel & Hrun). injection Hrun as <-. simpl.
    unfold _mousewheel in Hwheel. rewrite orb_true_r in Hwheel.
    injection Hwheel as <-. split; [reflexivity | auto].
  - apply bind_Ok in Hrun as (c' & Hupd & Hrun). injection Hrun as <-. simpl.
    apply update_spec in Hupd as [_ ->]. simpl. split; [reflexivity | auto].
Qed.

(** Over a run in which no event switches to the viewing texture, the
    set of affected faces only grows, stroke after stroke: its members
    stay members, in their places in the order of insertion. *)
Theorem affected_faces_accumulate (events : list Event) p p' :
  page_ok p ->
  run events p = Ok p' ->
  (forall e, e ∈ events -> switches_to_viewing e = false) ->
  affected_list (_textureManager (controls p))
    `prefix_of` affected_list (_textureManager (controls p'))
  /\ (forall f, affected (_textureManager (controls p)) f = true ->
                affected (_textureManager (controls p')) f = true).
Proof.
  unfold run. revert p. induction events as [|e events IH]; intros p Hok Hrun Hsw.
  - injection Hrun as <-. split; [reflexivity | auto].
  - apply for_each_cons in Hrun as (p1 & Hstep & Hrest).
    destruct (dispatch_accumulates e p p1 Hok Hstep) as [Hp Ha];
      [apply Hsw, elem_of_cons; auto|].
    destruct (IH p1) as [Hp' Ha']; [eapply dispatch_ok; eassumption | exact Hrest | |].
    { intros e' He'. apply Hsw, elem_of_cons. auto. }
    split; [etransitivity; eassumption | auto].
Qed.

End Accumulation.

Section ViewSizeLoop.
Local Open Scope float_scope.
Variable distanceTo : Vector3.t -> Vector3.t -> float.

Lemma farthest_from (vertices : list Vector3.t) : forall start : float,
  is_nan start = false ->
  (forall v, v ∈ vertices -> is_nan (distanceTo v origin) = false) ->
  let r := fold_left (fun viewSize vertex => Math_max [viewSize; distanceTo vertex origin])
             vertices start in
  is_nan r = false /\ (start <=? r) = true
  /\ forall v, v ∈ vertices -> (distanceTo v origin <=? r) = true.
Proof.
  induction vertices as [|v vertices IH]; intros start Hs Hd; simpl.
  - split; [exact Hs|]. split; [apply leb_refl, Hs|]. intros v Hv. inversion Hv.
  - assert (Hv : is_nan (distanceTo v origin) = false) by (apply Hd, elem_of_cons; auto).
    destruct (Math_max_upper [start; distanceTo v origin]) as [Hn Hu].
    { intros x Hx. apply elem_of_cons in Hx as [->|Hx]; [exact Hs|].
      apply elem_of_cons in Hx as [->|Hx]; [exact Hv | inversion Hx]. }
    destruct (IH (Math_max [start; distanceTo v origin]) Hn) as (Hr & Hle & Hall).
    { intros w Hw. apply Hd, elem_of_cons. auto. }
    split; [exact Hr|]. split.
    + eapply leb_trans; [|exact Hle]. apply Hu, elem_of_cons. auto.
    + intros w Hw. apply elem_of_cons in Hw as [->|Hw]; [|apply Hall, Hw].
      eapply leb_trans; [|exact Hle]. apply Hu. apply elem_of_cons. right.
      apply elem_of_cons. auto.
Qed.

(** When the distance of no vertex from the origin is NaN, the loop of
    the constructor of [Controls] leaves in [viewSize] a number that is at
    least 1 and at least the distance of every vertex. *)
Theorem farthest_covers (vertices : list Vector3.t) :
  (forall v, v ∈ vertices -> is_nan (distanceTo v origin) = false) ->
  is_nan (farthest distanceTo vertices) = false
  /\ (1 <=? farthest distanceTo vertices) = true
  /\ forall v, v ∈ vertices ->
       (distanceTo v origin <=? farthest distanceTo vertices) = true.
Proof. intros Hd. apply (farthest_from vertices 1 eq_refl Hd). Qed.

End ViewSizeLoop.

Section NeighbourLists.
Context `{Three}.

(** In a mesh of at most 256 faces the neighbour list of a face holds
    each neighbour once, never the face itself, so it has fewer entries
    than there are faces and its 8-bit counter holds their number without
    wrapping around. *)
Theorem neighbours_fit (g : Geometry.t) (r : Renderer.t) (cam : Camera)
    (tm : TextureManager) (i : nat) :
  constructor g r cam = Ok tm ->
  length (Geometry.faces g) <= 256 ->
  i < length (Geometry.faces g) ->
  NoDup (neighbours tm i)
  /\ (forall z, z ∈ neighbours tm i ->
        exists j, z = Z.of_nat j /\ j < length (Geometry.faces g) /\ j <> i)
  /\ length (neighbours tm i) < length (Geometry.faces g)
  /\ typed_get (_nAdjacentFaces tm) (Z.of_nat i)
     = Some (Z.of_nat (length (neighbours tm i))).
Proof.
  intros Hrun Hsmall Hi.
  pose proof (constructor_inv g r cam tm Hrun Hsmall) as Hinv.
  pose proof (constructor_well_formed g r cam tm Hrun Hsmall) as Hwf.
  pose proof Hinv as [Hc Hr Hrow Hcount Hnd Hmem]. simpl in Hc, Hr, Hrow, Hcount.
  assert (Hin : forall z, z ∈ neighbours tm i ->
            exists j, z = Z.of_nat j /\ j < length (Geometry.faces g) /\ j <> i).
  { intros z Hz. rewrite neighbours_recorded in Hz.
    apply (Hmem i z Hi) in Hz as (h & -> & Hh & Hne & _). eauto. }
  assert (Hnodup : NoDup (neighbours tm i)).
  { rewrite neighbours_recorded. apply Hnd. }
  split; [exact Hnodup|]. split; [exact Hin|]. split.
  - assert (Hb : length (Z.of_nat i :: neighbours tm i) <= length (Geometry.faces g)).
    { apply members_bound.
      - constructor; [|exact Hnodup].
        intros Hself. apply Hin in Hself as (j & Hj & _ & Hne). lia.
      - intros f Hf. apply elem_of_cons in Hf as [->|Hf]; [lia|].
        apply Hin in Hf as (j & -> & Hj & _). lia. }
    simpl in Hb. lia.
  - destruct (lookup_lt_is_Some_2 (_nAdjacentFaces tm) i) as [n Hn]; [lia|].
    destruct (lookup_lt_is_Some_2 (_AdjacentFacesList tm) i) as [row Hrowi]; [lia|].
    destruct (Hcount i n Hn) as [Hpos _].
    pose proof (wf_neighbour_count _ Hwf i row Hrowi) as Hle.
    unfold neighbours. rewrite Hrowi. unfold nAdjacent in *.
    unfold typed_get in *.
    replace (0 <=? Z.of_nat i)%Z with true in * by (symmetry; apply Z.leb_le; lia).
    rewrite Nat2Z.id in *. rewrite Hn in *.
    rewrite length_take. f_equal. lia.
Qed.

End NeighbourLists.

Section StrokeFrame.
Context `{Three}.

(** A stroke sample whose ray hits nothing changes nothing. One whose
    ray hits a face asks for the upload of the drawing texture and writes
    the flood-fill bitmap and the set of affected faces, and nothing
    else: the geometry, the renderer, the camera, the viewing texture,
    the drawing UVs, the drawing canvas and the adjacency stay as they
    are. *)
Theorem stroke_frame (canvasPos : Vector2.t) (radius : float)
    (tm tm' : TextureManager) :
  well_formed tm ->
  onStrokePainted canvasPos radius tm = Ok tm' ->
  match _castRayFromMouse canvasPos tm with
  | [] => tm' = tm
  | _ :: _ =>
      tm' = set_affectedFaces (_affectedFaces tm')
              (set_isFloodFill (_isFloodFill tm')
                 (set_drawingMaterial
                    (Texture.set_needsUpdate (_drawingMaterial tm)) tm))
  end
  /\ length (_isFloodFill tm') = length (_isFloodFill tm)
  /\ well_formed tm'.
Proof.
  intros Hwf Hrun. split; [|split].
  - pose proof (onStrokePainted_sample _ _ _ _ Hwf Hrun) as Hsample.
    destruct (_castRayFromMouse canvasPos tm) as [|hit rest]; [exact Hsample|].
    exact (fo_scene _ _ _ _ _ Hsample).
  - pose proof (onStrokePainted_well_formed _ _ _ _ Hwf Hrun) as Hwf'.
    rewrite (wf_bitmap _ Hwf'), (wf_bitmap _ Hwf).
    rewrite (scene_geometry _ _ (onStrokePainted_scene _ _ _ _ Hwf Hrun)). reflexivity.
  - eapply onStrokePainted_well_formed; eassumption.
Qed.

End StrokeFrame.

Section Zoom.
Local Open Scope float_scope.
Import CameraControls.

Lemma sub_diag (x : float) :
  Prim2SF (x - x) = S754_nan \/ exists s, Prim2SF (x - x) = S754_zero s.
Proof.
  rewrite FloatAxioms.sub_spec. unfold SF64sub, SFsub.
  assert (Hd : forall a : Z, IntDef.Z.sub a a = 0%Z) by (intros a; apply Z.sub_diag).
  destruct (Prim2SF x) as [s|s| |s m e]; try destruct s; eauto;
    right; exists false; rewrite Hd; reflexivity.
Qed.

Lemma settled_factor (x speed : float) :
  let factor := 1.0 + (x - x) * speed in
  negb (factor =? 1.0) && (0.0 <? factor) = false.
Proof.
  intros factor.
  assert (Hf : Prim2SF factor = S754_nan \/ Prim2SF factor = Prim2SF 1.0).
  { unfold factor. rewrite FloatAxioms.add_spec, FloatAxioms.mul_spec.
    destruct (sub_diag x) as [-> | [s ->]].
    - left. reflexivity.
    - unfold SF64mul, SFmul. destruct (Prim2SF speed) as [s'|s'| |s' m' e'].
      + right. reflexivity.
      + left. reflexivity.
      + left. reflexivity.
      + right. reflexivity. }
  rewrite FloatAxioms.eqb_spec, FloatAxioms.ltb_spec.
  destruct Hf as [-> | ->]; reflexivity.
Qed.

Lemma zoomCamera_twice (c : CameraControls.t) :
  zoomCamera (zoomCamera c) = zoomCamera c.
Proof.
  unfold zoomCamera at 2 3.
  destruct (negb (_ =? 1.0) && (0.0 <? _)) eqn:Hzoom.
  - unfold zoomCamera. cbn [_zoomEnd _zoomStart zoomSpeed].
    rewrite (settled_factor (_zoomEnd c) (zoomSpeed c)). reflexivity.
  - unfold zoomCamera. rewrite Hzoom. reflexivity.
Qed.

Lemma zoomCamera_fixed (c : CameraControls.t) :
  zoomCamera c = c ->
  negb (1.0 + (_zoomEnd c - _zoomStart c) * zoomSpeed c =? 1.0)
  && (0.0 <? 1.0 + (_zoomEnd c - _zoomStart c) * zoomSpeed c) = false.
Proof.
  unfold zoomCamera.
  destruct (negb (_ =? 1.0) && (0.0 <? _)) eqn:Hzoom; [|reflexivity].
  intros Hc. destruct c as [speed st zs ze z]. simpl in *.
  injection Hc as Hs _. subst zs.
  rewrite (settled_factor ze speed) in Hzoom. discriminate.
Qed.

Lemma onMouseDown_cases (button : Z) (c : CameraControls.t) :
  onMouseDown button c = c
  \/ exists st, onMouseDown button c
                = CameraControls.mk (zoomSpeed c) st (_zoomStart c) (_zoomEnd c) (zoom c).
Proof.
  unfold onMouseDown. destruct button as [|[[p|p|]|[p|p|]|]|p]; eauto.
Qed.

Lemma settled_inputs (l : list Input) : forall c : CameraControls.t,
  zoomCamera c = c ->
  (forall wheelDelta detail, Wheel wheelDelta detail ∉ l) ->
  zoomCamera (inputs l c) = inputs l c /\ zoom (inputs l c) = zoom c.
Proof.
  unfold inputs. induction l as [|i l IH]; intros c Hc Hl; simpl; [auto|].
  assert (Hrest : forall wheelDelta detail, Wheel wheelDelta detail ∉ l).
  { intros w d Hin. apply (Hl w d). apply elem_of_cons. auto. }
  assert (Hi : zoomCamera (input i c) = input i c /\ zoom (input i c) = zoom c).
  { pose proof (zoomCamera_fixed c Hc) as Hf.
    destruct i as [w d|b| |]; simpl.
    - exfalso. apply (Hl w d). apply elem_of_cons. auto.
    - destruct (onMouseDown_cases b c) as [-> | [st ->]]; [auto|].
      split; [|reflexivity]. unfold zoomCamera. simpl. rewrite Hf. reflexivity.
    - split; [|reflexivity]. unfold zoomCamera, onMouseUp. simpl. rewrite Hf. reflexivity.
    - rewrite Hc. auto. }
  destruct Hi as [Hi Hz]. destruct (IH (input i c) Hi Hrest) as [IH1 IH2].
  split; [exact IH1 | congruence].
Qed.

(** Once [zoomCamera] has run, it changes nothing until the next wheel
    event, whatever mouse buttons go down and up in between: the zoom of
    the camera stays where the first call left it. *)
Theorem zoom_settles (l : list Input) (c : CameraControls.t) :
  (forall wheelDelta detail, Wheel wheelDelta detail ∉ l) ->
  zoomCamera (inputs l (zoomCamera c)) = inputs l (zoomCamera c)
  /\ zoom (inputs l (zoomCamera c)) = zoom (zoomCamera c).
Proof.
  intros Hl. apply settled_inputs; [apply zoomCamera_twice | exact Hl].
Qed.

End Zoom.

Section PencilStrokes.
Import Brushes.
Implicit Types (st : Pencil * list ContextOp) (l : list Call).

Lemma count_app (which : ContextOp -> bool) (a b : list ContextOp) :
  count which (a ++ b) = count which a + count which b.
Proof. unfold count. rewrite List.filter_app, length_app. reflexivity. Qed.

Lemma call_counts (c : Call) st :
  let st' := call c st in
  match c with
  | Start _ =>
      _canvasContext (fst st') = true
      /\ count is_Save (snd st') = S (count is_Save (snd st))
      /\ count is_Restore (snd st') = count is_Restore (snd st)
      /\ count is_StrokePath (snd st') = count is_StrokePath (snd st)
  | Continue _ =>
      _canvasContext (fst st') = _canvasContext (fst st)
      /\ count is_Save (snd st') = count is_Save (snd st)
      /\ count is_Restore (snd st') = count is_Restore (snd st)
      /\ count is_StrokePath (snd st')
         = (if _canvasContext (fst st) then 1 else 0) + count is_StrokePath (snd st)
  | Finish =>
      _canvasContext (fst st') = false
      /\ count is_Save (snd st') = count is_Save (snd st)
      /\ count is_Restore (snd st')
         = (if _canvasContext (fst st) then 1 else 0) + count is_Restore (snd st)
      /\ count is_StrokePath (snd st') = count is_StrokePath (snd st)
  end.
Proof.
  destruct st as [[ctx] ops]. destruct c as [p|p|]; simpl.
  - rewrite !count_app. unfold count. simpl. repeat split; lia.
  - destruct ctx; simpl; rewrite ?count_app; unfold count; simpl; repeat split; lia.
  - destruct ctx; simpl; rewrite ?count_app; unfold count; simpl; repeat split; lia.
Qed.

Lemma calls_app l1 l2 st : calls (l1 ++ l2) st = calls l2 (calls l1 st).
Proof. unfold calls. apply fold_left_app. Qed.

Lemma calls_discipline l : forall st,
  count is_Restore (snd st) <= count is_Save (snd st) ->
  (_canvasContext (fst st) = true ->
   count is_Restore (snd st) < count is_Save (snd st)) ->
  count is_Restore (snd (calls l st)) <= count is_Save (snd (calls l st))
  /\ (_canvasContext (fst (calls l st)) = true ->
      count is_Restore (snd (calls l st)) < count is_Save (snd (calls l st))).
Proof.
  induction l as [|c l IH]; intros st Hle Hlt; [auto|].
  change (calls (c :: l) st) with (calls l (call c st)).
  pose proof (call_counts c st) as Hc. cbv zeta in Hc.
  apply IH; destruct c as [p|p|]; destruct Hc as (Hctx & Hs & Hr & _);
    rewrite ?Hs, ?Hr, ?Hctx; try lia;
    destruct (_canvasContext (fst st)); try discriminate; try lia;
    intros; specialize (Hlt eq_refl); lia.
Qed.

Lemma continue_counts (samples : list Vector2.t) : forall st,
  _canvasContext (fst st) = true ->
  let st' := calls (map Continue samples) st in
  _canvasContext (fst st') = true
  /\ count is_Save (snd st') = count is_Save (snd st)
  /\ count is_Restore (snd st') = count is_Restore (snd st)
  /\ count is_StrokePath (snd st') = length samples + count is_StrokePath (snd st).
Proof.
  induction samples as [|p samples IH]; intros st Hctx; [simpl; auto|].
  change (calls (map Continue (p :: samples)) st)
    with (calls (map Continue samples) (call (Continue p) st)).
  pose proof (call_counts (Continue p) st) as Hc. cbv zeta in Hc.
  destruct Hc as (Hctx' & Hs & Hr & Hp). rewrite Hctx in Hctx', Hp.
  destruct (IH (call (Continue p) st) Hctx') as (IHc & IHs & IHr & IHp).
  cbv zeta. simpl length. rewrite IHs, IHr, IHp, Hs, Hr, Hp.
  repeat split; [exact IHc | lia].
Qed.

Lemma stroke_counts (s : Vector2.t * list Vector2.t) st :
  let st' := calls (stroke s) st in
  _canvasContext (fst st') = false
  /\ count is_Save (snd st') = S (count is_Save (snd st))
  /\ count is_Restore (snd st') = S (count is_Restore (snd st))
  /\ count is_StrokePath (snd st') = length (snd s) + count is_StrokePath (snd st).
Proof.
  unfold stroke.
  change (calls (Start (fst s) :: map Continue (snd s) ++ [Finish]) st)
    with (calls (map Continue (snd s) ++ [Finish]) (call (Start (fst s)) st)).
  rewrite calls_app.
  pose proof (call_counts (Start (fst s)) st) as Hc. cbv zeta in Hc.
  destruct Hc as (Hctx & Hs & Hr & Hp).
  destruct (continue_counts (snd s) _ Hctx) as (Cctx & Cs & Cr & Cp).
  set (st1 := calls (map Continue (snd s)) (call (Start (fst s)) st)) in *.
  change (calls [Finish] st1) with (call Finish st1).
  pose proof (call_counts Finish st1) as Hf. cbv zeta in Hf.
  destruct Hf as (Fctx & Fs & Fr & Fp). rewrite Cctx in Fr.
  cbv zeta. rewrite Fs, Fr, Fp, Cs, Cr, Cp, Hs, Hr, Hp. auto.
Qed.

Lemma strokes_counts (strokes : list (Vector2.t * list Vector2.t)) : forall st,
  let st' := calls (concat (map stroke strokes)) st in
  (strokes <> [] -> _canvasContext (fst st') = false)
  /\ count is_Save (snd st') = length strokes + count is_Save (snd st)
  /\ count is_Restore (snd st') = length strokes + count is_Restore (snd st)
  /\ count is_StrokePath (snd st')
     = length (concat (map snd strokes)) + count is_StrokePath (snd st).
Proof.
  induction strokes as [|s strokes IH]; intros st; [simpl; tauto|].
  cbv zeta.
  change (concat (map stroke (s :: strokes)))
    with (stroke s ++ concat (map stroke strokes)).
  change (concat (map snd (s :: strokes)))
    with (snd s ++ concat (map snd strokes)).
  rewrite calls_app.
  destruct (stroke_counts s st) as (Hctx & Hs & Hr & Hp).
  destruct (IH (calls (stroke s) st)) as (IHctx & IHs & IHr & IHp).
  rewrite IHs, IHr, IHp, Hs, Hr, Hp, length_app. simpl length.
  split; [|lia]. intros _. destruct strokes as [|s' strokes]; [exact Hctx|].
  apply IHctx. discriminate.
Qed.

(** A pencil never restores the context more often than it has saved it,
    whatever calls are made on it, and holds a saved state while it has a
    context; over complete strokes (start, samples, finish) it saves and
    restores once per stroke, strokes the path once per sample, and is
    left without a context. *)
Theorem pencil_discipline (l : list Call) (strokes : list (Vector2.t * list Vector2.t)) :
  (count is_Restore (snd (calls l (new_Pencil, [])))
   <= count is_Save (snd (calls l (new_Pencil, [])))
   /\ (_canvasContext (fst (calls l (new_Pencil, []))) = true ->
       count is_Restore (snd (calls l (new_Pencil, [])))
       < count is_Save (snd (calls l (new_Pencil, [])))))
  /\ (let st := calls (concat (map stroke strokes)) (new_Pencil, []) in
      _canvasContext (fst st) = false
      /\ count is_Save (snd st) = length strokes
      /\ count is_Restore (snd st) = length strokes
      /\ count is_StrokePath (snd st) = length (concat (map snd strokes))).
Proof.
  split.
  - apply calls_discipline; simpl; [apply Nat.le_refl | discriminate].
  - destruct (strokes_counts strokes (new_Pencil, [])) as (Hctx & Hs & Hr & Hp).
    cbv zeta. rewrite Hs, Hr, Hp. unfold count. simpl.
    split; [|lia]. destruct strokes as [|s strokes]; [reflexivity|].
    apply Hctx. discriminate.
Qed.

End PencilStrokes.

(** ** The properties on the small scenes *)

Import Scene.

(** The texture managers of the small scenes are well formed. *)
Lemma drawing_well_formed (g : Geometry.t) (tm : TextureManager) :
  length (Geometry.faces g) <= 256 ->
  drawing g = Ok tm -> well_formed tm.
Proof.
  intros Hsmall Hrun. unfold drawing in Hrun.
  apply bind_Ok in Hrun as (tm0 & Hc & Hrun).
  eapply prepareDrawingTexture_well_formed; [|exact Hrun].
  eapply constructor_well_formed; eassumption.
Qed.

Lemma square_tm_well_formed : well_formed square_tm.
Proof.
  apply (drawing_well_formed (square up)); [simpl; lia|].
  vm_compute. reflexivity.
Qed.

Lemma square_away_tm_well_formed : well_formed square_away_tm.
Proof.
  apply (drawing_well_formed (square away)); [simpl; lia|].
  vm_compute. reflexivity.
Qed.

(** C5, as stated, fails: the collapsed triangle is recorded as a
    neighbour of the first face, of whose corners only one coincides with
    a corner of the collapsed triangle (twice). *)
Lemma spike_is_neighbour :
  (do tm <- constructor Scene.spike Scene.renderer100 Scene.eye;
   Ok (neighbours tm 0, neighbours tm 1)) = Ok ([1%Z], [0%Z])
  /\ coincident_vertices (Geometry.vertices Scene.spike)
       Scene.spike_face0 Scene.spike_face1 = 1
  /\ coincident_pairs (Geometry.vertices Scene.spike)
       Scene.spike_face0 Scene.spike_face1 = 2
  /\ normals_agree Scene.spike_face0 Scene.spike_face1 = true.
Proof. repeat split; vm_compute; reflexivity. Qed.

Lemma adjacency_of_constructor_witness :
  (1%Z ∈ neighbours Scene.square_viewing_tm 0
   <-> 0 <> 1 /\ share_edge (Scene.square Scene.up) 0 1 = true)
  /\ (1%Z ∈ neighbours Scene.square_viewing_tm 0 ->
      0%Z ∈ neighbours Scene.square_viewing_tm 1).
Proof.
  apply (adjacency_of_constructor (H := orthographic) (square up) renderer100
           eye square_viewing_tm 0 1).
  - vm_compute. reflexivity.
  - simpl. lia.
  - simpl. lia.
  - simpl. lia.
Defined.

Lemma square_down_well_formed : well_formed (_textureManager square_down).
Proof.
  assert (Hc0 : new_Controls (square up) renderer100 eye 1 = Ok square_new)
    by (vm_compute; reflexivity).
  assert (Hdown : _mousedown false (Vector2.mk 75 75) None square_new
                  = Ok square_down)
    by (vm_compute; reflexivity).
  eapply mousedown_well_formed; [|exact Hdown].
  eapply new_Controls_well_formed; [|exact Hc0]. simpl. lia.
Qed.

(** C1, as stated, fails: a stroke of radius 0 at the canvas point
    (75, 75), which lies in the first triangle of the square, marks that
    triangle and adds it to the empty affected-face set. *)
Lemma radius_zero_adds_seed :
  affected_list square_tm = []
  /\ (do tm' <- onStrokePainted (Vector2.mk 75 75) 0 square_tm;
      Ok (_isFloodFill tm', affected_list tm', affected tm' 0))
     = Ok ([1%Z; 0%Z], [Some 0%Z], true).
Proof. split; vm_compute; reflexivity. Qed.

Lemma radius_zero_fill_witness :
  contains_center square_tm (Vector2.mk 75 75) 0 = true
  /\ contains_center square_tm (Vector2.mk 75 75) 1 = false
  /\ (forall a b : Vector2.t, _lineCircleCollide a b (Vector2.mk 75 75) 0 = false)
  /\ exists tm', _add_recursive 3 0 (Vector2.mk 75 75) 0 square_tm = Ok tm'
       /\ marked tm' 0 = true /\ affected tm' 0 = true
       /\ (forall f, marked tm' f = true -> marked square_tm f = false ->
                     contains_center square_tm (Vector2.mk 75 75) f = true)
       /\ (forall f, affected tm' f = true -> affected square_tm f = false ->
                     contains_center square_tm (Vector2.mk 75 75) f = true).
Proof.
  split; [vm_compute; reflexivity|]. split; [vm_compute; reflexivity|].
  destruct (radius_zero_fill (H := orthographic) 3 0 (Vector2.mk 75 75) 0 square_tm)
    as (Hedges & Hruns & Hreturns).
  - vm_compute. reflexivity.
  - apply square_tm_well_formed.
  - split; [exact Hedges|].
    destruct Hreturns as [tm' Hrun].
    + vm_compute. reflexivity.
    + vm_compute. lia.
    + exists tm'. split; [exact Hrun|].
      destruct (Hruns tm' Hrun) as (Hmarked & Haffected & _ & Hseed).
      destruct Hseed as [Hm Ha]; [vm_compute; reflexivity | vm_compute; reflexivity |].
      auto.
Defined.

(** C2, as stated, fails: the mouse-down sample marks the first triangle;
    after the mouse-move sample in the second triangle the first one is no
    longer marked (the bitmap was reset), while both are in the
    affected-face set. *)
Lemma bitmap_reset_by_sample :
  _isFloodFill (_textureManager square_down) = [1%Z; 0%Z]
  /\ _isFloodFill (_textureManager square_moved) = [0%Z; 1%Z]
  /\ marked (_textureManager square_down) 0 = true
  /\ marked (_textureManager square_moved) 0 = false
  /\ affected_list (_textureManager square_moved) = [Some 0%Z; Some 1%Z].
Proof. repeat split; vm_compute; reflexivity. Qed.

Lemma stroke_samples_witness :
  (forall f, affected (_textureManager square_down) f = true ->
             affected (_textureManager square_moved) f = true)
  /\ affected_list (_textureManager square_down)
       `prefix_of` affected_list (_textureManager square_moved)
  /\ (_castRayFromMouse (Vector2.mk 25 25) (_textureManager square_down) <> [] ->
      forall f, marked (_textureManager square_moved) f = true ->
                hits (_textureManager square_down) (Vector2.mk 25 25)
                  (brush_radius square_down) f = true).
Proof.
  apply (stroke_samples (H := orthographic) [] (Vector2.mk 25 25)
           square_down square_down square_moved).
  - apply square_down_well_formed.
  - vm_compute. reflexivity.
  - reflexivity.
  - vm_compute. reflexivity.
Defined.

(** C4, as stated, fails: the recorder over 2 faces accepts the id 5
    without an error and counts it as a member, and the flood-fill entry
    returns normally on the id -1. *)
Lemma invalid_face_id_accepted :
  AffectedFacesRecorder.add 5 (AffectedFacesRecorder.constructor 2)
  = AffectedFacesRecorder.mk 1 [5%Z; 0%Z] [0%Z; 0%Z] [0%Z; 0%Z]
  /\ AffectedFacesRecorder.contains 5
       (AffectedFacesRecorder.add 5 (AffectedFacesRecorder.constructor 2)) = false
  /\ _add_recursive 1 (-1) (Vector2.mk 0 0) 1 square_tm = Ok square_tm.
Proof. repeat split; vm_compute; reflexivity. Qed.

Lemma face_id_not_checked_witness :
  AffectedFacesRecorder.contains 5 (_affectedFaces square_tm) = false
  /\ AffectedFacesRecorder.add 5 (_affectedFaces square_tm)
     = AffectedFacesRecorder.mk
         (S (AffectedFacesRecorder._nAffectedFaces (_affectedFaces square_tm)))
         (uint32_put (AffectedFacesRecorder._affectedFaces (_affectedFaces square_tm))
            (Z.of_nat (AffectedFacesRecorder._nAffectedFaces (_affectedFaces square_tm)))
            5)
         (AffectedFacesRecorder._isFaceAffected (_affectedFaces square_tm))
         (AffectedFacesRecorder._isFaceAffectedEmpty (_affectedFaces square_tm))
  /\ _add_recursive 1 5 (Vector2.mk 0 0) 1 square_tm
     = if (5 <? 0)%Z then Ok square_tm else Throw TypeError.
Proof.
  apply (face_id_not_checked (H := orthographic) square_tm 5 0 (Vector2.mk 0 0) 1).
  - apply square_tm_well_formed.
  - vm_compute. intros [_ Hlt]. discriminate Hlt.
Defined.

Lemma flood_fill_connected_witness :
  let visited := fun g => marked square_filled g = true /\ marked square_tm g = false in
  (forall f, affected square_filled f = true -> affected square_tm f = false -> visited f)
  /\ (forall f, visited f ->
        affected square_filled f = true
        /\ connected square_tm (Vector2.mk 75 75) 80 visited 0 f)
  /\ (forall f, visited f -> visited 0%Z).
Proof.
  apply (flood_fill_connected (H := orthographic) 3 0 (Vector2.mk 75 75) 80
           square_tm square_filled).
  - apply square_tm_well_formed.
  - vm_compute. reflexivity.
Defined.

Lemma seed_is_not_filtered_witness :
  facesCamera square_away_tm 0 = Ok false
  /\ exists tm', onStrokePainted (Vector2.mk 75 75) 1 square_away_tm = Ok tm'
       /\ marked tm' 0 = true /\ affected tm' 0 = true.
Proof.
  split; [vm_compute; reflexivity|].
  destruct (seed_is_not_filtered (H := orthographic) (Vector2.mk 75 75) 1
              square_away_tm (Face3.mk 0 1 2 away 0) []) as [Hmarks Hreturns].
  - apply square_away_tm_well_formed.
  - vm_compute. reflexivity.
  - vm_compute. reflexivity.
  - destruct Hreturns as [tm' Hrun]; [vm_compute; lia|].
    exists tm'. split; [exact Hrun | exact (Hmarks tm' Hrun)].
Defined.

(** ** The further properties on the small scenes *)

Import Runs.

Lemma square_corners_exist : corners_exist (square up).
Proof.
  intros face Hface. simpl in Hface.
  repeat (apply elem_of_cons in Hface as [->|Hface]; [simpl; lia|]).
  inversion Hface.
Qed.

Lemma orthographic_ray_caster_sound : ray_caster_sound (H := orthographic).
Proof.
  intros origin direction g face Hin. simpl in Hin.
  apply list_elem_of_In in Hin. apply filter_In in Hin as [Hin _].
  apply list_elem_of_In. exact Hin.
Qed.

Lemma square_viewing_tm_sound : sound square_viewing_tm.
Proof.
  apply (sound_constructor (H := orthographic) (square up) renderer100 eye);
    [vm_compute; reflexivity | simpl; lia | apply square_corners_exist].
Qed.

Lemma square_moved_well_formed : well_formed (_textureManager square_moved).
Proof.
  apply (mousemove_sample (H := orthographic) (Vector2.mk 25 25) square_down square_moved).
  - apply square_down_well_formed.
  - vm_compute. reflexivity.
  - vm_compute. reflexivity.
Qed.

Lemma recorder_insertion_order_witness :
  AffectedFacesRecorder.forEach_items
    (add_all [2; 0; 2; 1]%Z (AffectedFacesRecorder.constructor 4))
  = Some <$> first_occurrences [] [2; 0; 2; 1]%Z
  /\ AffectedFacesRecorder.length
       (add_all [2; 0; 2; 1]%Z (AffectedFacesRecorder.constructor 4))
     = length (first_occurrences [] [2; 0; 2; 1]%Z)
  /\ NoDup (first_occurrences [] [2; 0; 2; 1]%Z)
  /\ (forall f,
        AffectedFacesRecorder.contains f
          (add_all [2; 0; 2; 1]%Z (AffectedFacesRecorder.constructor 4)) = true
        <-> f ∈ [2; 0; 2; 1]%Z).
Proof.
  apply (recorder_insertion_order 4 [2; 0; 2; 1]%Z).
  - simpl. lia.
  - intros f Hf.
    repeat (apply elem_of_cons in Hf as [->|Hf]; [simpl; lia|]).
    inversion Hf.
Defined.

Lemma recorder_reset_reuse_witness :
  exists r',
    AffectedFacesRecorder.reset (add_all [2; 0]%Z (AffectedFacesRecorder.constructor 4))
    = Ok r'
    /\ AffectedFacesRecorder.length r' = 0
    /\ AffectedFacesRecorder.forEach_items r' = []
    /\ (forall f, AffectedFacesRecorder.contains f r' = false)
    /\ AffectedFacesRecorder._affectedFaces r'
       = AffectedFacesRecorder._affectedFaces
           (add_all [2; 0]%Z (AffectedFacesRecorder.constructor 4))
    /\ AffectedFacesRecorder.forEach_items (add_all [1; 1; 3]%Z r')
       = Some <$> first_occurrences [] [1; 1; 3]%Z
    /\ (forall g, AffectedFacesRecorder.contains g (add_all [1; 1; 3]%Z r') = true
                  <-> g ∈ [1; 1; 3]%Z).
Proof.
  apply (recorder_reset_reuse 4 [2; 0]%Z [1; 1; 3]%Z).
  - simpl. lia.
  - intros f Hf.
    repeat (apply elem_of_cons in Hf as [->|Hf]; [simpl; lia|]).
    inversion Hf.
  - intros f Hf.
    repeat (apply elem_of_cons in Hf as [->|Hf]; [simpl; lia|]).
    inversion Hf.
Defined.

Lemma prepareViewingTexture_flush_witness :
  exists tm', prepareViewingTexture (_textureManager square_moved) = Ok tm'
    /\ well_formed tm'
    /\ AffectedFacesRecorder.length (_affectedFaces tm') = 0
    /\ affected_list tm' = []
    /\ (forall f, affected tm' f = false).
Proof.
  apply (prepareViewingTexture_flush (H := orthographic) (_textureManager square_moved)).
  apply square_moved_well_formed.
Defined.

Lemma prepareViewingTexture_patch_witness :
  exists bd,
    patch_bounds (_textureManager square_moved) = Ok bd
    /\ let tm := _textureManager square_moved in
       let W := Canvas.width (_drawingCanvas tm) in
       let Ht := Canvas.height (_drawingCanvas tm) in
       let xMax := (uMax bd * W)%float in
       let xMin := (uMin bd * W)%float in
       let yMax := ((1 - vMin bd) * Ht)%float in
       let yMin := ((1 - vMax bd) * Ht)%float in
       let w := Canvas.dimension 300 (xMax - xMin) in
       let h := Canvas.dimension 150 (yMax - yMin) in
       _drawingCanvas square_reconciled
       = Canvas.mk W Ht (Canvas.ops (_drawingCanvas tm) ++ [RectClip xMin yMin xMax yMax])
       /\ forall f, affected tm f = true ->
            element (_viewingMaterial square_reconciled) f
            = Some (PatchCanvas w h (_drawingCanvas square_reconciled) xMin yMin w h)
            /\ exists uv0 uv1 uv2,
                 element (_drawingTextureUvs tm) f = Some (uv0, uv1, uv2)
                 /\ element (_viewingTextureUvs square_reconciled) f
                    = Some (remap (_drawingCanvas tm) bd w h uv0,
                            remap (_drawingCanvas tm) bd w h uv1,
                            remap (_drawingCanvas tm) bd w h uv2).
Proof.
  apply (prepareViewingTexture_patch (H := orthographic)
           (_textureManager square_moved) square_reconciled).
  - apply square_moved_well_formed.
  - vm_compute. reflexivity.
  - apply Nat.ltb_lt. vm_compute. reflexivity.
Defined.

Lemma prepareViewingTexture_frame_witness :
  let tm := _textureManager square_moved in
  geometry square_reconciled = geometry tm
  /\ renderer square_reconciled = renderer tm
  /\ _drawingTextureUvs square_reconciled = _drawingTextureUvs tm
  /\ _drawingVertexUvs square_reconciled = _drawingVertexUvs tm
  /\ _isFloodFill square_reconciled = _isFloodFill tm
  /\ _nAdjacentFaces square_reconciled = _nAdjacentFaces tm
  /\ _AdjacentFacesList square_reconciled = _AdjacentFacesList tm
  /\ (forall f, affected tm f = false ->
        element (_viewingMaterial square_reconciled) f = element (_viewingMaterial tm) f
        /\ element (_viewingTextureUvs square_reconciled) f
           = element (_viewingTextureUvs tm) f).
Proof.
  apply (prepareViewingTexture_frame (H := orthographic)
           (_textureManager square_moved) square_reconciled).
  - apply square_moved_well_formed.
  - vm_compute. reflexivity.
Defined.

Lemma prepareDrawingTexture_projects_witness :
  let tm := square_viewing_tm in
  exists tm',
    prepareDrawingTexture tm = Ok tm'
    /\ renderer tm' = Renderer.render (renderer tm)
    /\ _drawingCanvas tm'
       = Canvas.mk (Canvas.dimension 300 (Renderer.domElement_width (renderer tm)))
                   (Canvas.dimension 150 (Renderer.domElement_height (renderer tm)))
                   [DrawRendererOutput (S (Renderer.renderCalls (renderer tm)))]
    /\ _drawingMaterial tm' = Texture.set_needsUpdate (_drawingMaterial tm)
    /\ _drawingVertexUvs tm' = projected_uv tm <$> Geometry.vertices (geometry tm)
    /\ length (_drawingTextureUvs tm') = length (Geometry.faces (geometry tm))
    /\ (forall i face, Geometry.faces (geometry tm) !! i = Some face ->
          exists va vb vc,
            Geometry.vertices (geometry tm) !! Face3.a face = Some va
            /\ Geometry.vertices (geometry tm) !! Face3.b face = Some vb
            /\ Geometry.vertices (geometry tm) !! Face3.c face = Some vc
            /\ _drawingTextureUvs tm' !! i
               = Some (projected_uv tm va, projected_uv tm vb, projected_uv tm vc))
    /\ geometry tm' = geometry tm
    /\ camera tm' = camera tm
    /\ _viewingMaterial tm' = _viewingMaterial tm
    /\ _viewingTextureUvs tm' = _viewingTextureUvs tm
    /\ _affectedFaces tm' = _affectedFaces tm
    /\ _isFloodFill tm' = _isFloodFill tm.
Proof.
  pose proof (prepareDrawingTexture_projects (H := orthographic) square_viewing_tm
                (sd_well_formed _ square_viewing_tm_sound)
                (sd_drawable _ square_viewing_tm_sound)) as Hprojects.
  replace (Renderer.visible (renderer square_viewing_tm)) with true in Hprojects
    by (vm_compute; reflexivity).
  exact Hprojects.
Defined.

(** A renderer whose canvas has no pixels: the switch to the drawing
    texture throws. *)
Lemma prepareDrawingTexture_without_pixels :
  prepareDrawingTexture
    (set_renderer (Renderer.mk 0 100 0) square_viewing_tm)
  = Throw InvalidStateError.
Proof. vm_compute. reflexivity. Qed.


Lemma run_returns_witness :
  exists p0, new_Page (square up) renderer100 eye 1 = Ok p0
    /\ forall events,
         Forall (fun e => keeps_visible e = true) events ->
         exists p, run events p0 = Ok p.
Proof.
  pose proof (run_returns (H := orthographic) (square up) renderer100 eye 1
                orthographic_ray_caster_sound) as Hreturns.
  replace (Renderer.visible renderer100) with true in Hreturns
    by (vm_compute; reflexivity).
  apply Hreturns.
  - intros op canvas. reflexivity.
  - simpl. lia.
  - vm_compute. lia.
  - apply square_corners_exist.
Defined.


Lemma flood_fill_closed_witness :
  (hits square_tm (Vector2.mk 75 75) 80 0 = true -> marked square_filled 0 = true)
  /\ forall g h,
       marked square_filled g = true -> marked square_tm g = false ->
       adjacent square_tm g h -> front square_tm h ->
       hits square_tm (Vector2.mk 75 75) 80 h = true ->
       marked square_filled h = true.
Proof.
  apply (flood_fill_closed (H := orthographic) (Vector2.mk 75 75) 80 3 0
           square_tm square_filled).
  - apply square_tm_well_formed.
  - vm_compute. reflexivity.
Defined.

Lemma stroke_marks_exactly_witness :
  (forall f, marked square_stroked f = true
             <-> connected square_tm (Vector2.mk 75 75) 80 (fun _ => True) 0 f)
  /\ (forall f, affected square_stroked f = true
                <-> affected square_tm f = true \/ marked square_stroked f = true).
Proof.
  apply (stroke_marks_exactly (H := orthographic) (Vector2.mk 75 75) 80
           square_tm square_stroked (Face3.mk 0 1 2 up 0) []).
  - apply square_tm_well_formed.
  - vm_compute. reflexivity.
  - vm_compute. reflexivity.
Defined.

Lemma onStrokePainted_outcome_witness :
  match _castRayFromMouse (Vector2.mk 75 75) square_tm with
  | [] => onStrokePainted (Vector2.mk 75 75) 80 square_tm = Ok square_tm
  | hit :: _ =>
      if (callStack =? 0)%nat
      then onStrokePainted (Vector2.mk 75 75) 80 square_tm = Throw RangeError
      else if (Face3.materialIndex hit
               <? Z.of_nat (length (Geometry.faces (geometry square_tm))))%Z
      then ((exists tm', onStrokePainted (Vector2.mk 75 75) 80 square_tm = Ok tm')
            \/ onStrokePainted (Vector2.mk 75 75) 80 square_tm = Throw RangeError)
           /\ (length (Geometry.faces (geometry square_tm)) < callStack ->
               exists tm', onStrokePainted (Vector2.mk 75 75) 80 square_tm = Ok tm')
      else onStrokePainted (Vector2.mk 75 75) 80 square_tm = Throw TypeError
  end.
Proof.
  apply (onStrokePainted_outcome (H := orthographic) (Vector2.mk 75 75) 80 square_tm).
  apply square_tm_well_formed.
Defined.

Lemma switch_round_trip_witness :
  _viewingMaterial (_textureManager square_back)
  = _viewingMaterial (_textureManager square_new)
  /\ _viewingTextureUvs (_textureManager square_back)
     = _viewingTextureUvs (_textureManager square_new)
  /\ _affectedFaces (_textureManager square_back)
     = _affectedFaces (_textureManager square_new)
  /\ Renderer.renderCalls (renderer (_textureManager square_back))
     = S (Renderer.renderCalls (renderer (_textureManager square_new)))
  /\ _usingViewingTexture square_back = true
  /\ material (_mesh square_back) = ViewingLayer
  /\ Geometry.faceVertexUvs0 (geometry (_textureManager square_back)) = ViewingLayer
  /\ _state square_back = _state square_new.
Proof.
  apply (switch_round_trip (H := orthographic) square_new square_drawing square_back).
  - vm_compute. reflexivity.
  - vm_compute. reflexivity.
  - vm_compute. reflexivity.
  - vm_compute. reflexivity.
Defined.

Lemma patch_bounds_cover_witness :
  let tm := _textureManager square_moved in
  let bd := mkBounds 1 0 1 0 in
  (is_nan (uMax bd) = false /\ is_nan (uMin bd) = false
   /\ is_nan (vMax bd) = false /\ is_nan (vMin bd) = false)
  /\ (forall (f : Z) uv0 uv1 uv2 uv,
        affected tm f = true ->
        element (_drawingTextureUvs tm) f = Some (uv0, uv1, uv2) ->
        uv ∈ [uv0; uv1; uv2] ->
        (uMin bd <=? Vector2.x uv)%float = true
        /\ (Vector2.x uv <=? uMax bd)%float = true
        /\ (vMin bd <=? Vector2.y uv)%float = true
        /\ (Vector2.y uv <=? vMax bd)%float = true).
Proof.
  apply (patch_bounds_cover (H := orthographic) (_textureManager square_moved)
           (mkBounds 1 0 1 0)).
  - apply square_moved_well_formed.
  - vm_compute. reflexivity.
  - intros f uv0 uv1 uv2 uv Hf Huv Hin.
    apply contains_range in Hf.
    assert (Hcases : f = 0%Z \/ f = 1%Z).
    { match type of Hf with
      | (_ <= _ < ?b)%Z => replace b with 2%Z in Hf by (vm_compute; reflexivity)
      end.
      lia. }
    destruct Hcases as [-> | ->]; vm_compute in Huv; injection Huv as <- <- <-;
      repeat (apply elem_of_cons in Hin as [->|Hin]; [split; reflexivity|]);
      inversion Hin.
Defined.

Lemma square_page_ok : page_ok square_page.
Proof.
  apply (new_Page_ok (H := orthographic) (square up) renderer100 eye 1).
  - simpl. lia.
  - apply square_corners_exist.
  - vm_compute. reflexivity.
Qed.

Lemma square_page_stroke_ok : page_ok square_page_stroke.
Proof.
  apply (run_ok (H := orthographic) [MouseDown false (Vector2.mk 75 75) None]
           square_page).
  - apply square_page_ok.
  - vm_compute. reflexivity.
Qed.

Lemma stroke_at_nan_witness :
  square_tm = square_tm
  /\ forall f, hits square_tm (Vector2.mk nan 5) 1 f = false.
Proof.
  apply (stroke_at_nan (H := orthographic) (Vector2.mk nan 5) 1 3 0 square_tm square_tm).
  - vm_compute. reflexivity.
  - vm_compute. reflexivity.
Defined.

Lemma affected_faces_accumulate_witness :
  affected_list (_textureManager (controls square_page_stroke))
    `prefix_of` affected_list (_textureManager (controls square_page_strokes))
  /\ (forall f, affected (_textureManager (controls square_page_stroke)) f = true ->
                affected (_textureManager (controls square_page_strokes)) f = true).
Proof.
  apply (affected_faces_accumulate (H := orthographic) square_strokes
           square_page_stroke square_page_strokes).
  - apply square_page_stroke_ok.
  - vm_compute. reflexivity.
  - intros e He. unfold square_strokes in He.
    repeat (apply elem_of_cons in He as [->|He]; [reflexivity|]).
    inversion He.
Defined.

Lemma farthest_covers_witness :
  is_nan (farthest three_distanceTo square_vertices) = false
  /\ (1 <=? farthest three_distanceTo square_vertices)%float = true
  /\ forall v, v ∈ square_vertices ->
       (three_distanceTo v origin <=? farthest three_distanceTo square_vertices)%float
       = true.
Proof.
  apply (farthest_covers three_distanceTo square_vertices).
  intros v Hv. unfold square_vertices in Hv.
  repeat (apply elem_of_cons in Hv as [->|Hv]; [vm_compute; reflexivity|]).
  inversion Hv.
Defined.

Lemma neighbours_fit_witness :
  NoDup (neighbours square_viewing_tm 0)
  /\ (forall z, z ∈ neighbours square_viewing_tm 0 ->
        exists j, z = Z.of_nat j /\ j < length (Geometry.faces (square up)) /\ j <> 0)
  /\ length (neighbours square_viewing_tm 0) < length (Geometry.faces (square up))
  /\ typed_get (_nAdjacentFaces square_viewing_tm) (Z.of_nat 0)
     = Some (Z.of_nat (length (neighbours square_viewing_tm 0))).
Proof.
  apply (neighbours_fit (H := orthographic) (square up) renderer100 eye
           square_viewing_tm 0).
  - vm_compute. reflexivity.
  - simpl. lia.
  - simpl. lia.
Defined.

Lemma stroke_frame_witness :
  square_stroked
  = set_affectedFaces (_affectedFaces square_stroked)
      (set_isFloodFill (_isFloodFill square_stroked)
         (set_drawingMaterial
            (Texture.set_needsUpdate (_drawingMaterial square_tm)) square_tm))
  /\ length (_isFloodFill square_stroked) = length (_isFloodFill square_tm)
  /\ well_formed square_stroked.
Proof.
  pose proof (stroke_frame (H := orthographic) (Vector2.mk 75 75) 80
                square_tm square_stroked square_tm_well_formed) as Hframe.
  replace (_castRayFromMouse (Vector2.mk 75 75) square_tm)
    with [Face3.mk 0 1 2 up 0] in Hframe by (vm_compute; reflexivity).
  apply Hframe. vm_compute. reflexivity.
Defined.

Lemma zoom_settles_witness :
  CameraControls.zoomCamera
    (CameraControls.inputs rotate_and_pan (CameraControls.zoomCamera wheel_turned))
  = CameraControls.inputs rotate_and_pan (CameraControls.zoomCamera wheel_turned)
  /\ CameraControls.zoom
       (CameraControls.inputs rotate_and_pan (CameraControls.zoomCamera wheel_turned))
     = CameraControls.zoom (CameraControls.zoomCamera wheel_turned).
Proof.
  apply (zoom_settles rotate_and_pan wheel_turned).
  intros wheelDelta detail Hin. unfold rotate_and_pan in Hin.
  repeat (apply elem_of_cons in Hin as [Hin|Hin]; [discriminate Hin|]).
  inversion Hin.
Defined.

(** The condition on resizes in [reconciled_when_viewing] is needed: a
    resize in the middle of a stroke switches to the viewing texture, the
    rest of the stroke is recorded, and its face is still affected when the
    mouse is up and the viewing texture in use. *)
Lemma resize_during_stroke :
  _state (controls square_page_resized) = Idle
  /\ _usingViewingTexture (controls square_page_resized) = true
  /\ affected_list (_textureManager (controls square_page_resized)) = [Some 1%Z].
Proof. repeat split; vm_compute; reflexivity. Qed.

(** The conditions of [run_returns] on the renderer's canvas are needed:
    with a renderer canvas without pixels the constructor throws, and
    after a resize to nothing so does the switch to the drawing texture
    at the next stroke. *)
Lemma renderer_without_pixels :
  new_Page (square up) (Renderer.mk 0 0 0) eye 1 = Throw InvalidStateError
  /\ run [Resize 0 0 eye; MouseDown false (Vector2.mk 75 75) None] square_page
     = Throw InvalidStateError.
Proof. split; vm_compute; reflexivity. Qed.

(** So is the one on the call stack: the fill of the two triangles of the
    square nests three calls, the third of which finds its face marked. *)
Lemma call_stack_exhausted :
  _add_recursive 2 0 (Vector2.mk 75 75) 80 square_tm = Throw RangeError
  /\ (do tm' <- _add_recursive 3 0 (Vector2.mk 75 75) 80 square_tm;
      Ok (_isFloodFill tm')) = Ok [1%Z; 1%Z].
Proof. split; vm_compute; reflexivity. Qed.
